(** * Maze explorer (COM1005 Miro task 2, offline version)

    A shallow embedding of [Miro_Task2_Offline.py] and the properties of
    its geometry, knowledge grid, frontier heuristic and exploration loop.

    Python values are embedded as follows: the grid slots ([None], the
    integers 0, 1, 2 and the string "+") are the type [value]; integers
    are [Z]; lists are [list] with Python's subscript rules (negative
    indices count from the end, anything else out of range raises
    [IndexError]); the dictionary of [find_best_direction] is a [gmap];
    exceptions are the [Raise] results of an error monad, and the methods
    that mutate the handler run in a state monad over the handler object
    that also records the actions performed. *)

From stdpp Require Import base numbers list strings gmap.
From Stdlib Require Import ZArith Lia Ascii.

Local Open Scope Z_scope.

(** ** Python prelude *)

Module Py.

Inductive value :=
| PyNone
| PyInt (n : Z)
| PyStr (s : string).

#[global] Instance value_eq_dec : EqDecision value.
Proof. solve_decision. Defined.

(** Truth value of an object, as tested by [if v:] and [not v]. *)
Definition truthy (v : value) : bool :=
  match v with
  | PyNone => false
  | PyInt n => bool_decide (n ≠ 0)
  | PyStr s => bool_decide (s ≠ EmptyString)
  end.

(** [v == w] on the values above. *)
Definition eqb (v w : value) : bool := bool_decide (v = w).

Inductive exn := IndexError | ValueError | KeyError.

#[global] Instance exn_eq_dec : EqDecision exn.
Proof. solve_decision. Defined.

Inductive result (A : Type) :=
| Ok (a : A)
| Raise (e : exn).
Arguments Ok {A} a.
Arguments Raise {A} e.

#[global] Instance result_ret : MRet result := λ A a, Ok a.
#[global] Instance result_bind : MBind result := λ A B f m,
  match m with
  | Ok a => f a
  | Raise e => Raise e
  end.

(** A [for] loop with an accumulator whose body may raise. *)
Fixpoint for_each {A B : Type} (f : B → A → result B) (acc : B) (l : list A)
  : result B :=
  match l with
  | [] => Ok acc
  | a :: l' => acc' ← f acc a; for_each f acc' l'
  end.

(** Normalisation of a subscript [i] for a sequence of length [len]. *)
Definition index_of_subscript (len : nat) (i : Z) : result nat :=
  if decide (0 ≤ i < Z.of_nat len) then Ok (Z.to_nat i)
  else if decide (- Z.of_nat len ≤ i < 0) then Ok (Z.to_nat (Z.of_nat len + i))
  else Raise IndexError.

(** [l[i]] *)
Definition getitem {A : Type} (l : list A) (i : Z) : result A :=
  n ← index_of_subscript (length l) i;
  match l !! n with
  | Some a => Ok a
  | None => Raise IndexError
  end.

(** [l[i] = a] *)
Definition setitem {A : Type} (l : list A) (i : Z) (a : A) : result (list A) :=
  n ← index_of_subscript (length l) i;
  Ok (<[n := a]> l).

(** [l * k] *)
Definition mul {A : Type} (l : list A) (k : Z) : list A :=
  mjoin (replicate (Z.to_nat k) l).

(** [range(n)] *)
Definition range (n : Z) : list Z := seqZ 0 n.

(** [l.index(a)], counting from [i]. *)
Fixpoint index_from {A : Type} `{EqDecision A} (a : A) (l : list A) (i : Z)
  : result Z :=
  match l with
  | [] => Raise ValueError
  | b :: l' => if decide (b = a) then Ok i else index_from a l' (i + 1)
  end.

Definition index {A : Type} `{EqDecision A} (l : list A) (a : A) : result Z :=
  index_from a l 0.

(** [s.split(sep)] for a one-character separator, on the characters of [s]. *)
Fixpoint split (sep : ascii) (s : list ascii) : list (list ascii) :=
  match s with
  | [] => [[]]
  | c :: s' =>
      if decide (c = sep) then [] :: split sep s'
      else match split sep s' with
           | line :: lines => (c :: line) :: lines
           | [] => [[c]]
           end
  end.

(** [m[y][x]] and [m[y][x] = v] on a list of rows. *)
Definition getitem2 {A : Type} (m : list (list A)) (y x : Z) : result A :=
  row ← getitem m y; getitem row x.

Definition setitem2 {A : Type} (m : list (list A)) (y x : Z) (a : A)
  : result (list (list A)) :=
  row ← getitem m y;
  row' ← setitem row x a;
  setitem m y row'.

End Py.
Export Py.

(** ** Directions and positions *)

Inductive Direction := north | east | south | west.

#[global] Instance Direction_eq_dec : EqDecision Direction.
Proof. solve_decision. Defined.

Definition DIRECTIONS : list Direction := [north; east; south; west].

(** [DIRECTIONS.index(direction)]; [None] is not in the tuple. *)
Definition DIRECTIONS_index (direction : option Direction) : result Z :=
  match direction with
  | Some d => Py.index DIRECTIONS d
  | None => Raise ValueError
  end.

Inductive StepType := walls | cells.

Module Offset.
Record t := Offset { x : Z; y : Z }.
End Offset.

Module Position.

Record t := Position { x : Z; y : Z; direction : option Direction }.

(** An explicit [direction] argument overrides the position's own. *)
Definition or_own (self : t) (direction : option Direction) : option Direction :=
  match direction with
  | None => Position.direction self
  | Some _ => direction
  end.

Definition right_of (self : t) (direction : option Direction) : result Direction :=
  let direction := or_own self direction in
  i ← DIRECTIONS_index direction;
  let possible_direction_index := i + 1 in
  getitem DIRECTIONS
    (if decide (possible_direction_index ≤ 3) then possible_direction_index else 0).

Definition left_of (self : t) (direction : option Direction) : result Direction :=
  let direction := or_own self direction in
  i ← DIRECTIONS_index direction;
  getitem DIRECTIONS (i - 1).

Definition handle_direction (self : t) (step_type : StepType)
    (direction : option Direction) : Offset.t :=
  let step := match step_type with walls => 1 | cells => 2 end in
  let direction := or_own self direction in
  match direction with
  | Some north => Offset.Offset 0 (- step)
  | Some east => Offset.Offset step 0
  | Some south => Offset.Offset 0 step
  | _ => Offset.Offset (- step) 0
  end.

End Position.

(** ** The simulated environment *)

Module MiroSimulation.

Definition NO_WALL := PyInt 0.
Definition WALL := PyInt 1.
Definition WALL_INTERSECTION := PyStr "+".
Definition CELL := PyInt 0.
Definition PIT := PyInt 1.
Definition WIN := PyInt 2.

(** The object keeps the map text and the parsed map.  Its
    [current_position_pointer] is the very [Position] object owned by the
    handler: the queries below take the handler's pose as it is at the
    time of the call. *)
Record t := MiroSimulation {
  WORLD_MAP_STRING : string;
  world_map : list (list value)
}.

Definition newline : ascii := ascii_of_nat 10.

Definition cell_of_char (char : ascii) : list value :=
  if decide (char ≠ " "%char) then
    if decide (char = "+"%char) then [WALL_INTERSECTION]
    else if decide (char = "-"%char ∨ char = "|"%char) then [WALL]
    else if decide (char = "."%char) then [NO_WALL]
    else if decide (char = "o"%char) then [CELL]
    else if decide (char = "x"%char) then [PIT]
    else if decide (char = "w"%char) then [WIN]
    else []
  else [].

Definition generate_world_map_from_file (world_map_string : string)
  : list (list value) :=
  (λ line, mjoin (cell_of_char <$> line))
    <$> Py.split newline (String.list_ascii_of_string world_map_string).

Definition init (world_map_string : string) : t :=
  {| WORLD_MAP_STRING := world_map_string;
     world_map := generate_world_map_from_file world_map_string |}.

Definition check_wall_infront (self : t) (position : Position.t) : result bool :=
  let offset := Position.handle_direction position walls None in
  v ← getitem2 (world_map self)
        (Position.y position + Offset.y offset)
        (Position.x position + Offset.x offset);
  if truthy v then Ok true else Ok false.

Definition check_pit_infront (self : t) (position : Position.t) : result bool :=
  let offset := Position.handle_direction position cells None in
  v ← getitem2 (world_map self)
        (Position.y position + Offset.y offset)
        (Position.x position + Offset.x offset);
  if Py.eqb v (PyInt 1) then Ok true else Ok false.

Definition check_treasure_infront (self : t) (position : Position.t) : result bool :=
  let offset := Position.handle_direction position cells None in
  v ← getitem2 (world_map self)
        (Position.y position + Offset.y offset)
        (Position.x position + Offset.x offset);
  if Py.eqb v (PyInt 2) then Ok true else Ok false.

(** *** Displaying a map

    [generate_world_map_from_list] prints the text it builds and returns
    nothing; here it gives that text, as the bytes of its UTF-8 form (an
    arrow is three bytes). *)

(** [arrow_map[direction]] *)
Definition arrow_map (direction : option Direction) : result string :=
  match direction with
  | Some north => Ok "↑"
  | Some east => Ok "→"
  | Some south => Ok "↓"
  | Some west => Ok "←"
  | None => Raise KeyError
  end.

(** The body of the loop over the columns: the text [to_append] for the
    slot [char] at row [i] and column [j]. *)
Definition to_append (current_position : Position.t) (i j : Z) (char : value)
  : result string :=
  let even_row := bool_decide (i `mod` 2 = 0) in
  let even_column := bool_decide (j `mod` 2 = 0) in
  if decide (Position.y current_position = i ∧ Position.x current_position = j) then
    arrow ← arrow_map (Position.direction current_position);
    Ok (arrow +:+ " ")
  else if Py.eqb char PyNone then Ok "? "
  else if even_row && negb even_column then
    if Py.eqb char WALL then Ok "- " else Ok ". "
  else if negb even_row && even_column then
    if Py.eqb char WALL then Ok "| " else Ok ". "
  else if negb even_row && negb even_column then
    if Py.eqb char CELL then Ok "o "
    else if Py.eqb char PIT then Ok "x "
    else Ok "w "
  else Ok "+ ".

Definition generate_world_map_from_list (world_map : list (list value))
    (current_position : Position.t) : result string :=
  for_each
    (λ output_map i,
       row ← getitem world_map i;
       current_line ←
         for_each
           (λ current_line j,
              char ← getitem2 world_map i j;
              s ← to_append current_position i j char;
              Ok (current_line +:+ s))
           "" (Py.range (Z.of_nat (length row)));
       Ok (output_map +:+ current_line +:+ String newline ""))
    "" (Py.range (Z.of_nat (length world_map))).

End MiroSimulation.

(** ** The handler: map building and movement *)

(** What the handler does to the robot and to its map, in order: the
    primitive turns and moves it commands, each noted when the method is
    called, and the stores into [_world_map], each with the value found in
    the slot and the value written. *)
Inductive action :=
| TurnLeft
| TurnRight
| MoveForward
| MoveBackward
| Store (y x : Z) (old new : value).

Module MiroHandler.

Definition _NO_WALL := PyInt 0.
Definition _WALL := PyInt 1.
Definition _WALL_INTERSECTION := PyStr "+".
Definition _CELL := PyInt 0.
Definition _PIT := PyInt 1.

Record t := MiroHandler {
  _MAP_DIMENSIONS : Z;
  _current_postion : Position.t;
  _world_map : list (list value)
}.

Definition position (self : t) : Position.t := _current_postion self.
Definition direction (self : t) : option Direction :=
  Position.direction (position self).

(** *** Construction *)

Definition _generate_world_map (map_dimensions : Z) (current_postion : Position.t)
  : result (list (list value)) :=
  let WALL := _WALL in
  let SECT := _WALL_INTERSECTION in
  let world_map := [[SECT] ++ Py.mul [WALL; SECT] (map_dimensions `div` 2)] in
  let world_map :=
    foldl (λ world_map i,
             if decide (i `mod` 2 = 0) then
               world_map ++ [[WALL] ++ Py.mul [PyNone] (map_dimensions - 2) ++ [WALL]]
             else
               world_map ++ [[SECT] ++ Py.mul [PyNone; SECT] (map_dimensions `div` 2)])
          world_map (Py.range (map_dimensions - 2)) in
  let world_map :=
    world_map ++ [[SECT] ++ Py.mul [WALL; SECT] (map_dimensions `div` 2)] in
  setitem2 world_map (Position.y current_postion) (Position.x current_postion) _CELL.

Definition init (map_dimensions : Z) (starting_position : Position.t) : result t :=
  world_map ← _generate_world_map map_dimensions starting_position;
  Ok {| _MAP_DIMENSIONS := map_dimensions;
        _current_postion := starting_position;
        _world_map := world_map |}.

(** *** The monad of the mutating methods

    A method call takes the handler object and gives its result (or the
    exception it raised), the object as the call left it, and the actions
    it performed.  An exception leaves the mutations made before it. *)

Definition M (A : Type) : Type := t → result A * t * list action.

#[global] Instance M_ret : MRet M := λ A a self, (Ok a, self, []).
#[global] Instance M_bind : MBind M := λ A B f m self,
  match m self with
  | (Ok a, self1, acts1) =>
      match f a self1 with
      | (r, self2, acts2) => (r, self2, acts1 ++ acts2)
      end
  | (Raise e, self1, acts1) => (Raise e, self1, acts1)
  end.

(** A method that only reads the object. *)
Definition read {A : Type} (f : t → result A) : M A :=
  λ self, (f self, self, []).

Definition perform (a : action) : M unit := λ self, (Ok (), self, [a]).

Definition set_position (p : Position.t) : M unit :=
  λ self, (Ok (), {| _MAP_DIMENSIONS := _MAP_DIMENSIONS self;
                     _current_postion := p;
                     _world_map := _world_map self |}, []).

(** [self._world_map[y][x] = v] *)
Definition store (y x : Z) (v : value) : M unit :=
  λ self,
    match getitem2 (_world_map self) y x, setitem2 (_world_map self) y x v with
    | Ok old, Ok world_map =>
        (Ok (), {| _MAP_DIMENSIONS := _MAP_DIMENSIONS self;
                   _current_postion := _current_postion self;
                   _world_map := world_map |}, [Store y x old v])
    | Raise e, _ | _, Raise e => (Raise e, self, [])
    end.

(** *** Movement *)

Definition move_forward : M unit :=
  perform MoveForward;;
  pos ← read (λ self, Ok (_current_postion self));
  let offset := Position.handle_direction pos cells None in
  set_position (Position.Position (Position.x pos + Offset.x offset)
                  (Position.y pos) (Position.direction pos));;
  pos ← read (λ self, Ok (_current_postion self));
  set_position (Position.Position (Position.x pos)
                  (Position.y pos + Offset.y offset) (Position.direction pos)).

Definition move_backward : M unit :=
  perform MoveBackward;;
  pos ← read (λ self, Ok (_current_postion self));
  let offset := Position.handle_direction pos cells None in
  set_position (Position.Position (Position.x pos - Offset.x offset)
                  (Position.y pos) (Position.direction pos));;
  pos ← read (λ self, Ok (_current_postion self));
  set_position (Position.Position (Position.x pos)
                  (Position.y pos - Offset.y offset) (Position.direction pos)).

Definition turn_left : M unit :=
  perform TurnLeft;;
  d ← read (λ self, Position.left_of (_current_postion self) None);
  pos ← read (λ self, Ok (_current_postion self));
  set_position (Position.Position (Position.x pos) (Position.y pos) (Some d)).

Definition turn_right : M unit :=
  perform TurnRight;;
  d ← read (λ self, Position.right_of (_current_postion self) None);
  pos ← read (λ self, Ok (_current_postion self));
  set_position (Position.Position (Position.x pos) (Position.y pos) (Some d)).

(** The [while] loop of [turn_to_face]: walk [current_index] down until
    the entry is [direction].  Every turn of the loop subscripts
    [direction_order], which raises once the index has gone below
    [-len(direction_order)]; [n] counts the decrements left before that
    happens, so the loop is structural in [n]. *)
Fixpoint turn_to_face_loop (n : nat) (direction_order : list Direction)
    (direction : Direction) (current_index : Z) : result Z :=
  entry ← getitem direction_order current_index;
  if decide (entry ≠ direction) then
    match n with
    | S n' => turn_to_face_loop n' direction_order direction (current_index - 1)
    | O => Raise IndexError
    end
  else Ok current_index.

(** The number of left turns [turn_to_face] works out. *)
Definition left_count (self : t) (direction : Direction) : result Z :=
  let direction_order := Py.mul DIRECTIONS 2 in
  i ← Py.index (Some <$> direction_order) (MiroHandler.direction self);
  let start_index := i + 4 in
  current_index ←
    turn_to_face_loop (Z.to_nat (start_index + Z.of_nat (length direction_order)))
      direction_order direction start_index;
  Ok (start_index - current_index).

Definition turn_to_face (direction : Direction) : M unit :=
  left_count ← read (λ self, left_count self direction);
  if decide (left_count = 1) then turn_left
  else if decide (left_count = 2) then turn_left;; turn_left
  else if decide (left_count = 3) then turn_right
  else mret ().

(** *** Reading the map *)

Definition _get_cell_in_direction (self : t) (positon : Position.t)
    (target_direction : Direction) : result value :=
  let offset := Position.handle_direction positon cells (Some target_direction) in
  getitem2 (_world_map self)
    (Position.y positon + Offset.y offset) (Position.x positon + Offset.x offset).

Definition _get_wall_in_direction (self : t) (positon : Position.t)
    (target_direction : Direction) : result value :=
  let offset := Position.handle_direction positon walls (Some target_direction) in
  getitem2 (_world_map self)
    (Position.y positon + Offset.y offset) (Position.x positon + Offset.x offset).

Definition check_valid_path (self : t) (target_direction : Direction) : result bool :=
  let pos := _current_postion self in
  wall ← _get_wall_in_direction self pos target_direction;
  if negb (truthy wall) then
    let offset := Position.handle_direction pos cells (Some target_direction) in
    cell ← getitem2 (_world_map self)
             (Position.y pos + Offset.y offset) (Position.x pos + Offset.x offset);
    if negb (Py.eqb cell _PIT) then Ok true else Ok false
  else Ok false.

Definition direction_recorded (self : t) (direction : Direction) : result bool :=
  wall_value ← _get_wall_in_direction self (position self) direction;
  if Py.eqb wall_value (PyInt 0) then
    cell ← _get_cell_in_direction self (position self) direction;
    if Py.eqb cell PyNone then Ok false else Ok true
  else if Py.eqb wall_value PyNone then Ok false
  else Ok true.

(** *** Recording percepts *)

Definition record_wall_infront (wall_infront : bool) : M bool :=
  pos ← read (λ self, Ok (_current_postion self));
  let offset := Position.handle_direction pos walls None in
  store (Position.y pos + Offset.y offset) (Position.x pos + Offset.x offset)
    (if wall_infront then _WALL else _NO_WALL);;
  mret wall_infront.

Definition record_pit_infront (pit_infront : bool) : M bool :=
  pos ← read (λ self, Ok (_current_postion self));
  let offset := Position.handle_direction pos cells None in
  store (Position.y pos + Offset.y offset) (Position.x pos + Offset.x offset)
    (if pit_infront then _PIT else _CELL);;
  mret pit_infront.

(** *** Direction priorities *)

Inductive Order := pathfinding | scanning.

Definition generate_direction_priority (self : t) (order : option Order)
  : result (list Direction) :=
  let order := default pathfinding order in
  forward_direction ←
    match order with
    | pathfinding => Position.left_of (position self) None
    | scanning =>
        (* [forward_direction = self.direction]; were it [None], the
           [left_of] below would raise on it *)
        match direction self with
        | Some d => Ok d
        | None => Raise ValueError
        end
    end;
  left ← Position.left_of (position self) (Some forward_direction);
  let direction_priority := [forward_direction; left] in
  inner ← Position.left_of (position self) (direction self);
  backward ← Position.left_of (position self) (Some inner);
  match order with
  | pathfinding =>
      right ← Position.right_of (position self) (Some forward_direction);
      Ok (direction_priority ++ [right; backward])
  | scanning =>
      right ← Position.right_of (position self) (Some forward_direction);
      Ok (direction_priority ++ [backward; right])
  end.

(** *** The frontier heuristic *)

Definition count_surrounding_unexplored (self : t) (scanning_start_cell : Position.t)
  : result nat :=
  for_each
    (λ (unexplored_cells_count : nat) scan_direction,
       wall ← _get_wall_in_direction self scanning_start_cell scan_direction;
       if negb (Py.eqb wall _WALL) then
         let offset :=
           Position.handle_direction scanning_start_cell cells (Some scan_direction) in
         let cell_in_scanning_direction :=
           Position.Position (Position.x scanning_start_cell + Offset.x offset)
             (Position.y scanning_start_cell + Offset.y offset) None in
         cell ← getitem2 (_world_map self)
                  (Position.y cell_in_scanning_direction)
                  (Position.x cell_in_scanning_direction);
         if Py.eqb cell PyNone then Ok (unexplored_cells_count + 1)%nat
         else Ok unexplored_cells_count
       else Ok unexplored_cells_count)
    0%nat DIRECTIONS.

(** [max(d)] over the keys of a dictionary. *)
Definition max_key {V : Type} (d : gmap nat V) : result nat :=
  match (map_to_list d).*1 with
  | [] => Raise ValueError
  | keys => Ok (max_list keys)
  end.

(** [d[k]] *)
Definition dict_getitem {V : Type} (d : gmap nat V) (k : nat) : result V :=
  match d !! k with
  | Some v => Ok v
  | None => Raise KeyError
  end.

(** The body of the loop of [find_best_direction]. *)
Definition consider_direction (self : t) (unexplored_dict : gmap nat (list Direction))
    (move_direction : Direction) : result (gmap nat (list Direction)) :=
  valid ← check_valid_path self move_direction;
  if (valid : bool) then
    let offset :=
      Position.handle_direction (position self) cells (Some move_direction) in
    unexplored_cells_in_move_direction ←
      count_surrounding_unexplored self
        (Position.Position (Position.x (position self) + Offset.x offset)
           (Position.y (position self) + Offset.y offset) None);
    let unexplored_dict :=
      if decide (unexplored_dict !! unexplored_cells_in_move_direction = None)
      then <[unexplored_cells_in_move_direction := []]> unexplored_dict
      else unexplored_dict in
    l ← dict_getitem unexplored_dict unexplored_cells_in_move_direction;
    Ok (<[unexplored_cells_in_move_direction := l ++ [move_direction]]> unexplored_dict)
  else Ok unexplored_dict.

Definition find_best_direction (self : t) : result Direction :=
  priority ← generate_direction_priority self None;
  unexplored_dict ← for_each (consider_direction self) ∅ priority;
  best ← max_key unexplored_dict;
  l ← dict_getitem unexplored_dict best;
  getitem l 0.

End MiroHandler.

(** ** The exploration loop *)

(** One turn of the [for scan_direction in directions] loop; the result
    is [true] when the loop is left by [break] with the goal reached. *)
Definition scan_direction_body (miro_simulation : MiroSimulation.t)
    (scan_direction : Direction) : MiroHandler.M bool :=
  recorded ← MiroHandler.read (λ h, MiroHandler.direction_recorded h scan_direction);
  if negb recorded then
    MiroHandler.turn_to_face scan_direction;;
    wall ← MiroHandler.read (λ h,
      MiroSimulation.check_wall_infront miro_simulation (MiroHandler.position h));
    wall_infront ← MiroHandler.record_wall_infront wall;
    if negb wall_infront then
      treasure ← MiroHandler.read (λ h,
        MiroSimulation.check_treasure_infront miro_simulation (MiroHandler.position h));
      if (treasure : bool) then
        MiroHandler.move_forward;;
        mret true
      else
        pit ← MiroHandler.read (λ h,
          MiroSimulation.check_pit_infront miro_simulation (MiroHandler.position h));
        MiroHandler.record_pit_infront pit;;
        mret false
    else mret false
  else mret false.

Fixpoint scan_loop (miro_simulation : MiroSimulation.t) (directions : list Direction)
  : MiroHandler.M bool :=
  match directions with
  | [] => mret false
  | scan_direction :: directions' =>
      goal_reached ← scan_direction_body miro_simulation scan_direction;
      if (goal_reached : bool) then mret true
      else scan_loop miro_simulation directions'
  end.

(** The scan phase: the result is [goal_reached]. *)
Definition scan_phase (miro_simulation : MiroSimulation.t) : MiroHandler.M bool :=
  directions ← MiroHandler.read (λ h,
    MiroHandler.generate_direction_priority h (Some MiroHandler.scanning));
  scan_loop miro_simulation directions.

(** The decide and move phase, run when the goal was not reached. *)
Definition move_phase : MiroHandler.M unit :=
  target_drection ← MiroHandler.read MiroHandler.find_best_direction;
  MiroHandler.turn_to_face target_drection;;
  MiroHandler.move_forward.

(** How a run stands: the goal was reached and the loop left, an exception
    ended the program, or the loop is still running when the bound on the
    number of iterations observed is reached. *)
Inductive status := GoalFound | Crashed (e : exn) | Running.

#[global] Instance status_eq_dec : EqDecision status.
Proof. solve_decision. Defined.

(** [while not goal_reached], observed for at most [fuel] iterations. *)
Fixpoint exploration_loop (miro_simulation : MiroSimulation.t) (fuel : nat)
    (miro_handler : MiroHandler.t) : status * MiroHandler.t * list action :=
  match fuel with
  | O => (Running, miro_handler, [])
  | S fuel' =>
      match scan_phase miro_simulation miro_handler with
      | (Raise e, h, acts) => (Crashed e, h, acts)
      | (Ok true, h, acts) => (GoalFound, h, acts)
      | (Ok false, h, acts) =>
          match move_phase h with
          | (Raise e, h', acts') => (Crashed e, h', acts ++ acts')
          | (Ok _, h', acts') =>
              match exploration_loop miro_simulation fuel' h' with
              | (st, h'', acts'') => (st, h'', acts ++ acts' ++ acts'')
              end
          end
      end
  end.

(** The program: build the handler and the simulation for the configured
    [MAP_SIZE] and [WORLD_MAP_STRING], then explore. *)
Definition main (MAP_SIZE : Z) (WORLD_MAP_STRING : string) (fuel : nat)
  : result (status * MiroHandler.t * list action) :=
  miro_handler ←
    MiroHandler.init (MAP_SIZE * 2 + 1)
      (Position.Position 1 (MAP_SIZE * 2 - 1) (Some east));
  let miro_simulation := MiroSimulation.init WORLD_MAP_STRING in
  Ok (exploration_loop miro_simulation fuel miro_handler).


(** * Specification *)

(** ** Geometry of the specification *)

(** The two rotations of the four-cycle north, east, south, west. *)
Definition rotateLeft (d : Direction) : Direction :=
  match d with
  | north => west
  | east => north
  | south => east
  | west => south
  end.

Definition rotateRight (d : Direction) : Direction :=
  match d with
  | north => east
  | east => south
  | south => west
  | west => north
  end.

(** The facing after a sequence of primitive turns. *)
Definition apply_turn (d : Direction) (a : action) : Direction :=
  match a with
  | TurnLeft => rotateLeft d
  | TurnRight => rotateRight d
  | _ => d
  end.

Definition apply_turns (turns : list action) (d : Direction) : Direction :=
  foldl apply_turn d turns.

Definition is_turn (a : action) : Prop := a = TurnLeft ∨ a = TurnRight.

(** The handler with its pose turned to [d], everything else as it is. *)
Definition facing (h : MiroHandler.t) (d : Direction) : MiroHandler.t :=
  {| MiroHandler._MAP_DIMENSIONS := MiroHandler._MAP_DIMENSIONS h;
     MiroHandler._current_postion :=
       Position.Position (Position.x (MiroHandler.position h))
         (Position.y (MiroHandler.position h)) (Some d);
     MiroHandler._world_map := MiroHandler._world_map h |}.

(** The handler moved to the coordinates [(x, y)]. *)
Definition moved_to (h : MiroHandler.t) (x y : Z) : MiroHandler.t :=
  {| MiroHandler._MAP_DIMENSIONS := MiroHandler._MAP_DIMENSIONS h;
     MiroHandler._current_postion :=
       Position.Position x y (MiroHandler.direction h);
     MiroHandler._world_map := MiroHandler._world_map h |}.

(** The handler with another map. *)
Definition with_map (h : MiroHandler.t) (world_map : list (list value)) : MiroHandler.t :=
  {| MiroHandler._MAP_DIMENSIONS := MiroHandler._MAP_DIMENSIONS h;
     MiroHandler._current_postion := MiroHandler._current_postion h;
     MiroHandler._world_map := world_map |}.

(** The operations of the handler that may change it. *)
Inductive operation :=
| op_move_forward
| op_move_backward
| op_turn_left
| op_turn_right
| op_turn_to_face (direction : Direction)
| op_record_wall_infront (wall_infront : bool)
| op_record_pit_infront (pit_infront : bool).

#[global] Instance operation_eq_dec : EqDecision operation.
Proof. solve_decision. Defined.

Definition run_operation (op : operation) : MiroHandler.M unit :=
  match op with
  | op_move_forward => MiroHandler.move_forward
  | op_move_backward => MiroHandler.move_backward
  | op_turn_left => MiroHandler.turn_left
  | op_turn_right => MiroHandler.turn_right
  | op_turn_to_face d => MiroHandler.turn_to_face d
  | op_record_wall_infront b => MiroHandler.record_wall_infront b;; mret ()
  | op_record_pit_infront b => MiroHandler.record_pit_infront b;; mret ()
  end.

(** The handler as a call leaves it. *)
Definition state_after {A : Type} (m : MiroHandler.M A) (h : MiroHandler.t)
  : MiroHandler.t := (m h).1.2.

Definition actions_of {A : Type} (m : MiroHandler.M A) (h : MiroHandler.t)
  : list action := (m h).2.

Definition result_of {A : Type} (m : MiroHandler.M A) (h : MiroHandler.t)
  : result A := (m h).1.1.

(** Both coordinates of the pose are odd: it designates a cell slot. *)
Definition on_cell (h : MiroHandler.t) : Prop :=
  Z.odd (Position.x (MiroHandler.position h)) = true ∧
  Z.odd (Position.y (MiroHandler.position h)) = true.

(** The unit step of a direction in map coordinates ([y] grows southward). *)
Definition dx (d : Direction) : Z :=
  match d with
  | east => 1
  | west => -1
  | _ => 0
  end.

Definition dy (d : Direction) : Z :=
  match d with
  | north => -1
  | south => 1
  | _ => 0
  end.

(** The direction behind [d]. *)
Definition opposite (d : Direction) : Direction := rotateLeft (rotateLeft d).

(** ** The frontier heuristic of the specification *)

(** The cell one cell step away from [p] in direction [d]. *)
Definition cell_toward (p : Position.t) (d : Direction) : Position.t :=
  let offset := Position.handle_direction p cells (Some d) in
  Position.Position (Position.x p + Offset.x offset) (Position.y p + Offset.y offset) None.

(** The unexplored-neighbour count of the cell reached by moving toward [d]. *)
Definition unexploredScore (h : MiroHandler.t) (d : Direction) : result nat :=
  MiroHandler.count_surrounding_unexplored h (cell_toward (MiroHandler.position h) d).

(** The candidate moves: the directions of [priority], in that order, that
    have a valid path, each with its score. *)
Fixpoint candidates (h : MiroHandler.t) (priority : list Direction)
  : result (list (nat * Direction)) :=
  match priority with
  | [] => Ok []
  | d :: priority' =>
      valid ← MiroHandler.check_valid_path h d;
      if (valid : bool) then
        n ← unexploredScore h d;
        rest ← candidates h priority';
        Ok ((n, d) :: rest)
      else candidates h priority'
  end.

(** A scan over the ordered candidates that keeps the best score so far
    with the direction first seen with it. *)
Fixpoint stable_max (best : option (nat * Direction)) (cands : list (nat * Direction))
  : option (nat * Direction) :=
  match cands with
  | [] => best
  | (n, d) :: cands' =>
      match best with
      | Some (bn, _) =>
          if decide (bn < n)%nat then stable_max (Some (n, d)) cands'
          else stable_max best cands'
      | None => stable_max (Some (n, d)) cands'
      end
  end.

(** [selectBestMove] as the specification words it: enumerate the
    pathfinding order, keep the open directions, score them, take the
    maximum, the earliest on ties; no candidate at all is an error. *)
Definition selectBestMove (h : MiroHandler.t) : result Direction :=
  priority ← MiroHandler.generate_direction_priority h None;
  cands ← candidates h priority;
  match stable_max None cands with
  | Some (_, d) => Ok d
  | None => Raise ValueError
  end.

(** [(n, d)] is the first entry of [cands] with the greatest score. *)
Definition first_max (cands : list (nat * Direction)) (n : nat) (d : Direction) : Prop :=
  ∃ before after,
    cands = before ++ (n, d) :: after ∧
    Forall (λ c, (c.1 < n)%nat) before ∧
    Forall (λ c, (c.1 ≤ n)%nat) after.

(** What one turn of the loop of [find_best_direction] does to the dictionary. *)
Definition dict_add (m : gmap nat (list Direction)) (c : nat * Direction)
  : gmap nat (list Direction) :=
  <[c.1 := default [] (m !! c.1) ++ [c.2]]> m.

(** ** Well-formed knowledge grids *)

(** The map has [n] rows of [n] slots. *)
Definition square (n : Z) (world_map : list (list value)) : Prop :=
  Z.of_nat (length world_map) = n ∧
  Forall (λ row, Z.of_nat (length row) = n) world_map.

(** The wall ring: the wall-segment slots of the outermost rows and
    columns (those with an odd index along the border) hold Wall. *)
Definition wall_ring (n : Z) (world_map : list (list value)) : Prop :=
  Forall (λ i, Z.odd i = true →
               getitem2 world_map 0 i = Ok MiroHandler._WALL ∧
               getitem2 world_map (n - 1) i = Ok MiroHandler._WALL ∧
               getitem2 world_map i 0 = Ok MiroHandler._WALL ∧
               getitem2 world_map i (n - 1) = Ok MiroHandler._WALL)
         (seqZ 0 n).

(** The position is a cell slot inside the wall ring. *)
Definition interior_cell (n : Z) (p : Position.t) : Prop :=
  Z.odd (Position.x p) = true ∧ Z.odd (Position.y p) = true ∧
  0 < Position.x p < n - 1 ∧ 0 < Position.y p < n - 1.

(** The handler's map is a square of odd side with its wall ring, and its
    pose is on a cell inside the ring. *)
Definition enclosed (h : MiroHandler.t) : Prop :=
  3 ≤ MiroHandler._MAP_DIMENSIONS h ∧
  Z.odd (MiroHandler._MAP_DIMENSIONS h) = true ∧
  square (MiroHandler._MAP_DIMENSIONS h) (MiroHandler._world_map h) ∧
  wall_ring (MiroHandler._MAP_DIMENSIONS h) (MiroHandler._world_map h) ∧
  interior_cell (MiroHandler._MAP_DIMENSIONS h) (MiroHandler.position h).

#[global] Instance result_eq_dec {A : Type} `{EqDecision A} : EqDecision (result A).
Proof. solve_decision. Defined.

#[global] Instance square_dec n world_map : Decision (square n world_map).
Proof. unfold square. apply _. Defined.

#[global] Instance wall_ring_dec n world_map : Decision (wall_ring n world_map).
Proof. unfold wall_ring. apply _. Defined.

#[global] Instance interior_cell_dec n p : Decision (interior_cell n p).
Proof. unfold interior_cell. apply _. Defined.

#[global] Instance enclosed_dec h : Decision (enclosed h).
Proof. unfold enclosed. apply _. Defined.

(** ** Knowledge and its growth *)

(** What the environment answers for a slot of its map: whether the
    wall-segment slot [(x, y)] holds a wall, and whether the cell slot
    [(x, y)] holds a pit. *)
Definition oracle_wall (miro_simulation : MiroSimulation.t) (x y : Z) : result bool :=
  v ← getitem2 (MiroSimulation.world_map miro_simulation) y x; Ok (truthy v).

Definition oracle_pit (miro_simulation : MiroSimulation.t) (x y : Z) : result bool :=
  v ← getitem2 (MiroSimulation.world_map miro_simulation) y x; Ok (Py.eqb v (PyInt 1)).

(** The intersection slots (both coordinates even) hold Intersection. *)
Definition intersections (n : Z) (world_map : list (list value)) : Prop :=
  ∀ x y, 0 ≤ x < n → 0 ≤ y < n → Z.even x = true → Z.even y = true →
         getitem2 world_map y x = Ok MiroHandler._WALL_INTERSECTION.

(** A wall-segment slot is Unknown, or a wall of the ring, or what the
    environment answers for it. *)
Definition consistent_walls (miro_simulation : MiroSimulation.t) (n : Z)
    (world_map : list (list value)) : Prop :=
  ∀ x y v, 0 ≤ x < n → 0 ≤ y < n → Z.odd x ≠ Z.odd y →
           getitem2 world_map y x = Ok v →
           v = PyNone ∨
           (v = MiroHandler._WALL ∧ (x = 0 ∨ x = n - 1 ∨ y = 0 ∨ y = n - 1)) ∨
           ∃ b : bool, oracle_wall miro_simulation x y = Ok b ∧
                       v = if b then MiroHandler._WALL else MiroHandler._NO_WALL.

(** A cell slot is Unknown, or the start cell marked Cell when the map was
    built, or what the environment answers for it. *)
Definition consistent_cells (miro_simulation : MiroSimulation.t) (n sx sy : Z)
    (world_map : list (list value)) : Prop :=
  ∀ x y v, 0 ≤ x < n → 0 ≤ y < n → Z.odd x = true → Z.odd y = true →
           getitem2 world_map y x = Ok v →
           v = PyNone ∨
           (x = sx ∧ y = sy ∧ v = MiroHandler._CELL) ∨
           ∃ b : bool, oracle_pit miro_simulation x y = Ok b ∧
                       v = if b then MiroHandler._PIT else MiroHandler._CELL.

(** Once the robot has left the start cell, the four wall segments around
    that cell are recorded. *)
Definition start_walls_known (sx sy : Z) (h : MiroHandler.t) : Prop :=
  (Position.x (MiroHandler.position h) = sx ∧ Position.y (MiroHandler.position h) = sy) ∨
  ∀ d, ∃ w, getitem2 (MiroHandler._world_map h) (sy + dy d) (sx + dx d) = Ok w ∧
            w ≠ PyNone.

(** The invariant of the exploration loop, for the environment
    [miro_simulation] and the start cell [(sx, sy)]. *)
Record Inv (miro_simulation : MiroSimulation.t) (sx sy : Z) (h : MiroHandler.t)
  : Prop := {
  inv_enclosed : enclosed h;
  inv_facing : is_Some (MiroHandler.direction h);
  inv_intersections :
    intersections (MiroHandler._MAP_DIMENSIONS h) (MiroHandler._world_map h);
  inv_walls :
    consistent_walls miro_simulation (MiroHandler._MAP_DIMENSIONS h)
      (MiroHandler._world_map h);
  inv_cells :
    consistent_cells miro_simulation (MiroHandler._MAP_DIMENSIONS h) sx sy
      (MiroHandler._world_map h);
  inv_start_cell :
    interior_cell (MiroHandler._MAP_DIMENSIONS h) (Position.Position sx sy None);
  inv_start_walls : start_walls_known sx sy h
}.

(** A store that respects the knowledge already in the map: it is in
    range, not on an intersection slot, writes a known value, and the slot
    was Unknown or already held that value. *)
Definition monotone_store (n : Z) (a : action) : Prop :=
  match a with
  | Store y x old new =>
      0 ≤ x < n ∧ 0 ≤ y < n ∧
      ¬ (Z.even x = true ∧ Z.even y = true) ∧
      new ≠ PyNone ∧ (old = PyNone ∨ new = old)
  | _ => True
  end.

(** Every slot known in the first map holds the same value in the second. *)
Definition knows_le (world_map world_map' : list (list value)) : Prop :=
  ∀ x y v, 0 ≤ x → 0 ≤ y → getitem2 world_map y x = Ok v → v ≠ PyNone →
           getitem2 world_map' y x = Ok v.

(** The map of [h'] has the shape of the map of [h], its intersections,
    and everything the map of [h] knows. *)
Definition evolves (h h' : MiroHandler.t) : Prop :=
  MiroHandler._MAP_DIMENSIONS h' = MiroHandler._MAP_DIMENSIONS h ∧
  square (MiroHandler._MAP_DIMENSIONS h) (MiroHandler._world_map h') ∧
  intersections (MiroHandler._MAP_DIMENSIONS h) (MiroHandler._world_map h') ∧
  knows_le (MiroHandler._world_map h) (MiroHandler._world_map h').

(** The outcome of a call started in [h]: every store it made is
    monotone, the map evolved, and [Q] holds of the result and the handler
    the call left, whether it returned or raised. *)
Definition outcome_ok {A : Type} (h : MiroHandler.t)
    (Q : result A → MiroHandler.t → Prop)
    (out : result A * MiroHandler.t * list action) : Prop :=
  Forall (monotone_store (MiroHandler._MAP_DIMENSIONS h)) out.2 ∧
  evolves h out.1.2 ∧
  Q out.1.1 out.1.2.

(** The pose of [h'] is on the cell of [h]. *)
Definition same_cell (h h' : MiroHandler.t) : Prop :=
  Position.x (MiroHandler.position h') = Position.x (MiroHandler.position h) ∧
  Position.y (MiroHandler.position h') = Position.y (MiroHandler.position h).

(** The map obtained by performing, in order, the stores of a sequence of
    actions on a map. *)
Definition replay (acts : list action) (world_map : list (list value))
  : result (list (list value)) :=
  for_each (λ world_map a,
              match a with
              | Store y x _ new => setitem2 world_map y x new
              | _ => Ok world_map
              end)
           world_map acts.

(** A call is traced when the actions it reports account for the map it
    leaves: whether it returns or raises, that map is the one it was given
    with its stores replayed. *)
Definition traced {A : Type} (m : MiroHandler.M A) : Prop :=
  ∀ h, replay (m h).2 (MiroHandler._world_map h) = Ok (MiroHandler._world_map (m h).1.2).

(** The loop started from [h0] is at the head of an iteration with the
    handler [h]. *)
Definition running_at (miro_simulation : MiroSimulation.t) (h0 h : MiroHandler.t) : Prop :=
  ∃ fuel acts, exploration_loop miro_simulation fuel h0 = (Running, h, acts).

(** The slots of the map as [_generate_world_map] lays them out. *)
Definition initial_slot (n x y : Z) : value :=
  if decide (y = 0 ∨ y = n - 1) then
    if Z.even x then MiroHandler._WALL_INTERSECTION else MiroHandler._WALL
  else if Z.odd y then
    if decide (x = 0 ∨ x = n - 1) then MiroHandler._WALL else PyNone
  else
    if Z.even x then MiroHandler._WALL_INTERSECTION else PyNone.

(** ** Sample mazes *)

(** A 1×1 maze whose only cell holds the treasure. *)
Definition maze_1x1_goal : string :=
"+  -  +
|  w  |
+  -  +".

(** A 2×2 maze with a wall north of the start cell and the way east open. *)
Definition maze_2x2_wall_north : string :=
"+  -  +  -  +
|  o  .  w  |
+  -  +  .  +
|  o  .  o  |
+  -  +  -  +".

(** The handler at the start of the 2×2 maze above once the first scan
    phase is over: east is recorded open, north is recorded as a wall, and
    the robot faces north. *)
Definition scanned_2x2_wall_north : MiroHandler.t :=
  {| MiroHandler._MAP_DIMENSIONS := 5;
     MiroHandler._current_postion := Position.Position 1 3 (Some north);
     MiroHandler._world_map :=
       [[PyStr "+"; PyInt 1; PyStr "+"; PyInt 1; PyStr "+"];
        [PyInt 1; PyNone; PyNone; PyNone; PyInt 1];
        [PyStr "+"; PyInt 1; PyStr "+"; PyNone; PyStr "+"];
        [PyInt 1; PyInt 0; PyInt 0; PyInt 0; PyInt 1];
        [PyStr "+"; PyInt 1; PyStr "+"; PyInt 1; PyStr "+"]] |}.

(** The same place in a maze where the way north is open as well. *)
Definition scanned_2x2_open : MiroHandler.t :=
  {| MiroHandler._MAP_DIMENSIONS := 5;
     MiroHandler._current_postion := Position.Position 1 3 (Some north);
     MiroHandler._world_map :=
       [[PyStr "+"; PyInt 1; PyStr "+"; PyInt 1; PyStr "+"];
        [PyInt 1; PyInt 0; PyNone; PyNone; PyInt 1];
        [PyStr "+"; PyInt 0; PyStr "+"; PyNone; PyStr "+"];
        [PyInt 1; PyInt 0; PyInt 0; PyInt 0; PyInt 1];
        [PyStr "+"; PyInt 1; PyStr "+"; PyInt 1; PyStr "+"]] |}.

(** The handler of the 1×1 maze as built: the four walls of the ring
    around the only cell. *)
Definition handler_1x1 : MiroHandler.t :=
  {| MiroHandler._MAP_DIMENSIONS := 3;
     MiroHandler._current_postion := Position.Position 1 1 (Some east);
     MiroHandler._world_map :=
       [[PyStr "+"; PyInt 1; PyStr "+"];
        [PyInt 1; PyInt 0; PyInt 1];
        [PyStr "+"; PyInt 1; PyStr "+"]] |}.

(** ** The display and the map file *)

(** The characters of a text. *)
Definition chars (s : string) : list ascii := String.list_ascii_of_string s.

(** The text of the slots of a row from column [j] on, and of the rows of
    a map from row [i] on, by recursion on them. *)
Fixpoint line_text (current_position : Position.t) (i j : Z) (row : list value)
  : result string :=
  match row with
  | [] => Ok ""
  | char :: row' =>
      s ← MiroSimulation.to_append current_position i j char;
      rest ← line_text current_position i (j + 1) row';
      Ok (s +:+ rest)
  end.

Fixpoint map_text (current_position : Position.t) (i : Z) (world_map : list (list value))
  : result string :=
  match world_map with
  | [] => Ok ""
  | row :: world_map' =>
      line ← line_text current_position i 0 row;
      rest ← map_text current_position (i + 1) world_map';
      Ok (line +:+ String MiroSimulation.newline "" +:+ rest)
  end.





(** ** How a run can end *)

(** The environment's map lacks a slot of the grid of side [n]: reading it
    there raises. *)
Definition environment_read_failed (miro_simulation : MiroSimulation.t) (n : Z) : Prop :=
  ∃ x y, 0 ≤ x < n ∧ 0 ≤ y < n ∧
         getitem2 (MiroSimulation.world_map miro_simulation) y x = Raise IndexError.

(** The handler stands on the cell where the environment's map holds the
    treasure, facing the way it came: across a wall segment that the
    environment reports absent and that the handler recorded as such. *)
Definition goal_reached_at (miro_simulation : MiroSimulation.t) (h : MiroHandler.t) : Prop :=
  ∃ d,
    MiroHandler.direction h = Some d ∧
    getitem2 (MiroSimulation.world_map miro_simulation)
      (Position.y (MiroHandler.position h)) (Position.x (MiroHandler.position h))
    = Ok MiroSimulation.WIN ∧
    oracle_wall miro_simulation
      (Position.x (MiroHandler.position h) - dx d)
      (Position.y (MiroHandler.position h) - dy d) = Ok false ∧
    getitem2 (MiroHandler._world_map h)
      (Position.y (MiroHandler.position h) - dy d)
      (Position.x (MiroHandler.position h) - dx d) = Ok MiroHandler._NO_WALL.

(** What holds when the scan of a direction, or the scan phase, started at
    [h] ends with the result [r] at [h']: the directions of [recorded] are
    recorded and the invariant holds when it goes on, the goal is reached
    inside the grid when it says so, and when it raises the environment's
    map is to blame. *)
Definition scan_outcome (miro_simulation : MiroSimulation.t) (sx sy : Z)
    (h : MiroHandler.t) (recorded : Direction → Prop)
    (r : result bool) (h' : MiroHandler.t) : Prop :=
  match r with
  | Ok false =>
      Inv miro_simulation sx sy h' ∧ same_cell h h' ∧
      ∀ d, recorded d → MiroHandler.direction_recorded h' d = Ok true
  | Ok true =>
      goal_reached_at miro_simulation h' ∧
      interior_cell (MiroHandler._MAP_DIMENSIONS h') (MiroHandler.position h')
  | Raise e =>
      e = IndexError ∧ same_cell h h' ∧
      environment_read_failed miro_simulation (MiroHandler._MAP_DIMENSIONS h)
  end.

(** What holds when the decide-and-move phase started at [h] ends: the
    invariant when it moved, and when it raised, that it raised
    [ValueError] from the decision, with nothing changed and no direction of
    the pathfinding order having a valid path. *)
Definition move_outcome (miro_simulation : MiroSimulation.t) (sx sy : Z)
    (h : MiroHandler.t) (r : result unit) (h' : MiroHandler.t) : Prop :=
  match r with
  | Ok _ => Inv miro_simulation sx sy h'
  | Raise e =>
      e = ValueError ∧ h' = h ∧
      MiroHandler.find_best_direction h = Raise ValueError ∧
      ∀ priority, MiroHandler.generate_direction_priority h None = Ok priority →
                  ∀ d, d ∈ priority → MiroHandler.check_valid_path h d = Ok false
  end.

(** What holds of the status [st] and the handler [h'] a run on a grid of
    side [n] ends with. *)
Definition run_outcome (miro_simulation : MiroSimulation.t) (sx sy n : Z)
    (st : status) (h' : MiroHandler.t) : Prop :=
  MiroHandler._MAP_DIMENSIONS h' = n ∧
  interior_cell n (MiroHandler.position h') ∧
  match st with
  | Running => Inv miro_simulation sx sy h'
  | GoalFound => goal_reached_at miro_simulation h'
  | Crashed e =>
      (e = ValueError ∧
       MiroHandler.find_best_direction h' = Raise ValueError ∧
       (∀ d, MiroHandler.direction_recorded h' d = Ok true) ∧
       ∀ priority, MiroHandler.generate_direction_priority h' None = Ok priority →
                   ∀ d, d ∈ priority → MiroHandler.check_valid_path h' d = Ok false) ∨
      (e = IndexError ∧ environment_read_failed miro_simulation n)
  end.

(** A 2×2 maze with the treasure east of the start cell. *)
Definition maze_2x2_goal_east : string :=
"+  -  +  -  +
|  o  .  o  |
+  .  +  .  +
|  o  .  w  |
+  -  +  -  +".

(** A 2×2 maze with the ways east and north of the start cell open. *)
Definition maze_2x2_open : string :=
"+  -  +  -  +
|  o  .  w  |
+  .  +  .  +
|  o  .  o  |
+  -  +  -  +".


(** * Properties *)

(** ** Geometry *)

Lemma left_of_Some p d : Position.left_of p (Some d) = Ok (rotateLeft d).
Proof. by destruct d. Qed.

Lemma right_of_Some p d : Position.right_of p (Some d) = Ok (rotateRight d).
Proof. by destruct d. Qed.

Lemma left_of_own p d :
  Position.direction p = Some d → Position.left_of p None = Ok (rotateLeft d).
Proof. destruct p as [x y [e|]]; simpl; intros [= ->]. by destruct d. Qed.

Lemma right_of_own p d :
  Position.direction p = Some d → Position.right_of p None = Ok (rotateRight d).
Proof. destruct p as [x y [e|]]; simpl; intros [= ->]. by destruct d. Qed.

Lemma rotateLeft_rotateRight d : rotateLeft (rotateRight d) = d.
Proof. by destruct d. Qed.

Lemma rotateRight_rotateLeft d : rotateRight (rotateLeft d) = d.
Proof. by destruct d. Qed.

Lemma handle_direction_Some p step d :
  Position.handle_direction p step (Some d) =
  let s := match step with walls => 1 | cells => 2 end in
  match d with
  | north => Offset.Offset 0 (- s)
  | east => Offset.Offset s 0
  | south => Offset.Offset 0 s
  | west => Offset.Offset (- s) 0
  end.
Proof. by destruct d, step. Qed.

Lemma handle_direction_own p step d :
  Position.direction p = Some d →
  Position.handle_direction p step None = Position.handle_direction p step (Some d).
Proof. destruct p as [x y o]; simpl. by intros ->. Qed.

(** The cell step is two slots along exactly one axis, whatever the
    direction argument and the position's own direction. *)
Lemma handle_direction_cells p o :
  let offset := Position.handle_direction p cells o in
  (Offset.x offset = 0 ∧ (Offset.y offset = 2 ∨ Offset.y offset = -2)) ∨
  (Offset.y offset = 0 ∧ (Offset.x offset = 2 ∨ Offset.x offset = -2)).
Proof.
  unfold Position.handle_direction, Position.or_own.
  destruct o as [[]|]; [simpl; lia..|].
  destruct (Position.direction p) as [[]|]; simpl; lia.
Qed.

(** ** The primitive operations, run *)

Lemma turn_left_run h d :
  MiroHandler.direction h = Some d →
  MiroHandler.turn_left h = (Ok (), facing h (rotateLeft d), [TurnLeft]).
Proof.
  intros Hd. unfold MiroHandler.turn_left, mbind, MiroHandler.M_bind,
    MiroHandler.read, MiroHandler.perform, MiroHandler.set_position. simpl.
  by rewrite (left_of_own _ d).
Qed.

Lemma turn_right_run h d :
  MiroHandler.direction h = Some d →
  MiroHandler.turn_right h = (Ok (), facing h (rotateRight d), [TurnRight]).
Proof.
  intros Hd. unfold MiroHandler.turn_right, mbind, MiroHandler.M_bind,
    MiroHandler.read, MiroHandler.perform, MiroHandler.set_position. simpl.
  by rewrite (right_of_own _ d).
Qed.

Lemma move_forward_run h :
  MiroHandler.move_forward h =
  (Ok (),
   moved_to h
     (Position.x (MiroHandler.position h)
      + Offset.x (Position.handle_direction (MiroHandler.position h) cells None))
     (Position.y (MiroHandler.position h)
      + Offset.y (Position.handle_direction (MiroHandler.position h) cells None)),
   [MoveForward]).
Proof. done. Qed.

Lemma move_backward_run h :
  MiroHandler.move_backward h =
  (Ok (),
   moved_to h
     (Position.x (MiroHandler.position h)
      - Offset.x (Position.handle_direction (MiroHandler.position h) cells None))
     (Position.y (MiroHandler.position h)
      - Offset.y (Position.handle_direction (MiroHandler.position h) cells None)),
   [MoveBackward]).
Proof. done. Qed.

Lemma left_count_facing h f target :
  MiroHandler.direction h = Some f →
  MiroHandler.left_count h target =
  Ok (if decide (target = f) then 0
      else if decide (target = rotateLeft f) then 1
      else if decide (target = rotateRight f) then 3
      else 2).
Proof.
  unfold MiroHandler.left_count. intros ->. by destruct f, target.
Qed.

Lemma facing_facing h d e : facing (facing h d) e = facing h e.
Proof. done. Qed.

Lemma facing_own h d : MiroHandler.direction h = Some d → facing h d = h.
Proof. destruct h as [n [x y o] wm]. unfold MiroHandler.direction. simpl. by intros ->. Qed.

Lemma turn_to_face_run h f target :
  MiroHandler.direction h = Some f →
  MiroHandler.turn_to_face target h =
  (Ok (), facing h target,
   if decide (target = f) then []
   else if decide (target = rotateLeft f) then [TurnLeft]
   else if decide (target = rotateRight f) then [TurnRight]
   else [TurnLeft; TurnLeft]).
Proof.
  intros Hf. unfold MiroHandler.turn_to_face, mbind, MiroHandler.M_bind, MiroHandler.read.
  rewrite (left_count_facing h f target Hf).
  destruct (decide (target = f)) as [->|Hne]; simpl.
  { by rewrite facing_own. }
  destruct (decide (target = rotateLeft f)) as [->|Hl]; simpl.
  { by rewrite (turn_left_run h f). }
  destruct (decide (target = rotateRight f)) as [->|Hr]; simpl.
  { by rewrite (turn_right_run h f). }
  rewrite (turn_left_run h f Hf), (turn_left_run _ (rotateLeft f)); [|done].
  rewrite facing_facing. by destruct f, target.
Qed.

(** ** Turning to face a direction *)

Lemma apply_turns_short f target turns :
  Forall is_turn turns → apply_turns turns f = target →
  (target ≠ f → (1 ≤ length turns)%nat) ∧
  (target ≠ f → target ≠ rotateLeft f → target ≠ rotateRight f →
   (2 ≤ length turns)%nat).
Proof.
  intros Hturns Happly. split.
  - intros Hne. destruct turns; simpl; [done | lia].
  - intros Hne Hl Hr. destruct turns as [|a [|b turns]]; simpl; [done| |lia].
    apply Forall_cons in Hturns as [[-> | ->] _]; simpl in Happly; congruence.
Qed.

(** Claim C9.  From every facing [f], [turn_to_face target] ends facing
    [target] with the coordinates and the map untouched, and the primitive
    turns it performs are: none when [target] is [f], one left turn when
    [target] is one step counter-clockwise, one right turn when it is one
    step clockwise, and exactly two left turns when it is opposite.  No
    sequence of primitive turns that takes [f] to [target] is shorter. *)
Theorem turn_to_face_minimal h f target :
  MiroHandler.direction h = Some f →
  ∃ turns,
    MiroHandler.turn_to_face target h = (Ok (), facing h target, turns) ∧
    MiroHandler.direction (facing h target) = Some target ∧
    (length turns ≤ 2)%nat ∧
    (target = f → turns = []) ∧
    (target = rotateLeft f → turns = [TurnLeft]) ∧
    (target = rotateRight f → turns = [TurnRight]) ∧
    (target = rotateLeft (rotateLeft f) → turns = [TurnLeft; TurnLeft]) ∧
    apply_turns turns f = target ∧
    ∀ turns', Forall is_turn turns' → apply_turns turns' f = target →
              (length turns ≤ length turns')%nat.
Proof.
  intros Hf. eexists. split; [by apply turn_to_face_run|].
  split; [done|]. split; [repeat case_decide; simpl; lia|].
  split; [intros ->; by rewrite decide_True|].
  split; [intros ->; destruct f; done|].
  split; [intros ->; destruct f; done|].
  split; [intros ->; destruct f; done|].
  split; [destruct f, target; done|].
  intros turns' Hturns Happly.
  destruct (apply_turns_short f target turns' Hturns Happly) as [H1 H2].
  repeat case_decide; simpl; auto with lia.
Qed.

Lemma turn_to_face_minimal_witness :
  ∃ turns,
    MiroHandler.turn_to_face west handler_1x1
    = (Ok (), facing handler_1x1 west, turns) ∧
    turns = [TurnLeft; TurnLeft].
Proof.
  destruct (turn_to_face_minimal handler_1x1 east west eq_refl)
    as (turns & Hrun & _ & _ & _ & _ & _ & Hopp & _).
  exists turns. split; [exact Hrun | exact (Hopp eq_refl)].
Defined.

(** ** Parity of the pose *)

Lemma state_after_turn_to_face h target :
  Position.x (MiroHandler.position (state_after (MiroHandler.turn_to_face target) h))
  = Position.x (MiroHandler.position h) ∧
  Position.y (MiroHandler.position (state_after (MiroHandler.turn_to_face target) h))
  = Position.y (MiroHandler.position h).
Proof.
  destruct (MiroHandler.direction h) as [f|] eqn:Hf.
  - unfold state_after. by rewrite (turn_to_face_run h f target Hf).
  - unfold state_after, MiroHandler.turn_to_face, mbind, MiroHandler.M_bind,
      MiroHandler.read, MiroHandler.left_count. by rewrite Hf.
Qed.

Lemma state_after_turn_left h :
  MiroHandler.position (state_after MiroHandler.turn_left h) =
  match Position.left_of (MiroHandler.position h) None with
  | Ok d => Position.Position (Position.x (MiroHandler.position h))
              (Position.y (MiroHandler.position h)) (Some d)
  | Raise _ => MiroHandler.position h
  end.
Proof.
  unfold state_after, MiroHandler.turn_left, mbind, MiroHandler.M_bind,
    MiroHandler.read, MiroHandler.perform, MiroHandler.set_position. simpl.
  by destruct (Position.left_of _ _).
Qed.

Lemma state_after_turn_right h :
  MiroHandler.position (state_after MiroHandler.turn_right h) =
  match Position.right_of (MiroHandler.position h) None with
  | Ok d => Position.Position (Position.x (MiroHandler.position h))
              (Position.y (MiroHandler.position h)) (Some d)
  | Raise _ => MiroHandler.position h
  end.
Proof.
  unfold state_after, MiroHandler.turn_right, mbind, MiroHandler.M_bind,
    MiroHandler.read, MiroHandler.perform, MiroHandler.set_position. simpl.
  by destruct (Position.right_of _ _).
Qed.

Lemma state_after_store h y x v :
  MiroHandler.position (state_after (MiroHandler.store y x v) h) = MiroHandler.position h.
Proof.
  unfold state_after, MiroHandler.store.
  by destruct (getitem2 (MiroHandler._world_map h) y x),
       (setitem2 (MiroHandler._world_map h) y x v).
Qed.

Lemma state_after_record h op :
  (∃ b, op = op_record_wall_infront b ∨ op = op_record_pit_infront b) →
  MiroHandler.position (state_after (run_operation op) h) = MiroHandler.position h.
Proof.
  intros [b [-> | ->]]; unfold state_after, run_operation,
    MiroHandler.record_wall_infront, MiroHandler.record_pit_infront,
    mbind, MiroHandler.M_bind, MiroHandler.read; simpl;
  match goal with
  | |- context [MiroHandler.store ?y ?x ?v h] =>
      pose proof (state_after_store h y x v) as Hs; unfold state_after in Hs;
      destruct (MiroHandler.store y x v h) as [[[[]|e] h'] acts]; simpl in *; done
  end.
Qed.

Lemma odd_add_even a b : Z.odd a = true → Z.even b = true → Z.odd (a + b) = true.
Proof. intros Ha Hb. rewrite Z.odd_add, Ha. rewrite <-Z.negb_even, Hb. done. Qed.

(** Claim C10.  Every operation of the handler keeps both coordinates of
    the pose odd.  The turns (and the recording operations) leave the
    coordinates as they are; [move_forward] and [move_backward] change
    exactly one coordinate, by exactly 2, the cell step being [(0, ±2)] or
    [(±2, 0)] for every direction. *)
Theorem operations_keep_pose_on_cell (op : operation) (h : MiroHandler.t) :
  on_cell h →
  let h' := state_after (run_operation op) h in
  let dx := Position.x (MiroHandler.position h') - Position.x (MiroHandler.position h) in
  let dy := Position.y (MiroHandler.position h') - Position.y (MiroHandler.position h) in
  on_cell h' ∧
  (op ≠ op_move_forward → op ≠ op_move_backward → dx = 0 ∧ dy = 0) ∧
  (op = op_move_forward ∨ op = op_move_backward →
   (dx = 0 ∧ (dy = 2 ∨ dy = -2)) ∨ (dy = 0 ∧ (dx = 2 ∨ dx = -2))) ∧
  (∀ d, let offset := Position.handle_direction (MiroHandler.position h) cells d in
        (Offset.x offset = 0 ∧ (Offset.y offset = 2 ∨ Offset.y offset = -2)) ∨
        (Offset.y offset = 0 ∧ (Offset.x offset = 2 ∨ Offset.x offset = -2))).
Proof.
  intros [Hx Hy]. cbv zeta.
  assert (Hdelta :
    let h' := state_after (run_operation op) h in
    let dx := Position.x (MiroHandler.position h') - Position.x (MiroHandler.position h) in
    let dy := Position.y (MiroHandler.position h') - Position.y (MiroHandler.position h) in
    (op ≠ op_move_forward → op ≠ op_move_backward → dx = 0 ∧ dy = 0) ∧
    (op = op_move_forward ∨ op = op_move_backward →
     (dx = 0 ∧ (dy = 2 ∨ dy = -2)) ∨ (dy = 0 ∧ (dx = 2 ∨ dx = -2)))).
  { cbv zeta. pose proof (handle_direction_cells (MiroHandler.position h) None) as Hoff.
    cbv zeta in Hoff. destruct op.
    - cbn [run_operation]. unfold state_after. rewrite move_forward_run. simpl.
      split; [done|]. intros _. lia.
    - cbn [run_operation]. unfold state_after. rewrite move_backward_run. simpl.
      split; [done|]. intros _. lia.
    - cbn [run_operation]. rewrite state_after_turn_left. split; [|by intros [|]].
      intros _ _. destruct (Position.left_of _ _); simpl; lia.
    - cbn [run_operation]. rewrite state_after_turn_right. split; [|by intros [|]].
      intros _ _. destruct (Position.right_of _ _); simpl; lia.
    - cbn [run_operation].
      destruct (state_after_turn_to_face h direction) as [-> ->].
      split; [lia | by intros [|]].
    - rewrite (state_after_record h (op_record_wall_infront wall_infront)); [|eauto].
      split; [lia | by intros [|]].
    - rewrite (state_after_record h (op_record_pit_infront pit_infront)); [|eauto].
      split; [lia | by intros [|]]. }
  cbv zeta in Hdelta. destruct Hdelta as [Hturn Hmove].
  split; [|split; [done|split; [done|]]].
  - unfold on_cell.
    destruct (decide (op = op_move_forward ∨ op = op_move_backward)) as [Hop|Hop].
    + specialize (Hmove Hop).
      set (x' := Position.x (MiroHandler.position (state_after (run_operation op) h))) in *.
      set (y' := Position.y (MiroHandler.position (state_after (run_operation op) h))) in *.
      replace x' with (Position.x (MiroHandler.position h)
                       + (x' - Position.x (MiroHandler.position h))) by lia.
      replace y' with (Position.y (MiroHandler.position h)
                       + (y' - Position.y (MiroHandler.position h))) by lia.
      split; (apply odd_add_even; [done|]);
        destruct Hmove as [[Hdx [Hdy | Hdy]] | [Hdy [Hdx | Hdx]]];
        rewrite ?Hdx, ?Hdy; done.
    + destruct Hturn as [Hdx Hdy];
        [intros ->; apply Hop; by left | intros ->; apply Hop; by right |].
      split; [replace (Position.x _) with (Position.x (MiroHandler.position h)) by lia
             |replace (Position.y _) with (Position.y (MiroHandler.position h)) by lia];
        done.
  - intros d. apply handle_direction_cells.
Qed.

Lemma operations_keep_pose_on_cell_witness :
  on_cell (state_after (run_operation op_move_forward) scanned_2x2_wall_north).
Proof.
  refine (proj1 (operations_keep_pose_on_cell op_move_forward scanned_2x2_wall_north _)).
  split; reflexivity.
Defined.

(** ** Direction priorities *)

Lemma scanning_priority h f :
  MiroHandler.direction h = Some f →
  MiroHandler.generate_direction_priority h (Some MiroHandler.scanning) =
  Ok [f; rotateLeft f; rotateLeft (rotateLeft f); rotateRight f].
Proof.
  destruct h as [n [x y o] wm]. unfold MiroHandler.direction. simpl.
  intros ->. by destruct f.
Qed.

Lemma pathfinding_priority h f order :
  MiroHandler.direction h = Some f →
  order = None ∨ order = Some MiroHandler.pathfinding →
  MiroHandler.generate_direction_priority h order =
  Ok [rotateLeft f; rotateLeft (rotateLeft f); f; rotateLeft (rotateLeft f)].
Proof.
  destruct h as [n [x y o] wm]. unfold MiroHandler.direction. simpl.
  intros -> [-> | ->]; by destruct f.
Qed.

Lemma generate_direction_priority_no_direction h order :
  MiroHandler.direction h = None →
  MiroHandler.generate_direction_priority h order = Raise ValueError.
Proof.
  destruct h as [n [x y o] wm]. unfold MiroHandler.direction. simpl.
  intros ->. by destruct order as [[]|].
Qed.

(** Claim C2, on the code: facing east, the pathfinding order is north,
    west, east, west.  The last entry is the direction behind the current
    facing (west) and not the one behind the nominal forward direction north
    (south, the direction to the right of east): west is listed twice and
    south is not listed. *)
Theorem pathfinding_priority_facing_east dims x y world_map :
  MiroHandler.generate_direction_priority
    (MiroHandler.MiroHandler dims (Position.Position x y (Some east)) world_map)
    (Some MiroHandler.pathfinding) = Ok [north; west; east; west] ∧
  rotateRight east = south ∧
  (south ∉ [north; west; east; west]) ∧
  ¬ NoDup [north; west; east; west].
Proof.
  split; [done|]. split; [done|]. split.
  - rewrite !elem_of_cons, elem_of_nil. by intros [|[|[|[|]]]].
  - rewrite !NoDup_cons, !elem_of_cons. intros (_ & Hwest & _). apply Hwest. right. by left.
Qed.

(** The same for every facing [f]: the direction to the right of [f] is
    never a candidate, and the one behind [f] is listed twice. *)
Lemma pathfinding_priority_omits_right h f :
  MiroHandler.direction h = Some f →
  ∃ priority,
    MiroHandler.generate_direction_priority h None = Ok priority ∧
    (rotateRight f ∉ priority) ∧ ¬ NoDup priority.
Proof.
  intros Hf. eexists. split; [by apply pathfinding_priority; [|left]|]. split.
  - rewrite !elem_of_cons, elem_of_nil. by destruct f; intros [|[|[|[|]]]].
  - rewrite !NoDup_cons, !elem_of_cons. intros (_ & Hbehind & _). apply Hbehind. right. by left.
Qed.

(** ** Valid paths *)

Lemma check_valid_path_unfold h d :
  MiroHandler.check_valid_path h d =
  wall ← MiroHandler._get_wall_in_direction h (MiroHandler.position h) d;
  if truthy wall then Ok false
  else cell ← MiroHandler._get_cell_in_direction h (MiroHandler.position h) d;
       Ok (negb (Py.eqb cell MiroHandler._PIT)).
Proof.
  unfold MiroHandler.check_valid_path, MiroHandler._get_cell_in_direction,
    MiroHandler.position.
  destruct (MiroHandler._get_wall_in_direction _ _ _) as [wall|]; simpl; [|done].
  destruct (truthy wall); simpl; [done|].
  destruct (getitem2 _ _ _) as [cell|]; simpl; [|done].
  by destruct (Py.eqb cell _).
Qed.

Lemma check_valid_path_true h d :
  MiroHandler.check_valid_path h d = Ok true ↔
  ∃ wall cell,
    MiroHandler._get_wall_in_direction h (MiroHandler.position h) d = Ok wall ∧
    truthy wall = false ∧
    MiroHandler._get_cell_in_direction h (MiroHandler.position h) d = Ok cell ∧
    cell ≠ MiroHandler._PIT.
Proof.
  rewrite check_valid_path_unfold. split.
  - destruct (MiroHandler._get_wall_in_direction _ _ _) as [wall|]; simpl; [|done].
    destruct (truthy wall) eqn:Hw; simpl; [done|].
    destruct (MiroHandler._get_cell_in_direction _ _ _) as [cell|]; simpl; [|done].
    unfold Py.eqb. case_bool_decide; simpl; [done|]. intros _.
    exists wall, cell. by rewrite Hw.
  - intros (wall & cell & -> & Hw & -> & Hc). simpl. rewrite Hw. simpl.
    unfold Py.eqb. by rewrite bool_decide_false.
Qed.

(** Claim C1, as the code has it.  With the wall-segment slot toward the
    direction holding one of Unknown, NoWall and Wall, [check_valid_path]
    returns true exactly when that slot is not a recorded wall (it is NoWall
    or still Unknown) and the neighbouring cell slot can be read and is not
    Pit.  It returns false exactly when the slot is Wall, whatever lies
    behind it (the cell slot is then not read, so this holds for the walls
    of the ring too, where there is no such slot), or the cell slot is Pit.
    It raises exactly when the slot is not Wall and reading the cell slot
    raises.  An Unknown wall slot is treated as open: the method assumes,
    as its docstring says, that the adjacent cells have been recorded. *)
Theorem check_valid_path_spec h d wall :
  MiroHandler._get_wall_in_direction h (MiroHandler.position h) d = Ok wall →
  wall ∈ [PyNone; MiroHandler._NO_WALL; MiroHandler._WALL] →
  (MiroHandler.check_valid_path h d = Ok true ↔
   (wall = MiroHandler._NO_WALL ∨ wall = PyNone) ∧
   ∃ cell, MiroHandler._get_cell_in_direction h (MiroHandler.position h) d = Ok cell ∧
           cell ≠ MiroHandler._PIT) ∧
  (MiroHandler.check_valid_path h d = Ok false ↔
   wall = MiroHandler._WALL ∨
   MiroHandler._get_cell_in_direction h (MiroHandler.position h) d
   = Ok MiroHandler._PIT) ∧
  (∀ e, MiroHandler.check_valid_path h d = Raise e ↔
        wall ≠ MiroHandler._WALL ∧
        MiroHandler._get_cell_in_direction h (MiroHandler.position h) d = Raise e).
Proof.
  intros Hwall Hdom. rewrite check_valid_path_unfold, Hwall. simpl.
  rewrite !elem_of_cons, elem_of_nil in Hdom.
  assert (Hopen : ∀ r : result value,
            (r ≫= (λ cell, Ok (negb (Py.eqb cell MiroHandler._PIT))) = Ok true ↔
             ∃ cell, r = Ok cell ∧ cell ≠ MiroHandler._PIT) ∧
            (r ≫= (λ cell, Ok (negb (Py.eqb cell MiroHandler._PIT))) = Ok false ↔
             r = Ok MiroHandler._PIT) ∧
            (∀ e, r ≫= (λ cell, Ok (negb (Py.eqb cell MiroHandler._PIT))) = Raise e ↔
                  r = Raise e)).
  { intros [cell|e']; simpl; unfold Py.eqb.
    - case_bool_decide as Hpit; simpl.
      + subst cell. split; [|split; [done|]].
        * split; [done|]. by intros (cell & [= <-] & ?).
        * intros e. split; done.
      + split; [|split].
        * split; [by exists cell|done].
        * split; [done|]. intros [= ->]. done.
        * intros e. split; done.
    - split; [|split].
      + split; [done|]. by intros (cell & ? & _).
      + split; done.
      + intros e. split; by intros [= ->]. }
  destruct (Hopen (MiroHandler._get_cell_in_direction h (MiroHandler.position h) d))
    as (Htrue & Hfalse & Hraise).
  destruct Hdom as [-> | [-> | [-> | []]]]; simpl.
  - rewrite Htrue, Hfalse. split; [|split].
    + split; [by intros ?; split; [right|] | by intros [_ ?]].
    + split; [by right | by intros [? | ?]].
    + intros e. rewrite Hraise. split; [done | by intros [_ ?]].
  - rewrite Htrue, Hfalse. split; [|split].
    + split; [by intros ?; split; [left|] | by intros [_ ?]].
    + split; [by right | by intros [? | ?]].
    + intros e. rewrite Hraise. split; [done | by intros [_ ?]].
  - split; [|split].
    + split; [done|]. by intros [[? | ?] _].
    + split; [by left | done].
    + intros e. split; [done | by intros [? _]].
Qed.

Lemma check_valid_path_spec_witness :
  MiroHandler.check_valid_path scanned_2x2_wall_north east = Ok true ∧
  MiroHandler.check_valid_path scanned_2x2_wall_north north = Ok false ∧
  MiroHandler.check_valid_path handler_1x1 south = Ok false ∧
  MiroHandler._get_cell_in_direction handler_1x1 (MiroHandler.position handler_1x1) south
  = Raise IndexError.
Proof.
  split; [|split; [|split]].
  - apply (check_valid_path_spec scanned_2x2_wall_north east (PyInt 0)).
    + reflexivity.
    + apply list_elem_of_In. simpl. tauto.
    + split; [by left|]. exists (PyInt 0). split; [reflexivity | discriminate].
  - apply (check_valid_path_spec scanned_2x2_wall_north north (PyInt 1)).
    + reflexivity.
    + apply list_elem_of_In. simpl. tauto.
    + left. reflexivity.
  - apply (check_valid_path_spec handler_1x1 south (PyInt 1)).
    + reflexivity.
    + apply list_elem_of_In. simpl. tauto.
    + left. reflexivity.
  - reflexivity.
Defined.

(** Claim C1 as stated fails.  In the handler as built for the 4×4 maze
    the wall-segment slot east of the start is still Unknown, and
    [check_valid_path] answers true for east. *)
Lemma check_valid_path_unknown_wall_is_open :
  ∃ h,
    MiroHandler.init 9 (Position.Position 1 7 (Some east)) = Ok h ∧
    MiroHandler._get_wall_in_direction h (MiroHandler.position h) east = Ok PyNone ∧
    MiroHandler.check_valid_path h east = Ok true.
Proof. eexists. split; [reflexivity|]. split; reflexivity. Qed.

(** ** The frontier heuristic *)

Lemma stable_max_None_cons c cands :
  stable_max None (c :: cands) = stable_max (Some c) cands.
Proof. by destruct c. Qed.

Lemma stable_max_Some_first_max b cands n d :
  stable_max (Some b) cands = Some (n, d) ↔ first_max (b :: cands) n d.
Proof.
  revert b. induction cands as [|[cn cd] cands IH]; intros [bn bd]; simpl.
  - split.
    + intros [= -> ->]. by exists [], [].
    + intros (before & after & Heq & _ & _).
      destruct before as [|? [|]]; simplify_eq/=; done.
  - case_decide as Hlt.
    + rewrite IH. split.
      * intros (before & after & Heq & Hb & Ha).
        exists ((bn, bd) :: before), after. split; [by rewrite Heq|]. split; [|done].
        apply Forall_cons; split; [|done]. simpl.
        destruct before as [|c before]; simplify_eq/=; [lia|].
        apply Forall_cons in Hb as [Hc _]. simpl in Hc. lia.
      * intros (before & after & Heq & Hb & Ha).
        destruct before as [|c before]; simplify_eq/=.
        { apply Forall_cons in Ha as [Hc _]. simpl in Hc. lia. }
        apply Forall_cons in Hb as [_ Hb]. by exists before, after.
    + rewrite IH. split.
      * intros (before & after & Heq & Hb & Ha).
        destruct before as [|c before]; simplify_eq/=.
        { eexists [], _. split; [done|]. split; [done|].
          apply Forall_cons; split; [simpl; lia | done]. }
        apply Forall_cons in Hb as [Hc Hb]. simpl in Hc.
        exists ((bn, bd) :: (cn, cd) :: before), after. split; [done|]. split; [|done].
        repeat (apply Forall_cons; split); simpl; [lia | lia | done].
      * intros (before & after & Heq & Hb & Ha).
        destruct before as [|c [|c' before]]; simplify_eq/=.
        { apply Forall_cons in Ha as [_ Ha]. by eexists [], _. }
        { apply Forall_cons in Hb as [Hc _]. simpl in Hc. lia. }
        apply Forall_cons in Hb as [Hc Hb]. apply Forall_cons in Hb as [_ Hb].
        exists ((bn, bd) :: before), after. split; [done|]. split; [|done].
        by apply Forall_cons.
Qed.

Lemma stable_max_first_max cands n d :
  stable_max None cands = Some (n, d) ↔ first_max cands n d.
Proof.
  destruct cands as [|c cands].
  - simpl. split; [done|]. intros (before & after & Heq & _). by destruct before.
  - rewrite stable_max_None_cons. apply stable_max_Some_first_max.
Qed.

Lemma stable_max_None cands : stable_max None cands = None ↔ cands = [].
Proof.
  destruct cands as [|c cands]; [done|]. rewrite stable_max_None_cons. split; [|done].
  revert c. induction cands as [|[cn cd] cands IH]; intros [bn bd]; simpl; [done|].
  case_decide; intros ?%IH; done.
Qed.

Lemma first_max_unique cands n d n' d' :
  first_max cands n d → first_max cands n' d' → n = n' ∧ d = d'.
Proof.
  intros H H'. apply stable_max_first_max in H, H'. by simplify_eq.
Qed.

Lemma first_max_elem_of cands n d : first_max cands n d → (n, d) ∈ cands.
Proof. intros (before & after & -> & _). apply elem_of_app. right. left. Qed.

Lemma first_max_greatest cands n d c : first_max cands n d → c ∈ cands → (c.1 ≤ n)%nat.
Proof.
  intros (before & after & -> & Hb & Ha).
  rewrite elem_of_app, elem_of_cons, !Forall_forall in *.
  intros [?%Hb | [-> | ?%Ha]]; simpl; lia.
Qed.

(** *** The dictionary of [find_best_direction] *)

Lemma consider_direction_unfold h m d :
  MiroHandler.consider_direction h m d =
  valid ← MiroHandler.check_valid_path h d;
  if (valid : bool) then n ← unexploredScore h d; Ok (dict_add m (n, d)) else Ok m.
Proof.
  unfold MiroHandler.consider_direction, unexploredScore, cell_toward, dict_add.
  destruct (MiroHandler.check_valid_path h d) as [[]|]; simpl; [|done..].
  destruct (MiroHandler.count_surrounding_unexplored _ _) as [n|]; simpl; [|done].
  unfold MiroHandler.dict_getitem. case_decide as Hn.
  - rewrite lookup_insert_eq, Hn. simpl. by rewrite insert_insert_eq.
  - destruct (m !! n); done.
Qed.

Lemma for_each_consider_direction h m priority :
  for_each (MiroHandler.consider_direction h) m priority =
  cands ← candidates h priority; Ok (foldl dict_add m cands).
Proof.
  revert m. induction priority as [|d priority IH]; intros m; simpl; [done|].
  rewrite consider_direction_unfold.
  destruct (MiroHandler.check_valid_path h d) as [[]|]; simpl; [|by rewrite IH|done].
  destruct (unexploredScore h d) as [n|]; simpl; [|done].
  rewrite IH. by destruct (candidates h priority).
Qed.

Lemma lookup_foldl_dict_add cands (m : gmap nat (list Direction)) k :
  foldl dict_add m cands !! k =
  match m !! k, (filter (λ c, c.1 = k) cands).*2 with
  | Some l, ds => Some (l ++ ds)
  | None, [] => None
  | None, ds => Some ds
  end.
Proof.
  revert m. induction cands as [|[n d] cands IH]; intros m; simpl.
  - destruct (m !! k); by rewrite ?app_nil_r.
  - rewrite IH. unfold dict_add at 1. simpl. rewrite filter_cons. simpl.
    destruct (decide (n = k)) as [->|Hne].
    + rewrite lookup_insert_eq. simpl. destruct (m !! k); simpl; [|done].
      by rewrite <-app_assoc.
    + by rewrite lookup_insert_ne.
Qed.

Lemma elem_of_keys (m : gmap nat (list Direction)) k :
  k ∈ (map_to_list m).*1 ↔ is_Some (m !! k).
Proof.
  rewrite list_elem_of_fmap. split.
  - intros ([k' l] & -> & Hin). apply elem_of_map_to_list in Hin. eauto.
  - intros [l Hl]. exists (k, l). split; [done|]. by apply elem_of_map_to_list.
Qed.

Lemma max_key_Ok (m : gmap nat (list Direction)) k0 :
  is_Some (m !! k0) →
  ∃ k, MiroHandler.max_key m = Ok k ∧ is_Some (m !! k) ∧
       ∀ k', is_Some (m !! k') → (k' ≤ k)%nat.
Proof.
  intros Hk0. apply elem_of_keys in Hk0. unfold MiroHandler.max_key.
  destruct ((map_to_list m).*1) as [|a keys] eqn:Hkeys; [by apply elem_of_nil in Hk0|].
  exists (max_list (a :: keys)). split; [done|]. rewrite <-Hkeys. split.
  - apply elem_of_keys, max_list_elem_of. by rewrite Hkeys.
  - intros k' Hk'. by apply max_list_elem_of_le, elem_of_keys.
Qed.

Lemma max_key_empty : MiroHandler.max_key (∅ : gmap nat (list Direction)) = Raise ValueError.
Proof. unfold MiroHandler.max_key. by rewrite map_to_list_empty. Qed.

Lemma filter_first {A} (P : A → Prop) `{∀ a, Decision (P a)} (l : list A) a rest :
  filter P l = a :: rest →
  ∃ before after, l = before ++ a :: after ∧ Forall (λ b, ¬ P b) before ∧ P a.
Proof.
  induction l as [|b l IH]; [done|]. rewrite filter_cons. case_decide as Hb.
  - intros [= -> <-]. by exists [], l.
  - intros (before & after & -> & Hbefore & Ha)%IH.
    exists (b :: before), after. split; [done|]. split; [by apply Forall_cons | done].
Qed.

(** The dictionary picks the first candidate with the greatest score. *)
Lemma dictionary_first_max cands :
  cands ≠ [] →
  ∃ n l d,
    MiroHandler.max_key (foldl dict_add ∅ cands) = Ok n ∧
    MiroHandler.dict_getitem (foldl dict_add ∅ cands) n = Ok l ∧
    getitem l 0 = Ok d ∧
    first_max cands n d.
Proof.
  intros Hne.
  assert (Hdom : ∀ k, is_Some (foldl dict_add ∅ cands !! k) ↔ ∃ d, (k, d) ∈ cands).
  { intros k. rewrite lookup_foldl_dict_add, lookup_empty.
    destruct (filter (λ c, c.1 = k) cands) as [|[k' d] rest] eqn:Hf; simpl.
    - split; [by intros [? ?]|]. intros [d Hd].
      assert ((k, d) ∈ filter (λ c, c.1 = k) cands) as Hin
        by by apply list_elem_of_filter.
      rewrite Hf in Hin. by apply elem_of_nil in Hin.
    - split; [|eauto]. intros _.
      assert ((k', d) ∈ filter (λ c, c.1 = k) cands) as Hin
        by (rewrite Hf; left).
      apply list_elem_of_filter in Hin as [Hk Hin]. simpl in Hk. subst. eauto. }
  destruct cands as [|[n0 d0] cands'] eqn:Hcands; [done|]. rewrite <-Hcands in *.
  destruct (max_key_Ok (foldl dict_add ∅ cands) n0) as (n & Hmax & Hn & Hgreatest).
  { apply Hdom. exists d0. rewrite Hcands. left. }
  exists n. rewrite Hmax. unfold MiroHandler.dict_getitem.
  pose proof (lookup_foldl_dict_add cands ∅ n) as Hlook. rewrite lookup_empty in Hlook.
  destruct (filter (λ c, c.1 = n) cands) as [|[n' d] rest] eqn:Hf; simpl in Hlook.
  { rewrite Hlook in Hn. by destruct Hn. }
  rewrite Hlook. exists (d :: rest.*2), d. split; [done|]. split; [done|]. split; [done|].
  apply filter_first in Hf as (before & after & Heq & Hbefore & Hn'). simpl in Hn'. subst n'.
  exists before, after. split; [done|].
  assert (Hle : ∀ c, c ∈ cands → (c.1 ≤ n)%nat).
  { intros [k e] Hin. apply Hgreatest, Hdom. eauto. }
  split; apply Forall_forall; intros c Hc.
  - rewrite Forall_forall in Hbefore. specialize (Hbefore c Hc). simpl in Hbefore.
    assert (c.1 ≤ n)%nat by (apply Hle; rewrite Heq; apply elem_of_app; by left). lia.
  - apply Hle. rewrite Heq. apply elem_of_app. right. by right.
Qed.

(** The dictionary of lists of [find_best_direction] computes the stable
    maximum over the ordered candidates. *)
Lemma find_best_direction_selectBestMove h :
  MiroHandler.find_best_direction h = selectBestMove h.
Proof.
  unfold MiroHandler.find_best_direction, selectBestMove.
  destruct (MiroHandler.generate_direction_priority h None) as [priority|]; simpl; [|done].
  rewrite for_each_consider_direction.
  destruct (candidates h priority) as [cands|]; simpl; [|done].
  destruct (decide (cands = [])) as [->|Hne].
  { simpl. by rewrite max_key_empty. }
  destruct (dictionary_first_max cands Hne) as (n & l & d & -> & Hl & Hd & Hfirst). simpl.
  rewrite Hl. simpl. rewrite Hd.
  apply stable_max_first_max in Hfirst. by rewrite Hfirst.
Qed.

(** ** Subscripts in range *)

Lemma getitem_nonneg {A : Type} (l : list A) i :
  0 ≤ i →
  getitem l i = match l !! Z.to_nat i with
                | Some a => Ok a
                | None => Raise IndexError
                end.
Proof.
  intros Hi. unfold getitem, index_of_subscript.
  destruct (decide (0 ≤ i < Z.of_nat (length l))) as [Hlt|Hge]; simpl; [done|].
  rewrite decide_False by lia. simpl.
  rewrite lookup_ge_None_2; [done | lia].
Qed.

Lemma setitem_nonneg {A : Type} (l : list A) i a :
  0 ≤ i →
  setitem l i a = if decide (i < Z.of_nat (length l)) then Ok (<[Z.to_nat i := a]> l)
                  else Raise IndexError.
Proof.
  intros Hi. unfold setitem, index_of_subscript.
  destruct (decide (0 ≤ i < Z.of_nat (length l))) as [Hlt|Hge]; simpl.
  - by rewrite decide_True by lia.
  - rewrite decide_False by lia. simpl. by rewrite decide_False by lia.
Qed.

Lemma getitem2_nonneg {A : Type} (m : list (list A)) y x :
  0 ≤ x → 0 ≤ y →
  getitem2 m y x = match m !! Z.to_nat y with
                   | Some row => match row !! Z.to_nat x with
                                 | Some a => Ok a
                                 | None => Raise IndexError
                                 end
                   | None => Raise IndexError
                   end.
Proof.
  intros Hx Hy. unfold getitem2. rewrite (getitem_nonneg m y Hy).
  destruct (m !! Z.to_nat y) as [row|]; simpl; [|done]. by apply getitem_nonneg.
Qed.

Lemma square_lookup n (m : list (list value)) y x :
  square n m → 0 ≤ x < n → 0 ≤ y < n →
  ∃ row v, m !! Z.to_nat y = Some row ∧ Z.of_nat (length row) = n ∧
           row !! Z.to_nat x = Some v.
Proof.
  intros [Hlen Hrows] Hx Hy.
  destruct (lookup_lt_is_Some_2 m (Z.to_nat y)) as [row Hrow]; [lia|].
  assert (Z.of_nat (length row) = n) as Hrowlen.
  { rewrite Forall_forall in Hrows. apply Hrows. by eapply list_elem_of_lookup_2. }
  destruct (lookup_lt_is_Some_2 row (Z.to_nat x)) as [v Hv]; [lia|].
  eauto.
Qed.

Lemma getitem2_square n (m : list (list value)) y x :
  square n m → 0 ≤ x < n → 0 ≤ y < n → ∃ v, getitem2 m y x = Ok v.
Proof.
  intros Hsq Hx Hy. destruct (square_lookup n m y x Hsq Hx Hy) as (row & v & Hrow & _ & Hv).
  exists v. rewrite getitem2_nonneg by lia. by rewrite Hrow, Hv.
Qed.

(** A store in range succeeds, keeps the shape, and changes that slot only. *)
Lemma setitem2_square n (m : list (list value)) y x v :
  square n m → 0 ≤ x < n → 0 ≤ y < n →
  ∃ m', setitem2 m y x v = Ok m' ∧ square n m' ∧
        ∀ x' y', 0 ≤ x' → 0 ≤ y' →
                 getitem2 m' y' x' =
                 if decide (x' = x ∧ y' = y) then Ok v else getitem2 m y' x'.
Proof.
  intros Hsq Hx Hy.
  destruct (square_lookup n m y x Hsq Hx Hy) as (row & old & Hrow & Hrowlen & Hold).
  destruct Hsq as [Hlen Hrows].
  exists (<[Z.to_nat y := <[Z.to_nat x := v]> row]> m). split; [|split].
  - unfold setitem2. rewrite getitem_nonneg by lia. rewrite Hrow. simpl.
    rewrite setitem_nonneg by lia. rewrite decide_True by lia. simpl.
    rewrite setitem_nonneg by lia. by rewrite decide_True by lia.
  - split; [by rewrite length_insert|].
    apply Forall_insert; [done|]. by rewrite length_insert.
  - intros x' y' Hx' Hy'. rewrite !getitem2_nonneg by lia.
    destruct (decide (y' = y)) as [->|Hne].
    + rewrite list_lookup_insert_eq by lia. rewrite Hrow.
      destruct (decide (x' = x)) as [->|Hnex].
      * rewrite list_lookup_insert_eq by lia. by rewrite decide_True.
      * rewrite list_lookup_insert_ne by lia. by rewrite decide_False by tauto.
    + rewrite list_lookup_insert_ne by lia. by rewrite decide_False by tauto.
Qed.

Lemma store_run n h y x v :
  square n (MiroHandler._world_map h) → 0 ≤ x < n → 0 ≤ y < n →
  ∃ old world_map,
    getitem2 (MiroHandler._world_map h) y x = Ok old ∧
    MiroHandler.store y x v h = (Ok (), with_map h world_map, [Store y x old v]) ∧
    square n world_map ∧
    ∀ x' y', 0 ≤ x' → 0 ≤ y' →
             getitem2 world_map y' x' =
             if decide (x' = x ∧ y' = y) then Ok v
             else getitem2 (MiroHandler._world_map h) y' x'.
Proof.
  intros Hsq Hx Hy.
  destruct (getitem2_square n _ y x Hsq Hx Hy) as [old Hold].
  destruct (setitem2_square n _ y x v Hsq Hx Hy) as (m' & Hset & Hsq' & Hget).
  exists old, m'. split; [done|]. split; [|done].
  unfold MiroHandler.store. by rewrite Hold, Hset.
Qed.

(** ** Reading an enclosed map *)

Lemma get_wall_eq h p d :
  MiroHandler._get_wall_in_direction h p d =
  getitem2 (MiroHandler._world_map h) (Position.y p + dy d) (Position.x p + dx d).
Proof.
  unfold MiroHandler._get_wall_in_direction. rewrite handle_direction_Some.
  by destruct d.
Qed.

Lemma get_cell_eq h p d :
  MiroHandler._get_cell_in_direction h p d =
  getitem2 (MiroHandler._world_map h) (Position.y p + 2 * dy d) (Position.x p + 2 * dx d).
Proof.
  unfold MiroHandler._get_cell_in_direction. rewrite handle_direction_Some.
  by destruct d.
Qed.

Lemma cell_toward_eq p d :
  cell_toward p d =
  Position.Position (Position.x p + 2 * dx d) (Position.y p + 2 * dy d) None.
Proof. unfold cell_toward. rewrite handle_direction_Some. by destruct d. Qed.

Lemma wall_ring_lookup n m i :
  wall_ring n m → 0 ≤ i < n → Z.odd i = true →
  getitem2 m 0 i = Ok MiroHandler._WALL ∧
  getitem2 m (n - 1) i = Ok MiroHandler._WALL ∧
  getitem2 m i 0 = Ok MiroHandler._WALL ∧
  getitem2 m i (n - 1) = Ok MiroHandler._WALL.
Proof.
  unfold wall_ring. rewrite Forall_forall. intros Hring Hi Hodd.
  apply Hring; [|done]. apply elem_of_seqZ. lia.
Qed.

Lemma dx_dy_cases d :
  (dx d = 0 ∧ dy d = -1) ∨ (dx d = 1 ∧ dy d = 0) ∨
  (dx d = 0 ∧ dy d = 1) ∨ (dx d = -1 ∧ dy d = 0).
Proof. destruct d; simpl; lia. Qed.

Lemma interior_wall_in_range n p d :
  interior_cell n p →
  0 ≤ Position.x p + dx d < n ∧ 0 ≤ Position.y p + dy d < n.
Proof. intros (_ & _ & Hx & Hy). destruct (dx_dy_cases d); lia. Qed.

Lemma interior_wall_read n m p d :
  square n m → interior_cell n p →
  ∃ w, getitem2 m (Position.y p + dy d) (Position.x p + dx d) = Ok w.
Proof.
  intros Hsq Hp. destruct (interior_wall_in_range n p d Hp).
  by apply (getitem2_square n).
Qed.

(** Beyond a wall segment that is not Wall lies a cell inside the ring. *)
Lemma interior_cell_toward n m p d w :
  Z.odd n = true → wall_ring n m → interior_cell n p →
  getitem2 m (Position.y p + dy d) (Position.x p + dx d) = Ok w →
  w ≠ MiroHandler._WALL →
  interior_cell n (cell_toward p d).
Proof.
  intros Hn Hring (Hox & Hoy & Hx & Hy) Hw Hne. rewrite cell_toward_eq.
  unfold interior_cell. simpl. rewrite !Z.odd_add_mul_2. split; [done|]. split; [done|].
  assert (Heven : Z.odd (n - 1) = false).
  { rewrite Z.odd_sub, Hn. done. }
  destruct d; cbn [dx dy] in *.
  - destruct (decide (Position.y p = 1)) as [Hy1|Hy1].
    + destruct (wall_ring_lookup n m (Position.x p) Hring) as (H0 & _); [lia|done|].
      assert (getitem2 m 0 (Position.x p) = Ok w) by (rewrite <-Hw; f_equal; lia).
      congruence.
    + assert (Position.y p ≠ 2) by (intros E; rewrite E in Hoy; done). lia.
  - destruct (decide (Position.x p = n - 2)) as [Hx1|Hx1].
    + destruct (wall_ring_lookup n m (Position.y p) Hring) as (_ & _ & _ & H0); [lia|done|].
      assert (getitem2 m (Position.y p) (n - 1) = Ok w) by (rewrite <-Hw; f_equal; lia).
      congruence.
    + assert (Position.x p ≠ n - 3).
      { intros E. replace (n - 1) with (Position.x p + 2 * 1) in Heven by lia.
        rewrite Z.odd_add_mul_2 in Heven. congruence. }
      lia.
  - destruct (decide (Position.y p = n - 2)) as [Hy1|Hy1].
    + destruct (wall_ring_lookup n m (Position.x p) Hring) as (_ & H0 & _); [lia|done|].
      assert (getitem2 m (n - 1) (Position.x p) = Ok w) by (rewrite <-Hw; f_equal; lia).
      congruence.
    + assert (Position.y p ≠ n - 3).
      { intros E. replace (n - 1) with (Position.y p + 2 * 1) in Heven by lia.
        rewrite Z.odd_add_mul_2 in Heven. congruence. }
      lia.
  - destruct (decide (Position.x p = 1)) as [Hx1|Hx1].
    + destruct (wall_ring_lookup n m (Position.y p) Hring) as (_ & _ & H0 & _); [lia|done|].
      assert (getitem2 m (Position.y p) 0 = Ok w) by (rewrite <-Hw; f_equal; lia).
      congruence.
    + assert (Position.x p ≠ 2) by (intros E; rewrite E in Hox; done). lia.
Qed.

Lemma interior_cell_read n m p :
  square n m → interior_cell n p →
  ∃ c, getitem2 m (Position.y p) (Position.x p) = Ok c.
Proof. intros Hsq (_ & _ & Hx & Hy). apply (getitem2_square n); [done|lia..]. Qed.

Lemma for_each_total {A B : Type} (f : B → A → result B) acc l :
  (∀ acc a, a ∈ l → ∃ acc', f acc a = Ok acc') →
  ∃ r, for_each f acc l = Ok r.
Proof.
  revert acc. induction l as [|a l IH]; intros acc Hf; simpl; [eauto|].
  destruct (Hf acc a) as (acc' & ->); [left|]. simpl.
  apply IH. intros acc'' b ?. apply Hf. by right.
Qed.

Lemma count_surrounding_unexplored_total h p :
  Z.odd (MiroHandler._MAP_DIMENSIONS h) = true →
  square (MiroHandler._MAP_DIMENSIONS h) (MiroHandler._world_map h) →
  wall_ring (MiroHandler._MAP_DIMENSIONS h) (MiroHandler._world_map h) →
  interior_cell (MiroHandler._MAP_DIMENSIONS h) p →
  ∃ k, MiroHandler.count_surrounding_unexplored h p = Ok k.
Proof.
  intros Hn Hsq Hring Hp. unfold MiroHandler.count_surrounding_unexplored.
  apply for_each_total. intros acc d _. cbv beta. rewrite get_wall_eq.
  destruct (interior_wall_read _ _ p d Hsq Hp) as [w Hw]. rewrite Hw. simpl.
  unfold Py.eqb. case_bool_decide as Hwall; simpl; [eauto|].
  pose proof (interior_cell_toward _ _ p d w Hn Hring Hp Hw Hwall) as Hc.
  destruct (interior_cell_read _ _ _ Hsq Hc) as [c Hread].
  rewrite handle_direction_Some. rewrite cell_toward_eq in Hread. simpl in Hread.
  replace (getitem2 _ _ _) with (Ok c : result value).
  { simpl. case_bool_decide; eauto. }
  rewrite <-Hread. by destruct d.
Qed.

Lemma enclosed_candidates h priority :
  enclosed h → ∃ cands, candidates h priority = Ok cands.
Proof.
  intros (_ & Hn & Hsq & Hring & Hp).
  induction priority as [|d priority [cands IH]]; simpl; [eauto|].
  rewrite check_valid_path_unfold, get_wall_eq.
  destruct (interior_wall_read _ _ _ d Hsq Hp) as [w Hw]. rewrite Hw. simpl.
  destruct (truthy w) eqn:Htruthy; simpl; [by rewrite IH; eauto|].
  assert (w ≠ MiroHandler._WALL) as Hwall by (intros ->; done).
  pose proof (interior_cell_toward _ _ _ d w Hn Hring Hp Hw Hwall) as Hc.
  destruct (interior_cell_read _ _ _ Hsq Hc) as [c Hread].
  rewrite get_cell_eq. rewrite cell_toward_eq in Hread. simpl in Hread.
  rewrite Hread. simpl. destruct (negb _); [|by rewrite IH; eauto].
  destruct (count_surrounding_unexplored_total h _ Hn Hsq Hring Hc) as [k Hk].
  unfold unexploredScore. rewrite Hk. simpl. rewrite IH. simpl. eauto.
Qed.

(** ** Choosing the move *)

Lemma candidates_elem_of h priority cands n d :
  candidates h priority = Ok cands → (n, d) ∈ cands →
  d ∈ priority ∧ MiroHandler.check_valid_path h d = Ok true ∧ unexploredScore h d = Ok n.
Proof.
  revert cands. induction priority as [|e priority IH]; intros cands; simpl.
  { intros [= <-] Hin. by apply elem_of_nil in Hin. }
  destruct (MiroHandler.check_valid_path h e) as [[]|] eqn:Hvalid; simpl; [| |done].
  - destruct (unexploredScore h e) as [k|] eqn:Hscore; simpl; [|done].
    destruct (candidates h priority) as [rest|]; simpl; [|done].
    intros [= <-] [[= -> ->] | Hin]%elem_of_cons.
    + split; [left | done].
    + destruct (IH rest eq_refl Hin) as (? & ? & ?). split; [by right | done].
  - intros Hc Hin. destruct (IH cands Hc Hin) as (? & ? & ?). split; [by right | done].
Qed.

Lemma candidates_nil h priority :
  candidates h priority = Ok [] →
  ∀ d, d ∈ priority → MiroHandler.check_valid_path h d = Ok false.
Proof.
  induction priority as [|e priority IH]; simpl; [by intros _ d ?%elem_of_nil|].
  destruct (MiroHandler.check_valid_path h e) as [[]|] eqn:Hvalid; simpl; [| |done].
  - destruct (unexploredScore h e); simpl; [|done].
    by destruct (candidates h priority).
  - intros Hc d [-> | Hin]%elem_of_cons; [done | by apply IH].
Qed.

Lemma candidates_none_valid h priority :
  (∀ d, d ∈ priority → MiroHandler.check_valid_path h d = Ok false) →
  candidates h priority = Ok [].
Proof.
  induction priority as [|e priority IH]; intros Hall; simpl; [done|].
  rewrite (Hall e) by left. simpl. apply IH. intros d ?. apply Hall. by right.
Qed.

(** [find_best_direction] returns a direction exactly when it is the first
    of the candidates with the greatest score. *)
Lemma find_best_direction_Ok h d :
  MiroHandler.find_best_direction h = Ok d ↔
  ∃ priority cands n,
    MiroHandler.generate_direction_priority h None = Ok priority ∧
    candidates h priority = Ok cands ∧
    first_max cands n d.
Proof.
  rewrite find_best_direction_selectBestMove. unfold selectBestMove. split.
  - destruct (MiroHandler.generate_direction_priority h None) as [priority|]; simpl; [|done].
    destruct (candidates h priority) as [cands|] eqn:Hc; simpl; [|done].
    destruct (stable_max None cands) as [[n e]|] eqn:Hmax; [|done].
    intros [= ->]. exists priority, cands, n. by rewrite <-stable_max_first_max.
  - intros (priority & cands & n & -> & Hc & Hmax). simpl. rewrite Hc. simpl.
    apply stable_max_first_max in Hmax. by rewrite Hmax.
Qed.

(** Whatever the state, a direction returned has a valid path. *)
Lemma find_best_direction_valid h d :
  MiroHandler.find_best_direction h = Ok d → MiroHandler.check_valid_path h d = Ok true.
Proof.
  intros (priority & cands & n & _ & Hc & Hmax)%find_best_direction_Ok.
  apply first_max_elem_of in Hmax.
  by destruct (candidates_elem_of h priority cands n d Hc Hmax) as (_ & ? & _).
Qed.

(** Claim C3.  In an enclosed map, when at least one of the directions
    that [find_best_direction] enumerates has a valid path, it returns a
    direction, and that direction has a valid path at the current pose:
    the wall-segment slot toward it does not hold Wall and the neighbouring
    cell slot does not hold Pit, whatever the scores are. *)
Theorem find_best_direction_safe h :
  enclosed h →
  (∃ priority d,
     MiroHandler.generate_direction_priority h None = Ok priority ∧
     d ∈ priority ∧ MiroHandler.check_valid_path h d = Ok true) →
  ∃ d wall cell,
    MiroHandler.find_best_direction h = Ok d ∧
    MiroHandler.check_valid_path h d = Ok true ∧
    MiroHandler._get_wall_in_direction h (MiroHandler.position h) d = Ok wall ∧
    wall ≠ MiroHandler._WALL ∧
    MiroHandler._get_cell_in_direction h (MiroHandler.position h) d = Ok cell ∧
    cell ≠ MiroHandler._PIT.
Proof.
  intros Henc (priority & d0 & Hprio & Hin & Hvalid).
  destruct (enclosed_candidates h priority Henc) as [cands Hcands].
  destruct (stable_max None cands) as [[n d]|] eqn:Hmax.
  - assert (MiroHandler.find_best_direction h = Ok d) as Hbest.
    { apply find_best_direction_Ok. exists priority, cands, n.
      by rewrite <-stable_max_first_max. }
    pose proof (find_best_direction_valid h d Hbest) as Hd.
    destruct (proj1 (check_valid_path_true h d) Hd)
      as (wall & cell & Hwall & Htruthy & Hcell & Hpit).
    exists d, wall, cell. split; [exact Hbest|]. split; [exact Hd|].
    split; [exact Hwall|]. split; [|by split].
    intros ->. discriminate Htruthy.
  - apply stable_max_None in Hmax. subst cands.
    by rewrite (candidates_nil h priority Hcands d0 Hin) in Hvalid.
Qed.

Lemma find_best_direction_safe_witness :
  ∃ d wall cell,
    MiroHandler.find_best_direction scanned_2x2_open = Ok d ∧
    MiroHandler.check_valid_path scanned_2x2_open d = Ok true ∧
    MiroHandler._get_wall_in_direction scanned_2x2_open
      (MiroHandler.position scanned_2x2_open) d = Ok wall ∧
    wall ≠ MiroHandler._WALL ∧
    MiroHandler._get_cell_in_direction scanned_2x2_open
      (MiroHandler.position scanned_2x2_open) d = Ok cell ∧
    cell ≠ MiroHandler._PIT.
Proof.
  apply (find_best_direction_safe scanned_2x2_open).
  - apply (bool_decide_unpack _). vm_compute. exact I.
  - exists [west; south; north; south], north. split; [reflexivity|].
    split; [|reflexivity]. apply list_elem_of_In. simpl. tauto.
Defined.

(** Claim C8.  When every direction that [find_best_direction] enumerates
    has a recorded wall or a pit for neighbour, the call raises (Python's
    [ValueError], from [max] of an empty dictionary) instead of returning a
    direction; the handler, its map and its pose are left as they were,
    and the exploration loop stops there with that error. *)
Theorem find_best_direction_stuck h priority :
  MiroHandler.generate_direction_priority h None = Ok priority →
  (∀ d, d ∈ priority →
        ∃ wall, MiroHandler._get_wall_in_direction h (MiroHandler.position h) d = Ok wall ∧
                (wall = MiroHandler._WALL ∨
                 MiroHandler._get_cell_in_direction h (MiroHandler.position h) d
                 = Ok MiroHandler._PIT)) →
  MiroHandler.find_best_direction h = Raise ValueError ∧
  move_phase h = (Raise ValueError, h, []) ∧
  ∀ miro_simulation fuel h0 acts,
    scan_phase miro_simulation h0 = (Ok false, h, acts) →
    exploration_loop miro_simulation (S fuel) h0 = (Crashed ValueError, h, acts).
Proof.
  intros Hprio Hall.
  assert (MiroHandler.find_best_direction h = Raise ValueError) as Hraise.
  { rewrite find_best_direction_selectBestMove. unfold selectBestMove.
    rewrite Hprio. simpl. rewrite candidates_none_valid; [done|].
    intros d Hd. destruct (Hall d Hd) as (wall & Hwall & Hcase).
    rewrite check_valid_path_unfold, Hwall. simpl.
    destruct Hcase as [-> | Hpit]; [done|]. rewrite Hpit. simpl.
    by destruct (truthy wall). }
  assert (move_phase h = (Raise ValueError, h, [])) as Hmove.
  { unfold move_phase, mbind, MiroHandler.M_bind, MiroHandler.read. by rewrite Hraise. }
  split; [done|]. split; [done|].
  intros sim fuel h0 acts Hscan. simpl. rewrite Hscan, Hmove. by rewrite app_nil_r.
Qed.

Lemma find_best_direction_stuck_witness :
  MiroHandler.find_best_direction handler_1x1 = Raise ValueError.
Proof.
  refine (proj1 (find_best_direction_stuck handler_1x1 [north; west; east; west] _ _)).
  - reflexivity.
  - intros d Hd. exists (PyInt 1).
    apply list_elem_of_In in Hd. simpl in Hd.
    destruct Hd as [<- | [<- | [<- | [<- | []]]]]; split; (reflexivity || (left; reflexivity)).
Defined.

(** Claim C5, on the code.  In the 2×2 maze with a wall north of the
    start and the way east open, the first scan leaves the robot facing
    north with east recorded open.  East has a valid path, but it is the
    direction to the right of the facing, which the pathfinding order never
    enumerates: [find_best_direction] raises instead of returning east, and
    the program stops with that error at its first decision. *)
Theorem find_best_direction_misses_open_direction :
  MiroHandler.check_valid_path scanned_2x2_wall_north east = Ok true ∧
  MiroHandler.generate_direction_priority scanned_2x2_wall_north None
  = Ok [west; south; north; south] ∧
  MiroHandler.find_best_direction scanned_2x2_wall_north = Raise ValueError ∧
  main 2 maze_2x2_wall_north 1 =
  Ok (Crashed ValueError, scanned_2x2_wall_north,
      [Store 3 2 PyNone (PyInt 0); Store 3 3 PyNone (PyInt 0); TurnLeft;
       Store 2 1 PyNone (PyInt 1)]).
Proof. repeat split; vm_compute; reflexivity. Qed.

(** ** The map as built *)

Lemma lookup_replicate_pair {A : Type} (a b : A) (k i : nat) :
  mjoin (replicate k [a; b]) !! i =
  if decide (i < 2 * k)%nat then Some (if Nat.even i then a else b) else None.
Proof.
  revert i. induction k as [|k IH]; intros i.
  { rewrite decide_False by lia. by destruct i. }
  change (mjoin (replicate (S k) [a; b])) with (a :: b :: mjoin (replicate k [a; b])).
  destruct i as [|[|i]].
  - by rewrite decide_True by lia.
  - by rewrite decide_True by lia.
  - change ((a :: b :: mjoin (replicate k [a; b])) !! S (S i))
      with (mjoin (replicate k [a; b]) !! i).
    rewrite IH. change (Nat.even (S (S i))) with (Nat.even i).
    repeat case_decide; try lia; done.
Qed.

Lemma even_of_nat (i : nat) : Z.even (Z.of_nat i) = Nat.even i.
Proof.
  induction i as [|i IH]; [done|].
  rewrite Nat2Z.inj_succ, Z.even_succ, Nat.even_succ, <-Z.negb_even, <-Nat.negb_even.
  by rewrite IH.
Qed.

Lemma lookup_mul_pair {A : Type} (a b : A) (k i : Z) :
  0 ≤ i →
  Py.mul [a; b] k !! Z.to_nat i =
  if decide (i < 2 * k) then Some (if Z.even i then a else b) else None.
Proof.
  intros Hi. unfold Py.mul. rewrite lookup_replicate_pair.
  replace (Nat.even (Z.to_nat i)) with (Z.even i).
  - repeat case_decide; try lia; done.
  - rewrite <-(Z2Nat.id i) at 1 by done. apply even_of_nat.
Qed.

Lemma length_mul_pair {A : Type} (a b : A) (k : Z) :
  0 ≤ k → Z.of_nat (length (Py.mul [a; b] k)) = 2 * k.
Proof.
  intros Hk. unfold Py.mul. rewrite <-(Z2Nat.id k) at 2 by done.
  induction (Z.to_nat k) as [|j IH]; simpl; [done|]. simpl in IH. lia.
Qed.

Lemma mul_single {A : Type} (a : A) (k : Z) : Py.mul [a] k = replicate (Z.to_nat k) a.
Proof.
  unfold Py.mul. induction (Z.to_nat k) as [|j IH]; simpl; [done|]. by rewrite IH.
Qed.

Lemma foldl_append_rows {A B : Type} (P : A → Prop) `{∀ i, Decision (P i)}
    (r1 r2 : B) (rows : list B) (l : list A) :
  foldl (λ rows i, if decide (P i) then rows ++ [r1] else rows ++ [r2]) rows l =
  rows ++ ((λ i, if decide (P i) then r1 else r2) <$> l).
Proof.
  revert rows. induction l as [|i l IH]; intros rows; simpl.
  - by rewrite app_nil_r.
  - rewrite IH. case_decide; by rewrite <-app_assoc.
Qed.

(** The three kinds of rows. *)
Lemma border_row_lookup D x :
  0 ≤ x < 2 * D + 1 →
  ([MiroHandler._WALL_INTERSECTION]
     ++ Py.mul [MiroHandler._WALL; MiroHandler._WALL_INTERSECTION] D) !! Z.to_nat x =
  Some (if Z.even x then MiroHandler._WALL_INTERSECTION else MiroHandler._WALL).
Proof.
  intros Hx. destruct (decide (x = 0)) as [->|Hne]; [done|].
  replace (Z.to_nat x) with (S (Z.to_nat (x - 1))) by lia. simpl.
  rewrite lookup_mul_pair by lia. rewrite decide_True by lia.
  replace x with (Z.succ (x - 1)) at 2 by lia. rewrite Z.even_succ.
  rewrite <-Z.negb_even. by destruct (Z.even (x - 1)).
Qed.

Lemma wall_row_lookup D x :
  0 ≤ x < 2 * D + 1 →
  ([MiroHandler._WALL_INTERSECTION]
     ++ Py.mul [PyNone; MiroHandler._WALL_INTERSECTION] D) !! Z.to_nat x =
  Some (if Z.even x then MiroHandler._WALL_INTERSECTION else PyNone).
Proof.
  intros Hx. destruct (decide (x = 0)) as [->|Hne]; [done|].
  replace (Z.to_nat x) with (S (Z.to_nat (x - 1))) by lia. simpl.
  rewrite lookup_mul_pair by lia. rewrite decide_True by lia.
  replace x with (Z.succ (x - 1)) at 2 by lia. rewrite Z.even_succ.
  rewrite <-Z.negb_even. by destruct (Z.even (x - 1)).
Qed.

Lemma cell_row_lookup n x :
  0 ≤ x < n →
  ([MiroHandler._WALL] ++ Py.mul [PyNone] (n - 2) ++ [MiroHandler._WALL]) !! Z.to_nat x =
  Some (if decide (x = 0 ∨ x = n - 1) then MiroHandler._WALL else PyNone).
Proof.
  intros Hx. rewrite mul_single. destruct (decide (x = 0)) as [->|Hne].
  { by rewrite decide_True by lia. }
  replace (Z.to_nat x) with (S (Z.to_nat (x - 1))) by lia. simpl.
  destruct (decide (x = n - 1)) as [->|Hne'].
  - rewrite decide_True by lia. rewrite lookup_app_r; rewrite length_replicate; [|lia].
    by replace (Z.to_nat (n - 1 - 1) - Z.to_nat (n - 2))%nat with 0%nat by lia.
  - rewrite decide_False by lia. rewrite lookup_app_l by (rewrite length_replicate; lia).
    apply lookup_replicate_2. lia.
Qed.

Lemma row_lengths D :
  0 ≤ D →
  Z.of_nat (length ([MiroHandler._WALL_INTERSECTION]
     ++ Py.mul [MiroHandler._WALL; MiroHandler._WALL_INTERSECTION] D)) = 2 * D + 1 ∧
  Z.of_nat (length ([MiroHandler._WALL_INTERSECTION]
     ++ Py.mul [PyNone; MiroHandler._WALL_INTERSECTION] D)) = 2 * D + 1 ∧
  Z.of_nat (length ([MiroHandler._WALL] ++ Py.mul [PyNone] (2 * D + 1 - 2)
     ++ [MiroHandler._WALL])) = Z.max 2 (2 * D + 1).
Proof.
  intros HD. rewrite !length_app, mul_single, length_replicate. simpl.
  pose proof (length_mul_pair MiroHandler._WALL MiroHandler._WALL_INTERSECTION D HD).
  pose proof (length_mul_pair PyNone MiroHandler._WALL_INTERSECTION D HD).
  lia.
Qed.

Lemma initial_rows_lookup D x y :
  1 ≤ D → 0 ≤ x < 2 * D + 1 → 0 ≤ y < 2 * D + 1 →
  let n := 2 * D + 1 in
  let border := [MiroHandler._WALL_INTERSECTION]
                  ++ Py.mul [MiroHandler._WALL; MiroHandler._WALL_INTERSECTION] D in
  let rows :=
    ([border] ++
     ((λ i, if decide (i `mod` 2 = 0)
            then [MiroHandler._WALL] ++ Py.mul [PyNone] (n - 2) ++ [MiroHandler._WALL]
            else [MiroHandler._WALL_INTERSECTION]
                   ++ Py.mul [PyNone; MiroHandler._WALL_INTERSECTION] D)
        <$> Py.range (n - 2))) ++ [border] in
  ∃ row, rows !! Z.to_nat y = Some row ∧
         Z.of_nat (length row) = n ∧
         row !! Z.to_nat x = Some (initial_slot n x y).
Proof.
  intros HD Hx Hy n border rows. unfold initial_slot.
  destruct (row_lengths D) as (Hlen1 & Hlen2 & Hlen3); [lia|].
  assert (Hmid : length ([border] ++
     ((λ i, if decide (i `mod` 2 = 0)
            then [MiroHandler._WALL] ++ Py.mul [PyNone] (n - 2) ++ [MiroHandler._WALL]
            else [MiroHandler._WALL_INTERSECTION]
                   ++ Py.mul [PyNone; MiroHandler._WALL_INTERSECTION] D)
        <$> Py.range (n - 2))) = Z.to_nat (n - 1)).
  { rewrite length_app, length_fmap. unfold Py.range. rewrite length_seqZ. simpl. lia. }
  destruct (decide (y = 0)) as [->|Hy0].
  { exists border. rewrite decide_True by lia. split; [done|]. split; [done|].
    by apply border_row_lookup. }
  destruct (decide (y = n - 1)) as [->|Hy1].
  { exists border. rewrite decide_True by lia. split; [|split; [done|]].
    - unfold rows. rewrite lookup_app_r by lia. rewrite Hmid.
      by replace (Z.to_nat (n - 1) - Z.to_nat (n - 1))%nat with 0%nat by lia.
    - by apply border_row_lookup. }
  rewrite decide_False by lia.
  assert (Hrow : rows !! Z.to_nat y =
    Some (if decide ((y - 1) `mod` 2 = 0)
          then [MiroHandler._WALL] ++ Py.mul [PyNone] (n - 2) ++ [MiroHandler._WALL]
          else [MiroHandler._WALL_INTERSECTION]
                 ++ Py.mul [PyNone; MiroHandler._WALL_INTERSECTION] D)).
  { unfold rows. rewrite lookup_app_l by lia.
    replace (Z.to_nat y) with (S (Z.to_nat (y - 1))) by lia. simpl.
    rewrite list_lookup_fmap. unfold Py.range. rewrite lookup_seqZ_lt by lia. simpl.
    by replace (0 + Z.of_nat (Z.to_nat (y - 1))) with (y - 1) by lia. }
  rewrite Hrow. eexists. split; [done|].
  rewrite Zmod_odd.
  replace (Z.odd (y - 1)) with (negb (Z.odd y)).
  2:{ replace y with (Z.succ (y - 1)) at 1 by lia.
      by rewrite Z.odd_succ, Z.negb_even. }
  destruct (Z.odd y); cbn [negb].
  - rewrite decide_True by done. split; [unfold n in *; lia|]. by apply cell_row_lookup.
  - rewrite decide_False by done. split; [done|]. by apply wall_row_lookup.
Qed.

(** The map as built: a square whose slots are those of [initial_slot],
    but for the start cell, which is marked Cell. *)
Lemma generate_world_map_spec D p :
  1 ≤ D →
  0 ≤ Position.x p < 2 * D + 1 → 0 ≤ Position.y p < 2 * D + 1 →
  ∃ world_map,
    MiroHandler._generate_world_map (2 * D + 1) p = Ok world_map ∧
    square (2 * D + 1) world_map ∧
    ∀ x y, 0 ≤ x < 2 * D + 1 → 0 ≤ y < 2 * D + 1 →
           getitem2 world_map y x =
           Ok (if decide (x = Position.x p ∧ y = Position.y p) then MiroHandler._CELL
               else initial_slot (2 * D + 1) x y).
Proof.
  intros HD Hpx Hpy. unfold MiroHandler._generate_world_map. cbv zeta.
  rewrite foldl_append_rows.
  replace ((2 * D + 1) `div` 2) with D
    by (apply (Z.div_unique _ _ _ 1); lia).
  set (rows := (_ ++ _) ++ _).
  assert (Hsq : square (2 * D + 1) rows).
  { split.
    - unfold rows. rewrite !length_app, length_fmap. unfold Py.range.
      rewrite length_seqZ. simpl. lia.
    - apply Forall_lookup. intros i row Hi.
      assert (i < length rows)%nat as Hlt by by eapply lookup_lt_Some.
      assert (Z.of_nat (length rows) = 2 * D + 1) as Hlen.
      { unfold rows. rewrite !length_app, length_fmap. unfold Py.range.
        rewrite length_seqZ. simpl. lia. }
      destruct (initial_rows_lookup D 0 (Z.of_nat i)) as (row' & Hrow' & Hrowlen & _);
        [lia..|].
      fold rows in Hrow'. rewrite Nat2Z.id in Hrow'. by simplify_eq. }
  destruct (setitem2_square (2 * D + 1) rows (Position.y p) (Position.x p)
              MiroHandler._CELL Hsq Hpx Hpy) as (m' & Hset & Hsq' & Hget).
  exists m'. split; [done|]. split; [done|].
  intros x y Hx Hy. rewrite Hget by lia. case_decide; [done|].
  destruct (initial_rows_lookup D x y HD Hx Hy) as (row & Hrow & _ & Hv).
  fold rows in Hrow. rewrite getitem2_nonneg by lia. by rewrite Hrow, Hv.
Qed.

(** Parity facts as equations, for linear arithmetic. *)
Ltac parity :=
  repeat match goal with
    | H : Z.odd _ = true |- _ => apply Z.odd_spec in H; destruct H as [? H]
    | H : Z.even _ = true |- _ => apply Z.even_spec in H; destruct H as [? H]
    | H : Z.odd _ = false |- _ =>
        rewrite <-Z.negb_even in H; apply negb_false_iff in H
    | H : Z.even _ = false |- _ =>
        rewrite <-Z.negb_odd in H; apply negb_false_iff in H
    end.

Lemma odd_not_even x : Z.odd x = true → Z.even x = false.
Proof. intros H. by rewrite <-Z.negb_odd, H. Qed.

Lemma even_not_odd x : Z.even x = true → Z.odd x = false.
Proof. intros H. by rewrite <-Z.negb_even, H. Qed.

Lemma odd_double_succ D : Z.odd (2 * D + 1) = true.
Proof. replace (2 * D + 1) with (1 + 2 * D) by lia. by rewrite Z.odd_add_mul_2. Qed.

Lemma odd_double_pred D : Z.odd (2 * D - 1) = true.
Proof. replace (2 * D - 1) with (1 + 2 * (D - 1)) by lia. by rewrite Z.odd_add_mul_2. Qed.

Lemma mixed_parity x y :
  Z.odd x ≠ Z.odd y →
  (Z.odd x = true ∧ Z.even y = true) ∨ (Z.even x = true ∧ Z.odd y = true).
Proof.
  rewrite <-(Z.negb_odd x), <-(Z.negb_odd y).
  destruct (Z.odd x), (Z.odd y); simpl; tauto.
Qed.

Lemma initial_slot_intersection n x y :
  Z.even x = true → Z.even y = true →
  initial_slot n x y = MiroHandler._WALL_INTERSECTION.
Proof.
  intros Hx Hy. unfold initial_slot. rewrite Hx, (even_not_odd y Hy).
  by case_decide.
Qed.

Lemma initial_slot_cell n x y :
  Z.odd n = true → Z.odd x = true → Z.odd y = true →
  initial_slot n x y = PyNone.
Proof.
  intros Hn Hx Hy. unfold initial_slot. rewrite Hy.
  rewrite decide_False by (parity; lia). by rewrite decide_False by (parity; lia).
Qed.

Lemma initial_slot_wall n x y :
  Z.odd n = true → Z.odd x ≠ Z.odd y →
  (initial_slot n x y = MiroHandler._WALL ∧ (x = 0 ∨ x = n - 1 ∨ y = 0 ∨ y = n - 1)) ∨
  (initial_slot n x y = PyNone ∧ ¬ (x = 0 ∨ x = n - 1 ∨ y = 0 ∨ y = n - 1)).
Proof.
  intros Hn [[Hx Hy] | [Hx Hy]]%mixed_parity; unfold initial_slot.
  - rewrite (odd_not_even x Hx), (even_not_odd y Hy).
    case_decide; [left; split; [done | tauto]|].
    right. split; [done|]. parity. lia.
  - rewrite Hx, Hy. rewrite decide_False by (parity; lia).
    case_decide; [left; split; [done | tauto]|].
    right. split; [done|]. parity. lia.
Qed.

(** The handler as built for a maze of side [D] satisfies the invariant of
    the loop, whatever the environment. *)
Lemma init_Inv miro_simulation D :
  1 ≤ D →
  ∃ h0,
    MiroHandler.init (D * 2 + 1) (Position.Position 1 (D * 2 - 1) (Some east)) = Ok h0 ∧
    MiroHandler._MAP_DIMENSIONS h0 = 2 * D + 1 ∧
    Inv miro_simulation 1 (2 * D - 1) h0.
Proof.
  intros HD. replace (D * 2 + 1) with (2 * D + 1) by lia.
  replace (D * 2 - 1) with (2 * D - 1) by lia.
  set (p := Position.Position 1 (2 * D - 1) (Some east)).
  destruct (generate_world_map_spec D p HD) as (m & Hgen & Hsq & Hget);
    [simpl; lia..|].
  unfold MiroHandler.init. rewrite Hgen. simpl. eexists. split; [done|]. split; [done|].
  pose proof (odd_double_succ D) as Hn. pose proof (odd_double_pred D) as Hsy.
  assert (Hslot : ∀ x y, 0 ≤ x < 2 * D + 1 → 0 ≤ y < 2 * D + 1 →
                         ¬ (Z.odd x = true ∧ Z.odd y = true) →
                         getitem2 m y x = Ok (initial_slot (2 * D + 1) x y)).
  { intros x y Hx Hy Hodd. rewrite Hget by done. rewrite decide_False; [done|].
    simpl. intros [-> ->]. by apply Hodd. }
  assert (Hwall : ∀ i, 0 ≤ i < 2 * D + 1 → Z.odd i = true →
                       initial_slot (2 * D + 1) i 0 = MiroHandler._WALL ∧
                       initial_slot (2 * D + 1) i (2 * D + 1 - 1) = MiroHandler._WALL ∧
                       initial_slot (2 * D + 1) 0 i = MiroHandler._WALL ∧
                       initial_slot (2 * D + 1) (2 * D + 1 - 1) i = MiroHandler._WALL).
  { intros i Hi Hodd.
    assert (Z.odd 0 = false) as H0 by done.
    assert (Z.odd (2 * D + 1 - 1) = false) as H1.
    { replace (2 * D + 1 - 1) with (0 + 2 * D) by lia. by rewrite Z.odd_add_mul_2. }
    repeat split.
    - destruct (initial_slot_wall (2 * D + 1) i 0 Hn) as [[? _] | [_ []]];
        [congruence | done | lia].
    - destruct (initial_slot_wall (2 * D + 1) i (2 * D + 1 - 1) Hn) as [[? _] | [_ []]];
        [congruence | done | lia].
    - destruct (initial_slot_wall (2 * D + 1) 0 i Hn) as [[? _] | [_ []]];
        [congruence | done | lia].
    - destruct (initial_slot_wall (2 * D + 1) (2 * D + 1 - 1) i Hn) as [[? _] | [_ []]];
        [congruence | done | lia]. }
  split; simpl.
  - unfold enclosed. simpl. split; [lia|]. split; [done|]. split; [done|]. split.
    + apply Forall_forall. intros i Hi%elem_of_seqZ Hodd.
      destruct (Hwall i) as (W1 & W2 & W3 & W4); [lia | done |].
      assert (Z.odd (2 * D + 1 - 1) = false) as Hlast.
      { replace (2 * D + 1 - 1) with (0 + 2 * D) by lia. by rewrite Z.odd_add_mul_2. }
      rewrite (Hslot i 0), W1; [|lia | lia | by intros [_ ?]].
      rewrite (Hslot i (2 * D + 1 - 1)), W2;
        [|lia | lia | intros [_ ?]; congruence].
      rewrite (Hslot 0 i), W3; [|lia | lia | by intros [? _]].
      rewrite (Hslot (2 * D + 1 - 1) i), W4;
        [|lia | lia | intros [? _]; congruence].
      done.
    + unfold interior_cell. simpl. split; [done|]. split; [done|]. lia.
  - by eexists.
  - intros x y Hx Hy Hex Hey. rewrite Hslot; [|done..|].
    + by rewrite initial_slot_intersection.
    + rewrite (even_not_odd x Hex). by intros [? _].
  - intros x y v Hx Hy Hmixed. rewrite Hslot; [|done..|].
    + intros [= <-].
      destruct (initial_slot_wall (2 * D + 1) x y Hn Hmixed) as [[-> Hb] | [-> _]];
        [right; left; done | by left].
    + intros [E1 E2]. rewrite E1, E2 in Hmixed. done.
  - intros x y v Hx Hy Hox Hoy. rewrite Hget by done. case_decide as Hstart.
    + intros [= <-]. right; left. simpl in Hstart. tauto.
    + intros [= <-]. left. by apply initial_slot_cell.
  - unfold interior_cell. simpl. split; [done|]. split; [done|]. lia.
  - by left.
Qed.

(** ** Running the monad *)

Lemma bind_read {A B : Type} (f : MiroHandler.t → result A) (k : A → MiroHandler.M B) h :
  (MiroHandler.read f ≫= k) h =
  match f h with
  | Ok a => k a h
  | Raise e => (Raise e, h, [])
  end.
Proof.
  unfold mbind, MiroHandler.M_bind, MiroHandler.read.
  destruct (f h) as [a|e]; simpl; [|done]. by destruct (k a h) as [[r h'] acts].
Qed.

Lemma bind_run {A B : Type} (m : MiroHandler.M A) (k : A → MiroHandler.M B) h a h1 acts1 :
  m h = (Ok a, h1, acts1) →
  (m ≫= k) h = ((k a h1).1.1, (k a h1).1.2, acts1 ++ (k a h1).2).
Proof.
  intros Hm. unfold mbind, MiroHandler.M_bind. rewrite Hm.
  by destruct (k a h1) as [[r h'] acts].
Qed.

Lemma bind_raise {A B : Type} (m : MiroHandler.M A) (k : A → MiroHandler.M B) h e h1 acts1 :
  m h = (Raise e, h1, acts1) → (m ≫= k) h = (Raise e, h1, acts1).
Proof. intros Hm. unfold mbind, MiroHandler.M_bind. by rewrite Hm. Qed.

Lemma ret_run {A : Type} (a : A) h : (mret a : MiroHandler.M A) h = (Ok a, h, []).
Proof. done. Qed.

(** ** What the loop reads and asks *)

Lemma direction_recorded_unfold h d :
  MiroHandler.direction_recorded h d =
  w ← getitem2 (MiroHandler._world_map h)
        (Position.y (MiroHandler.position h) + dy d)
        (Position.x (MiroHandler.position h) + dx d);
  if Py.eqb w (PyInt 0) then
    c ← getitem2 (MiroHandler._world_map h)
          (Position.y (MiroHandler.position h) + 2 * dy d)
          (Position.x (MiroHandler.position h) + 2 * dx d);
    Ok (negb (Py.eqb c PyNone))
  else Ok (negb (Py.eqb w PyNone)).
Proof.
  unfold MiroHandler.direction_recorded. rewrite get_wall_eq, get_cell_eq.
  destruct (getitem2 _ (Position.y (MiroHandler.position h) + dy d) _) as [w|];
    simpl; [|done].
  destruct (Py.eqb w (PyInt 0)); simpl.
  - destruct (getitem2 _ _ _) as [c|]; simpl; [|done]. by destruct (Py.eqb c PyNone).
  - by destruct (Py.eqb w PyNone).
Qed.

Lemma check_wall_infront_eq miro_simulation p d :
  Position.direction p = Some d →
  MiroSimulation.check_wall_infront miro_simulation p =
  oracle_wall miro_simulation (Position.x p + dx d) (Position.y p + dy d).
Proof.
  intros Hd. unfold MiroSimulation.check_wall_infront, oracle_wall.
  rewrite (handle_direction_own p walls d Hd), handle_direction_Some.
  replace (Offset.y _) with (dy d) by by destruct d.
  replace (Offset.x _) with (dx d) by by destruct d.
  destruct (getitem2 _ _ _) as [v|]; simpl; [|done]. by destruct (truthy v).
Qed.

Lemma check_pit_infront_eq miro_simulation p d :
  Position.direction p = Some d →
  MiroSimulation.check_pit_infront miro_simulation p =
  oracle_pit miro_simulation (Position.x p + 2 * dx d) (Position.y p + 2 * dy d).
Proof.
  intros Hd. unfold MiroSimulation.check_pit_infront, oracle_pit.
  rewrite (handle_direction_own p cells d Hd), handle_direction_Some.
  replace (Offset.y _) with (2 * dy d) by by destruct d.
  replace (Offset.x _) with (2 * dx d) by by destruct d.
  destruct (getitem2 _ _ _) as [v|]; simpl; [|done]. by destruct (Py.eqb v _).
Qed.

Lemma record_wall_infront_eq h d b :
  MiroHandler.direction h = Some d →
  MiroHandler.record_wall_infront b h =
  (MiroHandler.store (Position.y (MiroHandler.position h) + dy d)
     (Position.x (MiroHandler.position h) + dx d)
     (if b then MiroHandler._WALL else MiroHandler._NO_WALL) ≫= λ _, mret b) h.
Proof.
  intros Hd. unfold MiroHandler.record_wall_infront. rewrite bind_read.
  cbv beta iota. fold (MiroHandler.position h).
  rewrite (handle_direction_own _ walls d Hd), handle_direction_Some.
  replace (Offset.y _) with (dy d) by by destruct d.
  replace (Offset.x _) with (dx d) by by destruct d.
  done.
Qed.

Lemma record_pit_infront_eq h d b :
  MiroHandler.direction h = Some d →
  MiroHandler.record_pit_infront b h =
  (MiroHandler.store (Position.y (MiroHandler.position h) + 2 * dy d)
     (Position.x (MiroHandler.position h) + 2 * dx d)
     (if b then MiroHandler._PIT else MiroHandler._CELL) ≫= λ _, mret b) h.
Proof.
  intros Hd. unfold MiroHandler.record_pit_infront. rewrite bind_read.
  cbv beta iota. fold (MiroHandler.position h).
  rewrite (handle_direction_own _ cells d Hd), handle_direction_Some.
  replace (Offset.y _) with (2 * dy d) by by destruct d.
  replace (Offset.x _) with (2 * dx d) by by destruct d.
  done.
Qed.

(** ** Growth of knowledge *)

Lemma knows_le_refl m : knows_le m m.
Proof. by intros x y v ? ? ? ?. Qed.

Lemma knows_le_trans m1 m2 m3 : knows_le m1 m2 → knows_le m2 m3 → knows_le m1 m3.
Proof. intros H12 H23 x y v Hx Hy Hv Hne. apply H23; [done..| |done]. by apply H12. Qed.

Lemma knows_le_store (m m' : list (list value)) x y v old :
  (∀ x' y', 0 ≤ x' → 0 ≤ y' →
            getitem2 m' y' x' = if decide (x' = x ∧ y' = y) then Ok v else getitem2 m y' x') →
  getitem2 m y x = Ok old → old = PyNone ∨ v = old →
  knows_le m m'.
Proof.
  intros Hget Hold Hmono x' y' v' Hx' Hy' Hv' Hne. rewrite Hget by done.
  case_decide as Heq; [|done]. destruct Heq as [-> ->].
  rewrite Hold in Hv'. destruct Hmono; congruence.
Qed.

Lemma direction_recorded_mono h h' d :
  enclosed h →
  Position.x (MiroHandler.position h') = Position.x (MiroHandler.position h) →
  Position.y (MiroHandler.position h') = Position.y (MiroHandler.position h) →
  knows_le (MiroHandler._world_map h) (MiroHandler._world_map h') →
  MiroHandler.direction_recorded h d = Ok true →
  MiroHandler.direction_recorded h' d = Ok true.
Proof.
  intros (_ & Hn & Hsq & Hring & Hp) Hx Hy Hle. rewrite !direction_recorded_unfold, Hx, Hy.
  destruct (interior_wall_in_range _ _ d Hp) as [Hwx Hwy].
  destruct (getitem2 (MiroHandler._world_map h)
              (Position.y (MiroHandler.position h) + dy d)
              (Position.x (MiroHandler.position h) + dx d)) as [w|] eqn:Hw;
    simpl; [|done].
  destruct (Py.eqb w (PyInt 0)) eqn:Hw0; simpl.
  - apply bool_decide_eq_true in Hw0. subst w.
    rewrite (Hle (Position.x (MiroHandler.position h) + dx d)
               (Position.y (MiroHandler.position h) + dy d) (PyInt 0)
               ltac:(lia) ltac:(lia) Hw ltac:(done)).
    simpl.
    pose proof (interior_cell_toward _ _ _ d (PyInt 0) Hn Hring Hp Hw ltac:(done)) as Hc.
    rewrite cell_toward_eq in Hc. destruct Hc as (_ & _ & Hcx & Hcy).
    simpl in Hcx, Hcy.
    destruct (getitem2 (MiroHandler._world_map h)
                (Position.y (MiroHandler.position h) + 2 * dy d)
                (Position.x (MiroHandler.position h) + 2 * dx d)) as [c|] eqn:Hcell;
      simpl; [|done].
    destruct (Py.eqb c PyNone) eqn:Hc0; simpl; [done|]. intros _.
    apply bool_decide_eq_false in Hc0 as Hc0'.
    rewrite (Hle (Position.x (MiroHandler.position h) + 2 * dx d)
               (Position.y (MiroHandler.position h) + 2 * dy d) c
               ltac:(lia) ltac:(lia) Hcell Hc0').
    simpl. by rewrite Hc0.
  - destruct (Py.eqb w PyNone) eqn:HwN; simpl; [done|]. intros _.
    apply bool_decide_eq_false in HwN as HwN'.
    rewrite (Hle (Position.x (MiroHandler.position h) + dx d)
               (Position.y (MiroHandler.position h) + dy d) w
               ltac:(lia) ltac:(lia) Hw HwN').
    simpl. by rewrite Hw0, HwN.
Qed.

(** ** Stores that keep the invariant *)

Lemma with_map_position h m : MiroHandler.position (with_map h m) = MiroHandler.position h.
Proof. done. Qed.

Lemma with_map_direction h m : MiroHandler.direction (with_map h m) = MiroHandler.direction h.
Proof. done. Qed.

Lemma with_map_dims h m :
  MiroHandler._MAP_DIMENSIONS (with_map h m) = MiroHandler._MAP_DIMENSIONS h.
Proof. done. Qed.

Lemma with_map_map h m : MiroHandler._world_map (with_map h m) = m.
Proof. done. Qed.

Lemma wall_slot_parity x y d :
  Z.odd x = true → Z.odd y = true → Z.odd (x + dx d) ≠ Z.odd (y + dy d).
Proof. intros Hx Hy. rewrite !Z.odd_add, Hx, Hy. by destruct d. Qed.

Lemma wall_slot_not_intersection x y d :
  Z.odd x = true → Z.odd y = true →
  ¬ (Z.even (x + dx d) = true ∧ Z.even (y + dy d) = true).
Proof.
  intros Hx Hy. rewrite <-!Z.negb_odd, !Z.odd_add, Hx, Hy.
  destruct d; simpl; intros [? ?]; done.
Qed.

Section Stores.

Context (miro_simulation : MiroSimulation.t) (sx sy : Z).

(** Recording the wall segment toward [d], when the slot does not hold
    Wall yet, with the answer of the environment. *)
Lemma Inv_store_wall h d w b :
  Inv miro_simulation sx sy h →
  getitem2 (MiroHandler._world_map h)
    (Position.y (MiroHandler.position h) + dy d)
    (Position.x (MiroHandler.position h) + dx d) = Ok w →
  w ≠ MiroHandler._WALL →
  oracle_wall miro_simulation
    (Position.x (MiroHandler.position h) + dx d)
    (Position.y (MiroHandler.position h) + dy d) = Ok b →
  let wx := Position.x (MiroHandler.position h) + dx d in
  let wy := Position.y (MiroHandler.position h) + dy d in
  let new := if b then MiroHandler._WALL else MiroHandler._NO_WALL in
  ∃ m',
    MiroHandler.store wy wx new h = (Ok (), with_map h m', [Store wy wx w new]) ∧
    Inv miro_simulation sx sy (with_map h m') ∧
    monotone_store (MiroHandler._MAP_DIMENSIONS h) (Store wy wx w new) ∧
    knows_le (MiroHandler._world_map h) m' ∧
    ∀ x' y', 0 ≤ x' → 0 ≤ y' →
             getitem2 m' y' x' =
             if decide (x' = wx ∧ y' = wy) then Ok new
             else getitem2 (MiroHandler._world_map h) y' x'.
Proof.
  intros [Henc Hface Hsect Hwalls Hcells Hstart Hknown] Hw Hne Horacle wx wy new.
  destruct Henc as (Hn3 & Hn & Hsq & Hring & Hp).
  destruct (interior_wall_in_range _ _ d Hp) as [Hwx Hwy]. fold wx in Hwx. fold wy in Hwy.
  destruct Hp as (Hox & Hoy & Hpx & Hpy).
  pose proof (wall_slot_parity _ _ d Hox Hoy) as Hmixed. fold wx wy in Hmixed.
  destruct (store_run _ h wy wx new Hsq Hwx Hwy) as (old & m' & Hold & Hrun & Hsq' & Hget).
  fold wx wy in Hw. rewrite Hw in Hold. injection Hold as <-.
  assert (Hmono : w = PyNone ∨ new = w).
  { destruct (Hwalls wx wy w Hwx Hwy Hmixed Hw) as [-> | [[-> _] | (b' & Hb' & ->)]];
      [by left | done |].
    right. fold wx wy in Horacle. rewrite Horacle in Hb'. by injection Hb' as <-. }
  assert (Hnew : new ≠ PyNone) by (unfold new; by destruct b).
  exists m'. split; [done|]. split; [|split; [|split; [|done]]].
  - split; unfold enclosed;
      rewrite ?with_map_dims, ?with_map_map, ?with_map_position, ?with_map_direction.
    + split; [done|]. split; [done|]. split; [done|]. split; [|done].
      apply Forall_forall. intros i Hi%elem_of_seqZ Hodd.
      destruct (wall_ring_lookup _ _ i Hring) as (R1 & R2 & R3 & R4); [lia | done |].
      rewrite !Hget by lia.
      rewrite !decide_False;
        [done | intros [E1 E2]; rewrite <-E1, <-E2 in Hw; congruence..].
    + done.
    + intros x y Hx Hy Hex Hey. rewrite Hget by lia.
      rewrite decide_False; [by apply Hsect|].
      intros [-> ->]. apply mixed_parity in Hmixed as [[H1 H2] | [H1 H2]].
      * rewrite (odd_not_even _ H1) in Hex. done.
      * rewrite (odd_not_even _ H2) in Hey. done.
    + intros x y v Hx Hy Hxy. rewrite Hget by lia. case_decide as Heq.
      * destruct Heq as [-> ->]. intros [= <-]. right. right. exists b. by fold wx wy in Horacle.
      * by apply Hwalls.
    + intros x y v Hx Hy Hox' Hoy'. rewrite Hget by lia. rewrite decide_False.
      * by apply Hcells.
      * intros [-> ->]. rewrite Hox', Hoy' in Hmixed. done.
    + done.
    + destruct Hknown as [Hhere | Hknown]; [by left | right].
      intros e. destruct (Hknown e) as (v & Hv & Hvne).
      destruct Hstart as (_ & _ & Hsx & Hsy). simpl in Hsx, Hsy.
      rewrite Hget by (destruct (dx_dy_cases e); lia).
      case_decide; [by exists new | by exists v].
  - simpl. split; [done|]. split; [done|]. split; [|done].
    by apply wall_slot_not_intersection.
  - by apply (knows_le_store _ _ wx wy new w).
Qed.

(** Recording the cell toward [d] beyond a wall segment recorded NoWall,
    with the answer of the environment; the slot is Unknown, or it is not
    the start cell. *)
Lemma Inv_store_cell h d c b :
  Inv miro_simulation sx sy h →
  getitem2 (MiroHandler._world_map h)
    (Position.y (MiroHandler.position h) + dy d)
    (Position.x (MiroHandler.position h) + dx d) = Ok MiroHandler._NO_WALL →
  getitem2 (MiroHandler._world_map h)
    (Position.y (MiroHandler.position h) + 2 * dy d)
    (Position.x (MiroHandler.position h) + 2 * dx d) = Ok c →
  c = PyNone ∨ ¬ (Position.x (MiroHandler.position h) + 2 * dx d = sx ∧
                  Position.y (MiroHandler.position h) + 2 * dy d = sy) →
  oracle_pit miro_simulation
    (Position.x (MiroHandler.position h) + 2 * dx d)
    (Position.y (MiroHandler.position h) + 2 * dy d) = Ok b →
  let cx := Position.x (MiroHandler.position h) + 2 * dx d in
  let cy := Position.y (MiroHandler.position h) + 2 * dy d in
  let new := if b then MiroHandler._PIT else MiroHandler._CELL in
  ∃ m',
    MiroHandler.store cy cx new h = (Ok (), with_map h m', [Store cy cx c new]) ∧
    Inv miro_simulation sx sy (with_map h m') ∧
    monotone_store (MiroHandler._MAP_DIMENSIONS h) (Store cy cx c new) ∧
    knows_le (MiroHandler._world_map h) m' ∧
    ∀ x' y', 0 ≤ x' → 0 ≤ y' →
             getitem2 m' y' x' =
             if decide (x' = cx ∧ y' = cy) then Ok new
             else getitem2 (MiroHandler._world_map h) y' x'.
Proof.
  intros [Henc Hface Hsect Hwalls Hcells Hstart Hknown] Hw Hc Hfresh Horacle cx cy new.
  destruct Henc as (Hn3 & Hn & Hsq & Hring & Hp).
  pose proof (interior_cell_toward _ _ _ d _ Hn Hring Hp Hw ltac:(done)) as Hcell.
  rewrite cell_toward_eq in Hcell. destruct Hcell as (Hocx & Hocy & Hcx & Hcy).
  simpl in Hocx, Hocy, Hcx, Hcy. fold cx in Hocx, Hcx. fold cy in Hocy, Hcy.
  destruct (store_run _ h cy cx new Hsq) as (old & m' & Hold & Hrun & Hsq' & Hget);
    [lia..|].
  fold cx cy in Hc. rewrite Hc in Hold. injection Hold as <-.
  assert (Hmono : c = PyNone ∨ new = c).
  { destruct (Hcells cx cy c) as [-> | [(E1 & E2 & _) | (b' & Hb' & ->)]];
      [lia | lia | done | done | done | by left | |].
    - destruct Hfresh as [-> | Hfresh]; [by left|]. by destruct Hfresh.
    - right. fold cx cy in Horacle. rewrite Horacle in Hb'. by injection Hb' as <-. }
  assert (Hnew : new ≠ PyNone) by (unfold new; by destruct b).
  exists m'. split; [done|]. split; [|split; [|split; [|done]]].
  - split; unfold enclosed;
      rewrite ?with_map_dims, ?with_map_map, ?with_map_position, ?with_map_direction.
    + split; [done|]. split; [done|]. split; [done|]. split; [|done].
      apply Forall_forall. intros i Hi%elem_of_seqZ Hodd.
      destruct (wall_ring_lookup _ _ i Hring) as (R1 & R2 & R3 & R4); [lia | done |].
      rewrite !Hget by lia.
      rewrite !decide_False; [done|lia..].
    + done.
    + intros x y Hx Hy Hex Hey. rewrite Hget by lia.
      rewrite decide_False; [by apply Hsect|].
      intros [-> ->]. rewrite (odd_not_even _ Hocx) in Hex. done.
    + intros x y v Hx Hy Hxy. rewrite Hget by lia. rewrite decide_False.
      * by apply Hwalls.
      * intros [-> ->]. rewrite Hocx, Hocy in Hxy. done.
    + intros x y v Hx Hy Hox' Hoy'. rewrite Hget by lia. case_decide as Heq.
      * destruct Heq as [-> ->]. intros [= <-]. right. right. exists b. by fold cx cy in Horacle.
      * by apply Hcells.
    + done.
    + destruct Hknown as [Hhere | Hknown]; [by left | right].
      intros e. destruct (Hknown e) as (v & Hv & Hvne).
      destruct Hstart as (_ & _ & Hsx & Hsy). simpl in Hsx, Hsy.
      rewrite Hget by (destruct (dx_dy_cases e); lia).
      case_decide; [by exists new | by exists v].
  - simpl. split; [lia|]. split; [lia|]. split; [|done].
    intros [E _]. rewrite (odd_not_even _ Hocx) in E. done.
  - by apply (knows_le_store _ _ cx cy new c).
Qed.

End Stores.

(** ** Rules for outcomes *)

Lemma evolves_refl h :
  square (MiroHandler._MAP_DIMENSIONS h) (MiroHandler._world_map h) →
  intersections (MiroHandler._MAP_DIMENSIONS h) (MiroHandler._world_map h) →
  evolves h h.
Proof. intros. split; [done|]. split; [done|]. split; [done|]. apply knows_le_refl. Qed.

Lemma evolves_trans h1 h2 h3 : evolves h1 h2 → evolves h2 h3 → evolves h1 h3.
Proof.
  intros (D12 & S12 & I12 & K12) (D23 & S23 & I23 & K23). rewrite D12 in *.
  split; [congruence|]. split; [done|]. split; [done|]. by eapply knows_le_trans.
Qed.

Lemma Inv_evolves_refl miro_simulation sx sy h : Inv miro_simulation sx sy h → evolves h h.
Proof.
  intros [(_ & _ & Hsq & _) _ Hsect _ _ _ _]. by apply evolves_refl.
Qed.

Lemma outcome_bind {A B : Type} (m : MiroHandler.M A) (k : A → MiroHandler.M B)
    (Q : result B → MiroHandler.t → Prop) h a h1 acts1 :
  m h = (Ok a, h1, acts1) →
  Forall (monotone_store (MiroHandler._MAP_DIMENSIONS h)) acts1 →
  evolves h h1 →
  outcome_ok h1 Q (k a h1) →
  outcome_ok h Q ((m ≫= k) h).
Proof.
  intros Hm Hacts Hev (Hacts2 & Hev2 & HQ). rewrite (bind_run m k h a h1 acts1 Hm).
  destruct Hev as (Hd & ?). rewrite Hd in Hacts2.
  split; [by apply Forall_app|]. split; [|done].
  eapply evolves_trans; [|done]. by split.
Qed.

Lemma outcome_raise {A B : Type} (m : MiroHandler.M A) (k : A → MiroHandler.M B)
    (Q : result B → MiroHandler.t → Prop) h e h1 acts1 :
  m h = (Raise e, h1, acts1) →
  Forall (monotone_store (MiroHandler._MAP_DIMENSIONS h)) acts1 →
  evolves h h1 →
  Q (Raise e) h1 →
  outcome_ok h Q ((m ≫= k) h).
Proof. intros Hm Hacts Hev HQ. by rewrite (bind_raise m k h e h1 acts1 Hm). Qed.

Lemma outcome_read {A B : Type} (f : MiroHandler.t → result A) (k : A → MiroHandler.M B)
    (Q : result B → MiroHandler.t → Prop) h :
  evolves h h →
  (∀ a, f h = Ok a → outcome_ok h Q (k a h)) →
  (∀ e, f h = Raise e → Q (Raise e) h) →
  outcome_ok h Q ((MiroHandler.read f ≫= k) h).
Proof.
  intros Hev Hok Hraise. rewrite bind_read. destruct (f h) as [a|e]; [by apply Hok|].
  split; [done|]. split; [done|]. by apply Hraise.
Qed.

Lemma outcome_ret {A : Type} (a : A) (Q : result A → MiroHandler.t → Prop) h :
  evolves h h → Q (Ok a) h → outcome_ok h Q ((mret a : MiroHandler.M A) h).
Proof. intros Hev HQ. by split. Qed.

Lemma facing_evolves h d : evolves h h → evolves h (facing h d).
Proof. done. Qed.

Lemma Inv_facing miro_simulation sx sy h d :
  Inv miro_simulation sx sy h → Inv miro_simulation sx sy (facing h d).
Proof. intros [? ? ? ? ? ? ?]. split; done. Qed.

Lemma turns_monotone n (f target : Direction) :
  Forall (monotone_store n)
    (if decide (target = f) then []
     else if decide (target = rotateLeft f) then [TurnLeft]
     else if decide (target = rotateRight f) then [TurnRight]
     else [TurnLeft; TurnLeft]).
Proof. repeat case_decide; repeat constructor. Qed.

(** ** What it is to be recorded *)

Lemma not_recorded h d :
  MiroHandler.direction_recorded h d = Ok false →
  ∃ w,
    getitem2 (MiroHandler._world_map h)
      (Position.y (MiroHandler.position h) + dy d)
      (Position.x (MiroHandler.position h) + dx d) = Ok w ∧
    w ≠ MiroHandler._WALL ∧
    (w = PyNone ∨
     (w = PyInt 0 ∧
      getitem2 (MiroHandler._world_map h)
        (Position.y (MiroHandler.position h) + 2 * dy d)
        (Position.x (MiroHandler.position h) + 2 * dx d) = Ok PyNone)).
Proof.
  rewrite direction_recorded_unfold.
  destruct (getitem2 (MiroHandler._world_map h)
              (Position.y (MiroHandler.position h) + dy d)
              (Position.x (MiroHandler.position h) + dx d)) as [w|] eqn:Hw;
    simpl; [|done].
  destruct (Py.eqb w (PyInt 0)) eqn:Hw0; simpl.
  - apply bool_decide_eq_true in Hw0. subst w.
    destruct (getitem2 (MiroHandler._world_map h)
                (Position.y (MiroHandler.position h) + 2 * dy d)
                (Position.x (MiroHandler.position h) + 2 * dx d)) as [c|];
      simpl; [|done].
    destruct (Py.eqb c PyNone) eqn:Hc; simpl; [|done].
    apply bool_decide_eq_true in Hc. subst c. intros _.
    exists (PyInt 0). split; [done|]. split; [done|]. by right.
  - destruct (Py.eqb w PyNone) eqn:HwN; simpl; [|done].
    apply bool_decide_eq_true in HwN. subst w. intros _.
    exists PyNone. split; [done|]. split; [done|]. by left.
Qed.

Lemma recorded_wall h d :
  getitem2 (MiroHandler._world_map h)
    (Position.y (MiroHandler.position h) + dy d)
    (Position.x (MiroHandler.position h) + dx d) = Ok MiroHandler._WALL →
  MiroHandler.direction_recorded h d = Ok true.
Proof. intros Hw. by rewrite direction_recorded_unfold, Hw. Qed.

Lemma recorded_cell h d c :
  getitem2 (MiroHandler._world_map h)
    (Position.y (MiroHandler.position h) + dy d)
    (Position.x (MiroHandler.position h) + dx d) = Ok MiroHandler._NO_WALL →
  getitem2 (MiroHandler._world_map h)
    (Position.y (MiroHandler.position h) + 2 * dy d)
    (Position.x (MiroHandler.position h) + 2 * dx d) = Ok c →
  c ≠ PyNone →
  MiroHandler.direction_recorded h d = Ok true.
Proof.
  intros Hw Hc Hne. rewrite direction_recorded_unfold, Hw. simpl. rewrite Hc. simpl.
  unfold Py.eqb. by rewrite bool_decide_false.
Qed.

(** A recorded direction has a known wall segment, and a known cell
    behind a segment recorded NoWall. *)
Lemma recorded_known h d :
  MiroHandler.direction_recorded h d = Ok true →
  ∃ w,
    getitem2 (MiroHandler._world_map h)
      (Position.y (MiroHandler.position h) + dy d)
      (Position.x (MiroHandler.position h) + dx d) = Ok w ∧
    w ≠ PyNone ∧
    (w = PyInt 0 →
     ∃ c, getitem2 (MiroHandler._world_map h)
            (Position.y (MiroHandler.position h) + 2 * dy d)
            (Position.x (MiroHandler.position h) + 2 * dx d) = Ok c ∧
          c ≠ PyNone).
Proof.
  rewrite direction_recorded_unfold.
  destruct (getitem2 (MiroHandler._world_map h)
              (Position.y (MiroHandler.position h) + dy d)
              (Position.x (MiroHandler.position h) + dx d)) as [w|] eqn:Hw;
    simpl; [|done].
  destruct (Py.eqb w (PyInt 0)) eqn:Hw0; simpl.
  - apply bool_decide_eq_true in Hw0. subst w.
    destruct (getitem2 (MiroHandler._world_map h)
                (Position.y (MiroHandler.position h) + 2 * dy d)
                (Position.x (MiroHandler.position h) + 2 * dx d)) as [c|];
      simpl; [|done].
    destruct (Py.eqb c PyNone) eqn:Hc; simpl; [done|].
    apply bool_decide_eq_false in Hc. intros _.
    exists (PyInt 0). split; [done|]. split; [done|]. intros _. by exists c.
  - destruct (Py.eqb w PyNone) eqn:HwN; simpl; [done|].
    apply bool_decide_eq_false in HwN. apply bool_decide_eq_false in Hw0. intros _.
    exists w. split; [done|]. split; [done|]. by intros ->.
Qed.

Lemma dx_opposite d : dx (opposite d) = - dx d.
Proof. by destruct d. Qed.

Lemma dy_opposite d : dy (opposite d) = - dy d.
Proof. by destruct d. Qed.

(** ** One direction of the scan *)

Section Scan.

Context (miro_simulation : MiroSimulation.t) (sx sy : Z).

Lemma record_wall_infront_run h d (b : bool) m' old :
  MiroHandler.direction h = Some d →
  MiroHandler.store (Position.y (MiroHandler.position h) + dy d)
    (Position.x (MiroHandler.position h) + dx d)
    (if b then MiroHandler._WALL else MiroHandler._NO_WALL) h =
    (Ok (), with_map h m',
     [Store (Position.y (MiroHandler.position h) + dy d)
        (Position.x (MiroHandler.position h) + dx d) old
        (if b then MiroHandler._WALL else MiroHandler._NO_WALL)]) →
  MiroHandler.record_wall_infront b h =
  (Ok b, with_map h m',
   [Store (Position.y (MiroHandler.position h) + dy d)
      (Position.x (MiroHandler.position h) + dx d) old
      (if b then MiroHandler._WALL else MiroHandler._NO_WALL)]).
Proof.
  intros Hd Hstore. rewrite (record_wall_infront_eq h d b Hd).
  rewrite (bind_run _ _ _ _ _ _ Hstore). by rewrite ret_run.
Qed.

Lemma record_pit_infront_run h d (b : bool) m' old :
  MiroHandler.direction h = Some d →
  MiroHandler.store (Position.y (MiroHandler.position h) + 2 * dy d)
    (Position.x (MiroHandler.position h) + 2 * dx d)
    (if b then MiroHandler._PIT else MiroHandler._CELL) h =
    (Ok (), with_map h m',
     [Store (Position.y (MiroHandler.position h) + 2 * dy d)
        (Position.x (MiroHandler.position h) + 2 * dx d) old
        (if b then MiroHandler._PIT else MiroHandler._CELL)]) →
  MiroHandler.record_pit_infront b h =
  (Ok b, with_map h m',
   [Store (Position.y (MiroHandler.position h) + 2 * dy d)
      (Position.x (MiroHandler.position h) + 2 * dx d) old
      (if b then MiroHandler._PIT else MiroHandler._CELL)]).
Proof.
  intros Hd Hstore. rewrite (record_pit_infront_eq h d b Hd).
  rewrite (bind_run _ _ _ _ _ _ Hstore). by rewrite ret_run.
Qed.

Lemma Inv_with_map_evolves h m' :
  Inv miro_simulation sx sy (with_map h m') →
  knows_le (MiroHandler._world_map h) m' →
  evolves h (with_map h m').
Proof.
  intros [(_ & _ & Hsq & _) _ Hsect _ _ _ _] Hle.
  rewrite with_map_dims, with_map_map in *. by split.
Qed.

(** The cell toward [d] is not the start cell unless it is still Unknown:
    once away from the start cell its walls are all recorded, so the
    direction back to it is not scanned again. *)
Lemma unrecorded_cell_fresh h d w c :
  Inv miro_simulation sx sy h →
  getitem2 (MiroHandler._world_map h)
    (Position.y (MiroHandler.position h) + dy d)
    (Position.x (MiroHandler.position h) + dx d) = Ok w →
  (w = PyNone ∨
   (w = PyInt 0 ∧
    getitem2 (MiroHandler._world_map h)
      (Position.y (MiroHandler.position h) + 2 * dy d)
      (Position.x (MiroHandler.position h) + 2 * dx d) = Ok PyNone)) →
  getitem2 (MiroHandler._world_map h)
    (Position.y (MiroHandler.position h) + 2 * dy d)
    (Position.x (MiroHandler.position h) + 2 * dx d) = Ok c →
  c = PyNone ∨ ¬ (Position.x (MiroHandler.position h) + 2 * dx d = sx ∧
                  Position.y (MiroHandler.position h) + 2 * dy d = sy).
Proof.
  intros HInv Hw Hun Hc.
  destruct Hun as [-> | [-> Hcell]]; [|left; congruence].
  right. intros [Ex Ey].
  destruct (inv_start_walls _ _ _ _ HInv) as [[Hx Hy] | Hknown].
  - destruct (dx_dy_cases d); lia.
  - destruct (Hknown (opposite d)) as (v & Hv & Hne).
    rewrite dx_opposite, dy_opposite in Hv.
    replace (sy + - dy d) with (Position.y (MiroHandler.position h) + dy d) in Hv by lia.
    replace (sx + - dx d) with (Position.x (MiroHandler.position h) + dx d) in Hv by lia.
    congruence.
Qed.

Lemma scan_direction_body_ok h d :
  Inv miro_simulation sx sy h →
  outcome_ok h
    (λ r h', r = Ok false →
             Inv miro_simulation sx sy h' ∧ same_cell h h' ∧
             MiroHandler.direction_recorded h' d = Ok true)
    (scan_direction_body miro_simulation d h).
Proof.
  intros HInv. pose proof (Inv_evolves_refl _ _ _ _ HInv) as Hev.
  destruct (inv_facing _ _ _ _ HInv) as [f Hf].
  unfold scan_direction_body.
  apply outcome_read; [done| |by intros e _ [=]].
  intros [|] Hrec; cbn [negb].
  { apply outcome_ret; [done|]. intros _. split; [done|]. split; [by split|]. done. }
  destruct (not_recorded h d Hrec) as (w & Hw & Hne & Hun).
  eapply outcome_bind;
    [apply (turn_to_face_run h f d Hf) | apply turns_monotone | by apply facing_evolves |].
  pose proof (Inv_facing _ _ _ _ d HInv) as HInv1.
  set (h1 := facing h d) in *.
  assert (Hev1 : evolves h1 h1) by by eapply Inv_evolves_refl.
  apply outcome_read; [done| |by intros e _ [=]].
  intros wall Hwall.
  rewrite (check_wall_infront_eq _ _ d) in Hwall by done.
  destruct (Inv_store_wall _ _ _ h1 d w wall HInv1 Hw Hne Hwall)
    as (m' & Hstore & HInv2 & Hmono & Hle & Hget).
  pose proof (record_wall_infront_run h1 d wall m' w eq_refl Hstore) as Hrecord.
  pose proof (Inv_with_map_evolves h1 m' HInv2 Hle) as Hev12.
  eapply outcome_bind; [exact Hrecord | by apply Forall_singleton | exact Hev12 |].
  set (h2 := with_map h1 m') in *.
  assert (Hev2 : evolves h2 h2) by by eapply Inv_evolves_refl.
  destruct (inv_enclosed _ _ _ _ HInv1) as (_ & Hn & Hsq & Hring & Hp).
  destruct (interior_wall_in_range _ _ d Hp) as [Hwx Hwy].
  assert (Hwall2 : getitem2 (MiroHandler._world_map h2)
            (Position.y (MiroHandler.position h2) + dy d)
            (Position.x (MiroHandler.position h2) + dx d)
          = Ok (if wall then MiroHandler._WALL else MiroHandler._NO_WALL)).
  { unfold h2. rewrite with_map_map, with_map_position. rewrite Hget by lia.
    by rewrite decide_True. }
  destruct wall; cbn [negb].
  { apply outcome_ret; [done|]. intros _. split; [done|]. split; [done|].
    by apply recorded_wall. }
  apply outcome_read; [done| |by intros e _ [=]].
  intros [|] Htreasure.
  { eapply outcome_bind; [apply move_forward_run | by apply Forall_singleton | done |].
    apply outcome_ret; [|by intros [=]]. done. }
  apply outcome_read; [done| |by intros e _ [=]].
  intros pit Hpit.
  rewrite (check_pit_infront_eq _ _ d) in Hpit by done.
  destruct (inv_enclosed _ _ _ _ HInv2) as (_ & Hn2 & Hsq2 & Hring2 & Hp2).
  pose proof (interior_cell_toward _ _ _ d _ Hn2 Hring2 Hp2 Hwall2 ltac:(done)) as Hcell.
  destruct (interior_cell_read _ _ _ Hsq2 Hcell) as [c Hc].
  rewrite cell_toward_eq in Hc. cbn [Position.x Position.y] in Hc.
  assert (Hc1 : getitem2 (MiroHandler._world_map h1)
            (Position.y (MiroHandler.position h1) + 2 * dy d)
            (Position.x (MiroHandler.position h1) + 2 * dx d) = Ok c).
  { rewrite <-Hc. unfold h2. rewrite with_map_map, with_map_position.
    rewrite cell_toward_eq in Hcell. destruct Hcell as (_ & _ & Hcx & Hcy).
    cbn [Position.x Position.y] in Hcx, Hcy.
    unfold h2 in Hcx, Hcy. rewrite with_map_position, with_map_dims in Hcx, Hcy.
    rewrite Hget by lia. rewrite decide_False; [done|].
    destruct (dx_dy_cases d); lia. }
  pose proof (unrecorded_cell_fresh h1 d w c HInv1 Hw Hun Hc1) as Hfresh.
  destruct (Inv_store_cell _ _ _ h2 d c pit HInv2 Hwall2 Hc Hfresh Hpit)
    as (m'' & Hstore2 & HInv3 & Hmono2 & Hle2 & Hget2).
  pose proof (record_pit_infront_run h2 d pit m'' c eq_refl Hstore2) as Hrecord2.
  pose proof (Inv_with_map_evolves h2 m'' HInv3 Hle2) as Hev23.
  eapply outcome_bind; [exact Hrecord2 | by apply Forall_singleton | exact Hev23 |].
  apply outcome_ret; [by eapply Inv_evolves_refl|].
  intros _. split; [done|]. split; [done|].
  destruct (inv_enclosed _ _ _ _ HInv2) as (_ & _ & _ & _ & Hp2').
  destruct (interior_wall_in_range _ _ d Hp2') as [Hwx2 Hwy2].
  rewrite cell_toward_eq in Hcell. destruct Hcell as (_ & _ & Hcx & Hcy).
  cbn [Position.x Position.y] in Hcx, Hcy.
  apply (recorded_cell _ d (if pit then MiroHandler._PIT else MiroHandler._CELL)).
  - rewrite with_map_map, with_map_position. rewrite Hget2 by lia.
    rewrite decide_False; [done|]. destruct (dx_dy_cases d); lia.
  - rewrite with_map_map, with_map_position. rewrite Hget2 by lia.
    by rewrite decide_True.
  - by destruct pit.
Qed.

End Scan.

(** ** The scan phase, the move phase and the loop *)

Section Loop.

Context (miro_simulation : MiroSimulation.t) (sx sy : Z).

Lemma evolves_refl_r h h' : evolves h h' → evolves h' h'.
Proof. intros (Hd & Hsq & Hsect & _). rewrite <-Hd in Hsq, Hsect. by apply evolves_refl. Qed.

Lemma outcome_strengthen {A : Type} (Q Q' : result A → MiroHandler.t → Prop) h out :
  (∀ r h', evolves h h' → Q r h' → Q' r h') → outcome_ok h Q out → outcome_ok h Q' out.
Proof. intros HQ (? & ? & ?). split; [done|]. split; [done|]. by apply HQ. Qed.

Lemma outcome_of_run {A : Type} (m : MiroHandler.M A) (Q : result A → MiroHandler.t → Prop)
    h r h' acts :
  outcome_ok h Q (m h) → m h = (r, h', acts) →
  Forall (monotone_store (MiroHandler._MAP_DIMENSIONS h)) acts ∧ evolves h h' ∧ Q r h'.
Proof. intros Hok Hrun. by rewrite Hrun in Hok. Qed.

Lemma scan_loop_ok directions h :
  Inv miro_simulation sx sy h →
  outcome_ok h
    (λ r h', r = Ok false →
             Inv miro_simulation sx sy h' ∧ same_cell h h' ∧
             ∀ d, d ∈ directions → MiroHandler.direction_recorded h' d = Ok true)
    (scan_loop miro_simulation directions h).
Proof.
  revert h. induction directions as [|d directions IH]; intros h HInv; simpl.
  { apply outcome_ret; [by eapply Inv_evolves_refl|]. intros _.
    split; [done|]. split; [by split|]. by intros d ?%elem_of_nil. }
  destruct (scan_direction_body miro_simulation d h) as [[r h1] acts1] eqn:Hbody.
  destruct (outcome_of_run _ _ _ _ _ _ (scan_direction_body_ok _ _ _ h d HInv) Hbody)
    as (Hacts & Hev & HQ).
  destruct r as [[|]|e].
  - eapply outcome_bind; [exact Hbody | done | done |].
    apply outcome_ret; [by eapply evolves_refl_r | by intros [=]].
  - destruct (HQ eq_refl) as (HInv1 & [Hx Hy] & Hrec).
    eapply outcome_bind; [exact Hbody | done | done |].
    eapply outcome_strengthen; [|by apply IH].
    intros r h' Hev' HQ' Hr. destruct (HQ' Hr) as (HInv' & [Hx' Hy'] & Hrec').
    split; [done|]. split; [split; congruence|].
    intros d' [-> | Hin]%elem_of_cons; [|by apply Hrec'].
    apply (direction_recorded_mono h1 h'); [by destruct HInv1 | done | done | | done].
    by destruct Hev' as (_ & _ & _ & Hle).
  - eapply outcome_raise; [exact Hbody | done | done | by intros [=]].
Qed.

Lemma scanning_priority_all f d :
  d ∈ [f; rotateLeft f; rotateLeft (rotateLeft f); rotateRight f].
Proof. rewrite !elem_of_cons. destruct f, d; simpl; tauto. Qed.

Lemma scan_phase_ok h :
  Inv miro_simulation sx sy h →
  outcome_ok h
    (λ r h', r = Ok false →
             Inv miro_simulation sx sy h' ∧ same_cell h h' ∧
             ∀ d, MiroHandler.direction_recorded h' d = Ok true)
    (scan_phase miro_simulation h).
Proof.
  intros HInv. destruct (inv_facing _ _ _ _ HInv) as [f Hf].
  unfold scan_phase.
  apply outcome_read; [by eapply Inv_evolves_refl| |by intros e _ [=]].
  intros directions Hdirs. rewrite (scanning_priority h f Hf) in Hdirs.
  injection Hdirs as <-.
  eapply outcome_strengthen; [|by apply scan_loop_ok].
  intros r h' _ HQ Hr. destruct (HQ Hr) as (HInv' & Hcell & Hrec).
  split; [done|]. split; [done|]. intros d. apply Hrec, scanning_priority_all.
Qed.

Lemma Inv_moved h d :
  Inv miro_simulation sx sy h →
  (∀ e, MiroHandler.direction_recorded h e = Ok true) →
  MiroHandler.check_valid_path h d = Ok true →
  Inv miro_simulation sx sy
    (moved_to h (Position.x (MiroHandler.position h) + 2 * dx d)
       (Position.y (MiroHandler.position h) + 2 * dy d)).
Proof.
  intros [Henc Hface Hsect Hwalls Hcells Hstart Hknown] Hrec Hvalid.
  destruct Henc as (Hn3 & Hn & Hsq & Hring & Hp).
  apply check_valid_path_true in Hvalid as (wall & cell & Hwall & Htruthy & _).
  rewrite get_wall_eq in Hwall.
  assert (wall ≠ MiroHandler._WALL) as Hne by (intros ->; done).
  pose proof (interior_cell_toward _ _ _ d _ Hn Hring Hp Hwall Hne) as Hcell.
  rewrite cell_toward_eq in Hcell.
  split; try done.
  right. intros e.
  destruct Hknown as [[Hx Hy] | Hknown]; [|done].
  destruct (recorded_known h e (Hrec e)) as (w & Hw & HwN & _).
  exists w. by rewrite <-Hx, <-Hy.
Qed.

Lemma move_phase_ok h :
  Inv miro_simulation sx sy h →
  (∀ d, MiroHandler.direction_recorded h d = Ok true) →
  outcome_ok h (λ r h', r = Ok () → Inv miro_simulation sx sy h') (move_phase h).
Proof.
  intros HInv Hrec. pose proof (Inv_evolves_refl _ _ _ _ HInv) as Hev.
  destruct (inv_facing _ _ _ _ HInv) as [f Hf].
  unfold move_phase.
  apply outcome_read; [done| |by intros e _ [=]].
  intros target Htarget. apply find_best_direction_valid in Htarget.
  eapply outcome_bind;
    [apply (turn_to_face_run h f target Hf) | apply turns_monotone | by apply facing_evolves |].
  rewrite move_forward_run.
  assert (evolves (facing h target) (facing h target)) as Hev1
    by (eapply Inv_evolves_refl; by apply Inv_facing).
  split; [by apply Forall_singleton|]. split; [exact Hev1|]. intros _.
  cbn [fst snd].
  rewrite (handle_direction_own _ cells target) by done.
  rewrite handle_direction_Some.
  replace (Offset.x _) with (2 * dx target) by by destruct target.
  replace (Offset.y _) with (2 * dy target) by by destruct target.
  apply (Inv_moved (facing h target) target).
  - by apply Inv_facing.
  - intros e. by rewrite <-(Hrec e).
  - by rewrite <-Htarget.
Qed.

Lemma exploration_loop_unfold fuel h :
  exploration_loop miro_simulation (S fuel) h =
  match scan_phase miro_simulation h with
  | (Raise e, hs, acts) => (Crashed e, hs, acts)
  | (Ok true, hs, acts) => (GoalFound, hs, acts)
  | (Ok false, hs, acts) =>
      match move_phase hs with
      | (Raise e, h', acts') => (Crashed e, h', acts ++ acts')
      | (Ok _, h', acts') =>
          ((exploration_loop miro_simulation fuel h').1.1,
           (exploration_loop miro_simulation fuel h').1.2,
           acts ++ acts' ++ (exploration_loop miro_simulation fuel h').2)
      end
  end.
Proof.
  simpl. destruct (scan_phase miro_simulation h) as [[[[|]|e] hs] acts]; [done| |done].
  destruct (move_phase hs) as [[[[]|e] h'] acts']; [|done].
  by destruct (exploration_loop miro_simulation fuel h') as [[st h''] acts''].
Qed.

(** The loop keeps the invariant while it runs, and all its stores are
    monotone however it ends. *)
Lemma exploration_loop_ok fuel h :
  Inv miro_simulation sx sy h →
  Forall (monotone_store (MiroHandler._MAP_DIMENSIONS h))
    (exploration_loop miro_simulation fuel h).2 ∧
  evolves h (exploration_loop miro_simulation fuel h).1.2 ∧
  ((exploration_loop miro_simulation fuel h).1.1 = Running →
   Inv miro_simulation sx sy (exploration_loop miro_simulation fuel h).1.2).
Proof.
  revert h. induction fuel as [|fuel IH]; intros h HInv.
  { simpl. split; [done|]. split; [by eapply Inv_evolves_refl | done]. }
  rewrite exploration_loop_unfold.
  destruct (scan_phase miro_simulation h) as [[r hs] acts] eqn:Hscan.
  destruct (outcome_of_run _ _ _ _ _ _ (scan_phase_ok h HInv) Hscan) as (Hacts & Hev & HQ).
  destruct r as [[|]|e]; [done| |done].
  destruct (HQ eq_refl) as (HInvs & _ & Hrec).
  destruct (move_phase hs) as [[r' h'] acts'] eqn:Hmove.
  destruct (outcome_of_run _ _ _ _ _ _ (move_phase_ok hs HInvs Hrec) Hmove)
    as (Hacts' & Hev' & HQ').
  assert (Hdims : MiroHandler._MAP_DIMENSIONS hs = MiroHandler._MAP_DIMENSIONS h)
    by by destruct Hev.
  rewrite Hdims in Hacts'.
  destruct r' as [[]|e]; cbn [fst snd].
  - destruct (IH h' (HQ' eq_refl)) as (Hacts'' & Hev'' & HInv'').
    assert (Hdims' : MiroHandler._MAP_DIMENSIONS h' = MiroHandler._MAP_DIMENSIONS h)
      by (destruct Hev' as [-> _]; done).
    rewrite Hdims' in Hacts''.
    split; [by rewrite !Forall_app|]. split; [|done].
    eapply evolves_trans; [done|]. by eapply evolves_trans.
  - split; [by rewrite Forall_app|]. split; [|done]. by eapply evolves_trans.
Qed.

Lemma running_at_Inv h0 h :
  Inv miro_simulation sx sy h0 → running_at miro_simulation h0 h →
  Inv miro_simulation sx sy h ∧ evolves h0 h.
Proof.
  intros HInv (fuel & acts & Hrun).
  destruct (exploration_loop_ok fuel h0 HInv) as (_ & Hev & HInv').
  rewrite Hrun in Hev, HInv'. split; [by apply HInv' | done].
Qed.

End Loop.

(** ** The actions account for the map *)

Lemma replay_app acts1 acts2 m :
  replay (acts1 ++ acts2) m = m1 ← replay acts1 m; replay acts2 m1.
Proof.
  unfold replay. revert m. induction acts1 as [|a acts1 IH]; intros m; simpl; [done|].
  destruct a; simpl; try apply IH.
  destruct (setitem2 m y x new); simpl; [apply IH | done].
Qed.

Lemma traced_ret {A : Type} (a : A) : traced (mret a : MiroHandler.M A).
Proof. by intros h. Qed.

Lemma traced_read {A : Type} (f : MiroHandler.t → result A) : traced (MiroHandler.read f).
Proof. by intros h. Qed.

Lemma traced_perform a : (∀ y x old new, a ≠ Store y x old new) → traced (MiroHandler.perform a).
Proof. intros Ha h. destruct a; simpl; try done. by destruct (Ha y x old new). Qed.

Lemma traced_set_position p : traced (MiroHandler.set_position p).
Proof. by intros h. Qed.

Lemma traced_store y x v : traced (MiroHandler.store y x v).
Proof.
  intros h. unfold MiroHandler.store.
  destruct (getitem2 (MiroHandler._world_map h) y x) as [old|];
    destruct (setitem2 (MiroHandler._world_map h) y x v) as [m'|] eqn:Hset;
    cbn [fst snd]; try done.
  unfold replay. cbn [for_each]. by rewrite Hset.
Qed.

Lemma traced_bind {A B : Type} (m : MiroHandler.M A) (k : A → MiroHandler.M B) :
  traced m → (∀ a, traced (k a)) → traced (m ≫= k).
Proof.
  intros Hm Hk h. specialize (Hm h). unfold mbind, MiroHandler.M_bind.
  destruct (m h) as [[[a|e] h1] acts1]; simpl in *; [|done].
  specialize (Hk a h1). destruct (k a h1) as [[r h2] acts2]. simpl in *.
  rewrite replay_app, Hm. simpl. done.
Qed.

Lemma traced_if {A : Type} (b : bool) (m1 m2 : MiroHandler.M A) :
  traced m1 → traced m2 → traced (if b then m1 else m2).
Proof. by destruct b. Qed.

Lemma traced_if_decide {A : Type} (P : Prop) `{Decision P} (m1 m2 : MiroHandler.M A) :
  traced m1 → traced m2 → traced (if decide P then m1 else m2).
Proof. by case_decide. Qed.

(** The rules above, applied along the structure of a method. *)
Ltac traced :=
  repeat first
    [ apply traced_ret
    | apply traced_read
    | apply traced_set_position
    | apply traced_store
    | apply traced_perform; discriminate
    | apply traced_bind; [|intros ?]
    | apply traced_if
    | apply traced_if_decide ].

Lemma traced_turn_to_face d : traced (MiroHandler.turn_to_face d).
Proof. unfold MiroHandler.turn_to_face, MiroHandler.turn_left, MiroHandler.turn_right. traced. Qed.

Lemma traced_move_forward : traced MiroHandler.move_forward.
Proof. unfold MiroHandler.move_forward. traced. Qed.

Lemma traced_scan_direction_body miro_simulation d :
  traced (scan_direction_body miro_simulation d).
Proof.
  unfold scan_direction_body, MiroHandler.record_wall_infront,
    MiroHandler.record_pit_infront.
  traced; first [apply traced_turn_to_face | apply traced_move_forward].
Qed.

Lemma traced_scan_phase miro_simulation : traced (scan_phase miro_simulation).
Proof.
  unfold scan_phase. apply traced_bind; [apply traced_read|]. intros directions.
  induction directions as [|d directions IH]; simpl; [apply traced_ret|].
  apply traced_bind; [apply traced_scan_direction_body|]. intros b.
  apply traced_if; [apply traced_ret | done].
Qed.

Lemma traced_move_phase : traced move_phase.
Proof.
  unfold move_phase. traced; first [apply traced_turn_to_face | apply traced_move_forward].
Qed.

(** The map the loop leaves is the map it started from with the stores of
    its trace replayed. *)
Lemma exploration_loop_traced miro_simulation fuel h :
  replay (exploration_loop miro_simulation fuel h).2 (MiroHandler._world_map h)
  = Ok (MiroHandler._world_map (exploration_loop miro_simulation fuel h).1.2).
Proof.
  revert h. induction fuel as [|fuel IH]; intros h; [done|].
  rewrite exploration_loop_unfold.
  pose proof (traced_scan_phase miro_simulation h) as Hscan.
  destruct (scan_phase miro_simulation h) as [[[[|]|e] hs] acts]; simpl in Hscan; [done| |done].
  pose proof (traced_move_phase hs) as Hmove.
  destruct (move_phase hs) as [[[[]|e] h'] acts']; simpl in Hmove; cbn [fst snd].
  - rewrite replay_app, Hscan. simpl. rewrite replay_app, Hmove. simpl. apply IH.
  - rewrite replay_app, Hscan. simpl. done.
Qed.

(** ** The run of the program *)

Lemma running_at_start miro_simulation h0 : running_at miro_simulation h0 h0.
Proof. by exists 0%nat, []. Qed.

(** Claim C6.  For every maze side and every environment map, in every
    state at which the exploration loop stands after some iterations, the
    intersection slots hold Intersection, and however long the loop goes on
    from there: every store into the map is in range, never on an
    intersection slot, writes Wall, NoWall, Pit or Cell (never Unknown) into
    a slot that was Unknown or already held that very value; the map
    changes through these stores only; the intersection slots still hold
    Intersection; and every slot that was known keeps its value. *)
Theorem knowledge_is_monotone MAP_SIZE WORLD_MAP_STRING :
  1 ≤ MAP_SIZE →
  let n := 2 * MAP_SIZE + 1 in
  let miro_simulation := MiroSimulation.init WORLD_MAP_STRING in
  ∃ h0,
    MiroHandler.init (MAP_SIZE * 2 + 1)
      (Position.Position 1 (MAP_SIZE * 2 - 1) (Some east)) = Ok h0 ∧
    (∀ fuel, main MAP_SIZE WORLD_MAP_STRING fuel
             = Ok (exploration_loop miro_simulation fuel h0)) ∧
    ∀ h, running_at miro_simulation h0 h →
         intersections n (MiroHandler._world_map h) ∧
         ∀ fuel,
           Forall (monotone_store n) (exploration_loop miro_simulation fuel h).2 ∧
           replay (exploration_loop miro_simulation fuel h).2 (MiroHandler._world_map h)
           = Ok (MiroHandler._world_map (exploration_loop miro_simulation fuel h).1.2) ∧
           intersections n
             (MiroHandler._world_map (exploration_loop miro_simulation fuel h).1.2) ∧
           knows_le (MiroHandler._world_map h)
             (MiroHandler._world_map (exploration_loop miro_simulation fuel h).1.2).
Proof.
  intros HD n miro_simulation.
  destruct (init_Inv miro_simulation MAP_SIZE HD) as (h0 & Hinit & Hdims & HInv).
  exists h0. split; [done|]. split.
  { intros fuel. unfold main. by rewrite Hinit. }
  intros h Hrun.
  destruct (running_at_Inv _ _ _ h0 h HInv Hrun) as [HInvh (Hdimsh & _)].
  assert (MiroHandler._MAP_DIMENSIONS h = n) as Hn by (unfold n; congruence).
  split; [rewrite <-Hn; by destruct HInvh|].
  intros fuel.
  destruct (exploration_loop_ok _ _ _ fuel h HInvh) as (Hacts & (_ & _ & Hsect & Hle) & _).
  rewrite Hn in Hacts, Hsect. split; [done|]. split; [|done].
  apply exploration_loop_traced.
Qed.

Lemma knowledge_is_monotone_witness :
  ∃ h0,
    MiroHandler.init (2 * 2 + 1) (Position.Position 1 (2 * 2 - 1) (Some east)) = Ok h0 ∧
    (∀ fuel, main 2 maze_2x2_wall_north fuel
             = Ok (exploration_loop (MiroSimulation.init maze_2x2_wall_north) fuel h0)) ∧
    ∀ h, running_at (MiroSimulation.init maze_2x2_wall_north) h0 h →
         intersections (2 * 2 + 1) (MiroHandler._world_map h) ∧
         ∀ fuel,
           Forall (monotone_store (2 * 2 + 1))
             (exploration_loop (MiroSimulation.init maze_2x2_wall_north) fuel h).2 ∧
           replay (exploration_loop (MiroSimulation.init maze_2x2_wall_north) fuel h).2
             (MiroHandler._world_map h)
           = Ok (MiroHandler._world_map
                   (exploration_loop (MiroSimulation.init maze_2x2_wall_north) fuel h).1.2) ∧
           intersections (2 * 2 + 1)
             (MiroHandler._world_map
                (exploration_loop (MiroSimulation.init maze_2x2_wall_north) fuel h).1.2) ∧
           knows_le (MiroHandler._world_map h)
             (MiroHandler._world_map
                (exploration_loop (MiroSimulation.init maze_2x2_wall_north) fuel h).1.2).
Proof.
  apply (knowledge_is_monotone 2 maze_2x2_wall_north). lia.
Defined.

(** Claim C7.  For every maze side and every environment map, at every
    state [h] at which the loop stands after some iterations, the scan
    phase ends in one of three ways.  It returns with the goal not reached:
    then the robot is on the same cell, [direction_recorded] is true for all
    four directions there, and only then does the loop run the move phase,
    from that state.  Or the goal was found during the scan: then the loop
    ends with GoalFound and the move phase is not run.  Or the scan raised,
    and the program ends with that error. *)
Theorem scan_completes_before_move MAP_SIZE WORLD_MAP_STRING :
  1 ≤ MAP_SIZE →
  let miro_simulation := MiroSimulation.init WORLD_MAP_STRING in
  ∃ h0,
    MiroHandler.init (MAP_SIZE * 2 + 1)
      (Position.Position 1 (MAP_SIZE * 2 - 1) (Some east)) = Ok h0 ∧
    ∀ h r hs acts,
      running_at miro_simulation h0 h →
      scan_phase miro_simulation h = (r, hs, acts) →
      match r with
      | Ok false =>
          same_cell h hs ∧
          (∀ d, MiroHandler.direction_recorded hs d = Ok true) ∧
          ∀ fuel,
            exploration_loop miro_simulation (S fuel) h =
            match move_phase hs with
            | (Raise e, h', acts') => (Crashed e, h', acts ++ acts')
            | (Ok _, h', acts') =>
                ((exploration_loop miro_simulation fuel h').1.1,
                 (exploration_loop miro_simulation fuel h').1.2,
                 acts ++ acts' ++ (exploration_loop miro_simulation fuel h').2)
            end
      | Ok true =>
          ∀ fuel, exploration_loop miro_simulation (S fuel) h = (GoalFound, hs, acts)
      | Raise e =>
          ∀ fuel, exploration_loop miro_simulation (S fuel) h = (Crashed e, hs, acts)
      end.
Proof.
  intros HD miro_simulation.
  destruct (init_Inv miro_simulation MAP_SIZE HD) as (h0 & Hinit & Hdims & HInv).
  exists h0. split; [done|].
  intros h r hs acts Hrun Hscan.
  destruct (running_at_Inv _ _ _ h0 h HInv Hrun) as [HInvh _].
  destruct (outcome_of_run _ _ _ _ _ _ (scan_phase_ok _ _ _ h HInvh) Hscan) as (_ & _ & HQ).
  destruct r as [[|]|e].
  - intros fuel. by rewrite exploration_loop_unfold, Hscan.
  - destruct (HQ eq_refl) as (_ & Hcell & Hrec).
    split; [done|]. split; [done|].
    intros fuel. by rewrite exploration_loop_unfold, Hscan.
  - intros fuel. by rewrite exploration_loop_unfold, Hscan.
Qed.

Lemma scan_completes_before_move_witness :
  ∃ h0,
    MiroHandler.init (2 * 2 + 1) (Position.Position 1 (2 * 2 - 1) (Some east)) = Ok h0 ∧
    ∀ d, MiroHandler.direction_recorded
           (scan_phase (MiroSimulation.init maze_2x2_wall_north) h0).1.2 d = Ok true.
Proof.
  destruct (scan_completes_before_move 2 maze_2x2_wall_north ltac:(lia))
    as (h0 & Hinit & Hscan).
  exists h0. split; [exact Hinit|].
  injection Hinit as <-.
  exact (proj1 (proj2 (Hscan _ _ _ _ (running_at_start _ _) eq_refl))).
Defined.

(** ** The 1×1 maze *)

(** Claim C4, as the code has it.  On a 1×1 maze the handler is built with
    the four walls of the ring around the only cell, so every direction is
    already recorded: whatever the environment map holds, the first scan
    phase asks the environment nothing and does not reach the goal, and the
    decide phase finds no open direction and raises.  The program ends
    with that error, the robot not having turned or moved and the map
    unchanged. *)
Theorem one_cell_maze_is_stuck WORLD_MAP_STRING fuel :
  scan_phase (MiroSimulation.init WORLD_MAP_STRING) handler_1x1
  = (Ok false, handler_1x1, []) ∧
  MiroHandler.find_best_direction handler_1x1 = Raise ValueError ∧
  main 1 WORLD_MAP_STRING (S fuel) = Ok (Crashed ValueError, handler_1x1, []).
Proof.
  assert (Hscan : scan_phase (MiroSimulation.init WORLD_MAP_STRING) handler_1x1
                  = (Ok false, handler_1x1, [])) by reflexivity.
  split; [done|]. split; [reflexivity|].
  unfold main. change (MiroHandler.init (1 * 2 + 1) _) with (Ok handler_1x1).
  cbn [mbind result_bind]. by rewrite exploration_loop_unfold, Hscan.
Qed.

(** Claim C4 as stated fails: with the goal in the only cell of the 1×1
    maze, the run does not end in GoalFound but with an error raised in the
    decide phase. *)
Lemma one_cell_maze_goal_not_found :
  main 1 maze_1x1_goal 1 = Ok (Crashed ValueError, handler_1x1, []) ∧
  MiroSimulation.world_map (MiroSimulation.init maze_1x1_goal)
  = [[PyStr "+"; PyInt 1; PyStr "+"];
     [PyInt 1; PyInt 2; PyInt 1];
     [PyStr "+"; PyInt 1; PyStr "+"]].
Proof. split; vm_compute; reflexivity. Qed.


(** * Further properties of the code *)

(** ** Rotations and offsets *)

(** Property X1.  [left_of] and [right_of] undo each other on every
    direction, four left turns (or four right turns) come back to the
    direction, and a right turn is three left turns. *)
Theorem left_of_right_of_round_trip p d :
  (r ← Position.right_of p (Some d); Position.left_of p (Some r)) = Ok d ∧
  (l ← Position.left_of p (Some d); Position.right_of p (Some l)) = Ok d ∧
  (a ← Position.left_of p (Some d); b ← Position.left_of p (Some a);
   c ← Position.left_of p (Some b); Position.left_of p (Some c)) = Ok d ∧
  (a ← Position.right_of p (Some d); b ← Position.right_of p (Some a);
   c ← Position.right_of p (Some b); Position.right_of p (Some c)) = Ok d ∧
  (a ← Position.left_of p (Some d); b ← Position.left_of p (Some a);
   Position.left_of p (Some b)) = Position.right_of p (Some d) ∧
  Position.left_of p (Some d) ≠ Ok d ∧
  Position.left_of p (Some d) ≠ Position.right_of p (Some d).
Proof. by destruct d. Qed.

(** Property X2.  A position built without a direction cannot be rotated
    unless a direction is passed: [left_of()] and [right_of()] raise
    [ValueError].  A direction that is passed is the one rotated, whatever
    the position's own; without one, the position's own is rotated. *)
Theorem rotation_uses_argument_or_own x y own d :
  Position.left_of (Position.Position x y None) None = Raise ValueError ∧
  Position.right_of (Position.Position x y None) None = Raise ValueError ∧
  Position.left_of (Position.Position x y own) (Some d)
  = Position.left_of (Position.Position x y (Some d)) None ∧
  Position.right_of (Position.Position x y own) (Some d)
  = Position.right_of (Position.Position x y (Some d)) None ∧
  (∃ l r, Position.left_of (Position.Position x y own) (Some d) = Ok l ∧
          Position.right_of (Position.Position x y own) (Some d) = Ok r).
Proof. destruct d; repeat split; by eexists _, _. Qed.

(** Property X3.  [handle_direction] never fails.  The offsets of a
    direction and of the one behind it cancel, the offset is along one axis
    only, of length 1 for a wall step and 2 for a cell step, the cell offset
    is twice the wall offset, and north is toward smaller [y].  With no
    direction passed and none of its own, the position answers the west
    offset (the final [else] of the method). *)
Theorem handle_direction_offsets p step d :
  let o := Position.handle_direction p step (Some d) in
  let o' := Position.handle_direction p step (Some (opposite d)) in
  let len := match step with walls => 1 | cells => 2 end in
  Offset.x o + Offset.x o' = 0 ∧ Offset.y o + Offset.y o' = 0 ∧
  Z.abs (Offset.x o) + Z.abs (Offset.y o) = len ∧
  (Offset.x o = 0 ∨ Offset.y o = 0) ∧
  Offset.x (Position.handle_direction p cells (Some d))
  = 2 * Offset.x (Position.handle_direction p walls (Some d)) ∧
  Offset.y (Position.handle_direction p cells (Some d))
  = 2 * Offset.y (Position.handle_direction p walls (Some d)) ∧
  Position.handle_direction p step (Some north) = Offset.Offset 0 (- len) ∧
  Position.handle_direction (Position.Position (Position.x p) (Position.y p) None) step None
  = Position.handle_direction p step (Some west).
Proof. destruct d, step; simpl; repeat split; lia. Qed.

(** ** Moving and turning *)

(** Property X4.  [move_backward] undoes [move_forward] and the other way
    round, whatever the pose: the handler is back as it was. *)
Theorem move_forward_backward_round_trip h :
  (MiroHandler.move_forward;; MiroHandler.move_backward) h
  = (Ok (), h, [MoveForward; MoveBackward]) ∧
  (MiroHandler.move_backward;; MiroHandler.move_forward) h
  = (Ok (), h, [MoveBackward; MoveForward]).
Proof.
  destruct h as [n [x y o] m].
  split.
  - rewrite (bind_run _ _ _ _ _ _ (move_forward_run _)), move_backward_run.
    cbn [fst snd app]. f_equal. f_equal. unfold moved_to.
    destruct o as [[]|]; cbn; f_equal; f_equal; lia.
  - rewrite (bind_run _ _ _ _ _ _ (move_backward_run _)), move_forward_run.
    cbn [fst snd app]. f_equal. f_equal. unfold moved_to.
    destruct o as [[]|]; cbn; f_equal; f_equal; lia.
Qed.

(** Property X5.  On a handler that faces some direction, a left turn
    followed by a right turn, a right turn followed by a left turn, and four
    left turns in a row all leave the handler as it was.  On a handler
    without a facing, [turn_left] and [turn_right] raise [ValueError] and
    change nothing. *)
Theorem turns_compose h :
  (is_Some (MiroHandler.direction h) →
   (MiroHandler.turn_left;; MiroHandler.turn_right) h = (Ok (), h, [TurnLeft; TurnRight]) ∧
   (MiroHandler.turn_right;; MiroHandler.turn_left) h = (Ok (), h, [TurnRight; TurnLeft]) ∧
   (MiroHandler.turn_left;; MiroHandler.turn_left;;
    MiroHandler.turn_left;; MiroHandler.turn_left) h
   = (Ok (), h, [TurnLeft; TurnLeft; TurnLeft; TurnLeft])) ∧
  (MiroHandler.direction h = None →
   MiroHandler.turn_left h = (Raise ValueError, h, [TurnLeft]) ∧
   MiroHandler.turn_right h = (Raise ValueError, h, [TurnRight])).
Proof.
  split.
  - intros [f Hf]. split; [|split].
    + rewrite (bind_run _ _ _ _ _ _ (turn_left_run h f Hf)).
      rewrite (turn_right_run _ (rotateLeft f)); [|done]. cbn [fst snd app].
      by rewrite rotateRight_rotateLeft, facing_facing, facing_own.
    + rewrite (bind_run _ _ _ _ _ _ (turn_right_run h f Hf)).
      rewrite (turn_left_run _ (rotateRight f)); [|done]. cbn [fst snd app].
      by rewrite rotateLeft_rotateRight, facing_facing, facing_own.
    + rewrite (bind_run _ _ _ _ _ _ (turn_left_run h f Hf)).
      rewrite (bind_run _ _ _ _ _ _
                 (turn_left_run (facing h (rotateLeft f)) (rotateLeft f) eq_refl)).
      rewrite facing_facing.
      rewrite (bind_run _ _ _ _ _ _
                 (turn_left_run (facing h (rotateLeft (rotateLeft f)))
                    (rotateLeft (rotateLeft f)) eq_refl)).
      rewrite facing_facing.
      rewrite (turn_left_run (facing h (rotateLeft (rotateLeft (rotateLeft f))))
                 (rotateLeft (rotateLeft (rotateLeft f))) eq_refl).
      cbn [fst snd app]. rewrite !facing_facing.
      replace (rotateLeft (rotateLeft (rotateLeft (rotateLeft f)))) with f
        by by destruct f.
      by rewrite facing_own.
  - destruct h as [n [x y o] m]. unfold MiroHandler.direction. simpl. by intros ->.
Qed.

Lemma turns_compose_witness :
  (MiroHandler.turn_left;; MiroHandler.turn_right) handler_1x1
  = (Ok (), handler_1x1, [TurnLeft; TurnRight]).
Proof.
  refine (proj1 (proj1 (turns_compose handler_1x1) _)). by eexists.
Defined.

(** Property X6.  [turn_to_face] on a handler without a facing raises
    [ValueError] before any turn and changes nothing.  On a handler with a
    facing, calling it twice for the same direction is calling it once: the
    second call performs no turn. *)
Theorem turn_to_face_twice h target :
  (MiroHandler.direction h = None →
   MiroHandler.turn_to_face target h = (Raise ValueError, h, [])) ∧
  (is_Some (MiroHandler.direction h) →
   (MiroHandler.turn_to_face target;; MiroHandler.turn_to_face target) h
   = MiroHandler.turn_to_face target h ∧
   MiroHandler.turn_to_face target (state_after (MiroHandler.turn_to_face target) h)
   = (Ok (), state_after (MiroHandler.turn_to_face target) h, [])).
Proof.
  split.
  - intros Hnone. unfold MiroHandler.turn_to_face. rewrite bind_read.
    unfold MiroHandler.left_count. by rewrite Hnone.
  - intros [f Hf]. pose proof (turn_to_face_run h f target Hf) as Hrun.
    assert (Hagain : MiroHandler.turn_to_face target (facing h target)
                     = (Ok (), facing h target, [])).
    { rewrite (turn_to_face_run (facing h target) target target eq_refl).
      by rewrite decide_True, facing_facing. }
    split.
    + rewrite (bind_run _ _ _ _ _ _ Hrun), Hagain, Hrun. cbn [fst snd].
      by rewrite app_nil_r.
    + unfold state_after. rewrite Hrun. cbn [fst snd]. exact Hagain.
Qed.

Lemma turn_to_face_twice_witness :
  (MiroHandler.turn_to_face south;; MiroHandler.turn_to_face south) handler_1x1
  = MiroHandler.turn_to_face south handler_1x1.
Proof.
  refine (proj1 (proj2 (turn_to_face_twice handler_1x1 south) _)). by eexists.
Defined.

(** ** The scanning order *)

(** Property X7.  In scanning order [generate_direction_priority] lists
    the facing, the direction to its left, the one behind and the one to its
    right: the four compass directions, each once.  Without a facing it
    raises [ValueError], in either order. *)
Theorem scanning_priority_is_permutation h :
  (∀ f, MiroHandler.direction h = Some f →
        ∃ priority,
          MiroHandler.generate_direction_priority h (Some MiroHandler.scanning)
          = Ok priority ∧
          priority = [f; rotateLeft f; opposite f; rotateRight f] ∧
          NoDup priority ∧
          priority ≡ₚ DIRECTIONS) ∧
  (MiroHandler.direction h = None →
   ∀ order, MiroHandler.generate_direction_priority h order = Raise ValueError).
Proof.
  split.
  - intros f Hf. eexists. split; [by apply scanning_priority|]. split; [done|].
    split.
    + destruct f; by apply (bool_decide_unpack _).
    + apply NoDup_Permutation.
      * destruct f; by apply (bool_decide_unpack _).
      * by apply (bool_decide_unpack _).
      * intros d. unfold DIRECTIONS. rewrite !elem_of_cons, !elem_of_nil.
        destruct f, d; simpl; intuition congruence.
  - intros Hnone order. by apply generate_direction_priority_no_direction.
Qed.

Lemma scanning_priority_is_permutation_witness :
  ∃ priority,
    MiroHandler.generate_direction_priority handler_1x1 (Some MiroHandler.scanning)
    = Ok priority ∧
    priority = [east; north; west; south] ∧
    NoDup priority ∧ priority ≡ₚ DIRECTIONS.
Proof.
  exact (proj1 (scanning_priority_is_permutation handler_1x1) east eq_refl).
Defined.

(** ** Subscripts of any sign *)

Lemma index_of_subscript_lt len i n :
  index_of_subscript len i = Ok n → (n < len)%nat.
Proof.
  unfold index_of_subscript. repeat case_decide; intros [=]; lia.
Qed.

Lemma index_of_subscript_raise len i e :
  index_of_subscript len i = Raise e → e = IndexError.
Proof. unfold index_of_subscript. repeat case_decide; by intros [=]. Qed.

Lemma getitem_raise {A : Type} (l : list A) i e :
  getitem l i = Raise e → e = IndexError.
Proof.
  unfold getitem. destruct (index_of_subscript (length l) i) as [n|e'] eqn:Hn; simpl.
  - destruct (l !! n); by intros [=].
  - intros [= <-]. by eapply index_of_subscript_raise.
Qed.

Lemma getitem2_raise {A : Type} (m : list (list A)) y x e :
  getitem2 m y x = Raise e → e = IndexError.
Proof.
  unfold getitem2. destruct (getitem m y) as [row|e'] eqn:Hrow; simpl.
  - apply getitem_raise.
  - intros [= <-]. by eapply getitem_raise.
Qed.

Lemma getitem_Ok_setitem {A : Type} (l : list A) i a b :
  getitem l i = Ok b → ∃ l', setitem l i a = Ok l'.
Proof.
  unfold getitem, setitem. destruct (index_of_subscript (length l) i); simpl; [|done].
  by eexists.
Qed.

Lemma setitem_Ok_getitem {A : Type} (l : list A) i a l' :
  setitem l i a = Ok l' → getitem l' i = Ok a ∧ length l' = length l.
Proof.
  unfold setitem, getitem.
  destruct (index_of_subscript (length l) i) as [n|] eqn:Hn; simpl; [|done].
  intros [= <-]. rewrite length_insert, Hn. simpl.
  apply index_of_subscript_lt in Hn.
  by rewrite list_lookup_insert_eq.
Qed.

Lemma setitem_raise {A : Type} (l : list A) i a e :
  setitem l i a = Raise e → getitem l i = Raise IndexError ∧ e = IndexError.
Proof.
  unfold setitem, getitem.
  destruct (index_of_subscript (length l) i) as [n|e'] eqn:Hn; simpl; [done|].
  intros [= <-]. by rewrite (index_of_subscript_raise _ _ _ Hn).
Qed.

(** A slot that was written reads back what was written, for subscripts
    of any sign. *)
Lemma setitem2_Ok_getitem2 {A : Type} (m : list (list A)) y x a m' :
  setitem2 m y x a = Ok m' → getitem2 m' y x = Ok a.
Proof.
  unfold setitem2, getitem2.
  destruct (getitem m y) as [row|] eqn:Hrow; simpl; [|done].
  destruct (setitem row x a) as [row'|] eqn:Hrow'; simpl; [|done].
  intros Hm'. destruct (setitem_Ok_getitem _ _ _ _ Hm') as [-> _]. simpl.
  by destruct (setitem_Ok_getitem _ _ _ _ Hrow').
Qed.

(** A slot that can be read can be written, and the other way round. *)
Lemma getitem2_Ok_setitem2 {A : Type} (m : list (list A)) y x a b :
  getitem2 m y x = Ok b → ∃ m', setitem2 m y x a = Ok m'.
Proof.
  unfold setitem2, getitem2.
  destruct (getitem m y) as [row|] eqn:Hrow; simpl; [|done].
  intros Hb. destruct (getitem_Ok_setitem row x a b Hb) as [row' ->]. simpl.
  by eapply getitem_Ok_setitem.
Qed.

Lemma store_cases y x v h :
  (∃ old world_map,
     getitem2 (MiroHandler._world_map h) y x = Ok old ∧
     setitem2 (MiroHandler._world_map h) y x v = Ok world_map ∧
     MiroHandler.store y x v h = (Ok (), with_map h world_map, [Store y x old v])) ∨
  (getitem2 (MiroHandler._world_map h) y x = Raise IndexError ∧
   MiroHandler.store y x v h = (Raise IndexError, h, [])).
Proof.
  unfold MiroHandler.store.
  destruct (getitem2 (MiroHandler._world_map h) y x) as [old|e] eqn:Hold.
  - destruct (getitem2_Ok_setitem2 _ y x v old Hold) as [m' Hm']. rewrite Hm'.
    left. by exists old, m'.
  - right. rewrite (getitem2_raise _ _ _ _ Hold) in *. split; [done|].
    by destruct (setitem2 (MiroHandler._world_map h) y x v).
Qed.

(** ** Recording and reading back *)

(** Property X8.  [direction_recorded] answers [True] exactly when the
    wall segment toward the direction is known and, where that segment is
    recorded as no wall, the cell behind it is known too; it answers [False]
    exactly when the segment is Unknown, or is recorded as no wall before an
    Unknown cell.  The only exception it can raise is [IndexError]. *)
Theorem direction_recorded_iff h d :
  let wall := MiroHandler._get_wall_in_direction h (MiroHandler.position h) d in
  let cell := MiroHandler._get_cell_in_direction h (MiroHandler.position h) d in
  (MiroHandler.direction_recorded h d = Ok true ↔
   ∃ w, wall = Ok w ∧ w ≠ PyNone ∧
        (w = MiroHandler._NO_WALL → ∃ c, cell = Ok c ∧ c ≠ PyNone)) ∧
  (MiroHandler.direction_recorded h d = Ok false ↔
   wall = Ok PyNone ∨ (wall = Ok MiroHandler._NO_WALL ∧ cell = Ok PyNone)) ∧
  (∀ e, MiroHandler.direction_recorded h d = Raise e → e = IndexError).
Proof.
  cbv zeta. rewrite get_wall_eq, get_cell_eq. split; [|split].
  - split; [apply recorded_known|].
    intros (w & Hw & Hne & Hcell). rewrite direction_recorded_unfold, Hw. simpl.
    destruct (Py.eqb w (PyInt 0)) eqn:Hw0; simpl.
    + apply bool_decide_eq_true in Hw0. destruct (Hcell Hw0) as (c & -> & Hc).
      simpl. unfold Py.eqb. by rewrite bool_decide_false.
    + unfold Py.eqb. by rewrite bool_decide_false.
  - split.
    + intros Hrec. destruct (not_recorded h d Hrec) as (w & Hw & _ & [-> | [-> Hc]]).
      * by left.
      * by right.
    + rewrite direction_recorded_unfold. by intros [-> | [-> ->]].
  - intros e. rewrite direction_recorded_unfold.
    destruct (getitem2 (MiroHandler._world_map h)
                (Position.y (MiroHandler.position h) + dy d)
                (Position.x (MiroHandler.position h) + dx d)) as [w|e'] eqn:Hw;
      simpl.
    + destruct (Py.eqb w (PyInt 0)); simpl; [|done].
      destruct (getitem2 (MiroHandler._world_map h)
                  (Position.y (MiroHandler.position h) + 2 * dy d)
                  (Position.x (MiroHandler.position h) + 2 * dx d)) as [c|e'] eqn:Hc;
        simpl; [done|].
      intros [= <-]. by eapply getitem2_raise.
    + intros [= <-]. by eapply getitem2_raise.
Qed.

(** Property X9.  [record_wall_infront] and [record_pit_infront] return
    the flag they were given, leave the pose alone, and the slot they wrote
    (the wall segment, or the cell, in front of the pose) reads back Wall or
    NoWall, or Pit or Cell, by the flag.  When that slot is outside the map
    they raise [IndexError] and change nothing. *)
Theorem record_infront_reads_back h (flag : bool) :
  let pos := MiroHandler.position h in
  let w := Position.handle_direction pos walls None in
  let c := Position.handle_direction pos cells None in
  match MiroHandler.record_wall_infront flag h with
  | (Ok b, h', acts) =>
      b = flag ∧ MiroHandler.position h' = pos ∧
      getitem2 (MiroHandler._world_map h')
        (Position.y pos + Offset.y w) (Position.x pos + Offset.x w)
      = Ok (if flag then MiroHandler._WALL else MiroHandler._NO_WALL) ∧
      ∃ old, acts = [Store (Position.y pos + Offset.y w) (Position.x pos + Offset.x w) old
                       (if flag then MiroHandler._WALL else MiroHandler._NO_WALL)]
  | (Raise e, h', acts) =>
      e = IndexError ∧ h' = h ∧ acts = [] ∧
      getitem2 (MiroHandler._world_map h)
        (Position.y pos + Offset.y w) (Position.x pos + Offset.x w) = Raise IndexError
  end ∧
  match MiroHandler.record_pit_infront flag h with
  | (Ok b, h', acts) =>
      b = flag ∧ MiroHandler.position h' = pos ∧
      getitem2 (MiroHandler._world_map h')
        (Position.y pos + Offset.y c) (Position.x pos + Offset.x c)
      = Ok (if flag then MiroHandler._PIT else MiroHandler._CELL) ∧
      ∃ old, acts = [Store (Position.y pos + Offset.y c) (Position.x pos + Offset.x c) old
                       (if flag then MiroHandler._PIT else MiroHandler._CELL)]
  | (Raise e, h', acts) =>
      e = IndexError ∧ h' = h ∧ acts = [] ∧
      getitem2 (MiroHandler._world_map h)
        (Position.y pos + Offset.y c) (Position.x pos + Offset.x c) = Raise IndexError
  end.
Proof.
  cbv zeta. split.
  - unfold MiroHandler.record_wall_infront. rewrite bind_read. cbv beta iota.
    fold (MiroHandler.position h).
    destruct (store_cases
                (Position.y (MiroHandler.position h)
                 + Offset.y (Position.handle_direction (MiroHandler.position h) walls None))
                (Position.x (MiroHandler.position h)
                 + Offset.x (Position.handle_direction (MiroHandler.position h) walls None))
                (if flag then MiroHandler._WALL else MiroHandler._NO_WALL) h)
      as [(old & m' & Hold & Hset & Hstore) | [Hold Hstore]].
    + rewrite (bind_run _ _ _ _ _ _ Hstore), ret_run. cbn [fst snd app].
      split; [done|]. split; [done|]. split; [|by exists old].
      rewrite with_map_map. by eapply setitem2_Ok_getitem2.
    + by rewrite (bind_raise _ _ _ _ _ _ Hstore).
  - unfold MiroHandler.record_pit_infront. rewrite bind_read. cbv beta iota.
    fold (MiroHandler.position h).
    destruct (store_cases
                (Position.y (MiroHandler.position h)
                 + Offset.y (Position.handle_direction (MiroHandler.position h) cells None))
                (Position.x (MiroHandler.position h)
                 + Offset.x (Position.handle_direction (MiroHandler.position h) cells None))
                (if flag then MiroHandler._PIT else MiroHandler._CELL) h)
      as [(old & m' & Hold & Hset & Hstore) | [Hold Hstore]].
    + rewrite (bind_run _ _ _ _ _ _ Hstore), ret_run. cbn [fst snd app].
      split; [done|]. split; [done|]. split; [|by exists old].
      rewrite with_map_map. by eapply setitem2_Ok_getitem2.
    + by rewrite (bind_raise _ _ _ _ _ _ Hstore).
Qed.

(** Property X10.  On a square map, with the cell in front inside it,
    recording the wall flag and, when there is no wall, the pit flag (what
    one turn of the scan does) settles the direction: it is recorded, and
    [check_valid_path] answers that the way is open exactly when neither a
    wall nor a pit was recorded. *)
Theorem recorded_flags_decide_valid_path n h d (wall pit : bool) :
  square n (MiroHandler._world_map h) →
  MiroHandler.direction h = Some d →
  0 ≤ Position.x (MiroHandler.position h) < n →
  0 ≤ Position.y (MiroHandler.position h) < n →
  0 ≤ Position.x (MiroHandler.position h) + 2 * dx d < n →
  0 ≤ Position.y (MiroHandler.position h) + 2 * dy d < n →
  ∃ h' acts,
    (wall_infront ← MiroHandler.record_wall_infront wall;
     if (wall_infront : bool) then mret wall_infront
     else MiroHandler.record_pit_infront pit) h
    = (Ok (wall || pit), h', acts) ∧
    MiroHandler.position h' = MiroHandler.position h ∧
    MiroHandler.direction_recorded h' d = Ok true ∧
    MiroHandler.check_valid_path h' d = Ok (negb wall && negb pit).
Proof.
  intros Hsq Hd Hx Hy Hcx Hcy.
  assert (0 ≤ Position.x (MiroHandler.position h) + dx d < n ∧
          0 ≤ Position.y (MiroHandler.position h) + dy d < n) as [Hwx Hwy]
    by (destruct (dx_dy_cases d); lia).
  destruct (store_run n h _ _
              (if wall then MiroHandler._WALL else MiroHandler._NO_WALL) Hsq Hwx Hwy)
    as (old & m1 & Hold & Hstore & Hsq1 & Hget1).
  pose proof (record_wall_infront_run h d wall m1 old Hd Hstore) as Hrecord.
  rewrite (bind_run _ _ _ _ _ _ Hrecord).
  assert (Hwall1 : getitem2 m1 (Position.y (MiroHandler.position h) + dy d)
                     (Position.x (MiroHandler.position h) + dx d)
                   = Ok (if wall then MiroHandler._WALL else MiroHandler._NO_WALL)).
  { rewrite Hget1 by lia. by rewrite decide_True. }
  destruct wall; cbn [orb negb andb].
  - rewrite ret_run. cbn [fst snd]. eexists _, _. split; [done|]. split; [done|].
    split.
    + apply recorded_wall. by rewrite with_map_map, with_map_position.
    + rewrite check_valid_path_unfold, get_wall_eq, with_map_map, with_map_position.
      by rewrite Hwall1.
  - destruct (store_run n (with_map h m1)
                (Position.y (MiroHandler.position h) + 2 * dy d)
                (Position.x (MiroHandler.position h) + 2 * dx d)
                (if pit then MiroHandler._PIT else MiroHandler._CELL) Hsq1 Hcx Hcy)
      as (old2 & m2 & Hold2 & Hstore2 & Hsq2 & Hget2).
    pose proof (record_pit_infront_run (with_map h m1) d pit m2 old2 Hd Hstore2)
      as Hrecord2.
    rewrite Hrecord2. cbn [fst snd].
    assert (Hwall2 : getitem2 m2 (Position.y (MiroHandler.position h) + dy d)
                       (Position.x (MiroHandler.position h) + dx d)
                     = Ok MiroHandler._NO_WALL).
    { rewrite with_map_map in Hget2. rewrite Hget2 by lia.
      rewrite decide_False; [done|]. destruct (dx_dy_cases d); lia. }
    assert (Hcell2 : getitem2 m2 (Position.y (MiroHandler.position h) + 2 * dy d)
                       (Position.x (MiroHandler.position h) + 2 * dx d)
                     = Ok (if pit then MiroHandler._PIT else MiroHandler._CELL)).
    { rewrite Hget2 by lia. by rewrite decide_True. }
    eexists _, _. split; [done|]. split; [done|]. split.
    + apply (recorded_cell _ d (if pit then MiroHandler._PIT else MiroHandler._CELL));
        [done | done | by destruct pit].
    + rewrite check_valid_path_unfold, get_wall_eq, get_cell_eq.
      rewrite !with_map_map, !with_map_position, Hwall2. simpl.
      rewrite Hcell2. simpl. by destruct pit.
Qed.

Lemma recorded_flags_decide_valid_path_witness :
  ∃ h' acts,
    (wall_infront ← MiroHandler.record_wall_infront false;
     if (wall_infront : bool) then mret wall_infront
     else MiroHandler.record_pit_infront true) scanned_2x2_wall_north
    = (Ok (false || true), h', acts) ∧
    MiroHandler.position h' = MiroHandler.position scanned_2x2_wall_north ∧
    MiroHandler.direction_recorded h' north = Ok true ∧
    MiroHandler.check_valid_path h' north = Ok (negb false && negb true).
Proof.
  apply (recorded_flags_decide_valid_path 5 scanned_2x2_wall_north north false true);
    [by apply (bool_decide_unpack _) | reflexivity | simpl; lia..].
Defined.

(** ** Counting unexplored neighbours *)

(** On square maps of one side, a subscript pair that reads a slot of one
    map reads the slot of the same non-negative coordinates in the other. *)
Lemma getitem2_normalise n (m : list (list value)) y x v :
  square n m → getitem2 m y x = Ok v →
  ∃ x0 y0, 0 ≤ x0 < n ∧ 0 ≤ y0 < n ∧
           ∀ m' : list (list value), square n m' → getitem2 m' y x = getitem2 m' y0 x0.
Proof.
  intros [Hlen Hrows]. unfold getitem2 at 1, getitem.
  destruct (index_of_subscript (length m) y) as [ny|] eqn:Hny; simpl; [|done].
  destruct (m !! ny) as [row|] eqn:Hrow; simpl; [|done].
  destruct (index_of_subscript (length row) x) as [nx|] eqn:Hnx; simpl; [|done].
  intros _.
  pose proof (index_of_subscript_lt _ _ _ Hny) as Hlty.
  pose proof (index_of_subscript_lt _ _ _ Hnx) as Hltx.
  assert (Hrowlen : Z.of_nat (length row) = n).
  { rewrite Forall_forall in Hrows. apply Hrows. by eapply list_elem_of_lookup_2. }
  exists (Z.of_nat nx), (Z.of_nat ny). split; [lia|]. split; [lia|].
  intros m' [Hlen' Hrows'].
  rewrite (getitem2_nonneg m' (Z.of_nat ny) (Z.of_nat nx)) by lia. rewrite !Nat2Z.id.
  unfold getitem2, getitem.
  replace (length m') with (length m) by lia. rewrite Hny. simpl.
  destruct (m' !! ny) as [row'|] eqn:Hrow'; simpl; [|done].
  assert (length row' = length row) as ->; [|by rewrite Hnx].
  rewrite Forall_forall in Hrows'.
  pose proof (Hrows' row' ltac:(by eapply list_elem_of_lookup_2)). lia.
Qed.

Lemma knows_le_read n (m m' : list (list value)) y x v :
  square n m → square n m' → knows_le m m' → getitem2 m y x = Ok v →
  ∃ v', getitem2 m' y x = Ok v' ∧ (v ≠ PyNone → v' = v).
Proof.
  intros Hsq Hsq' Hle Hv.
  destruct (getitem2_normalise n m y x v Hsq Hv) as (x0 & y0 & Hx0 & Hy0 & Hnorm).
  rewrite (Hnorm m Hsq) in Hv. rewrite (Hnorm m' Hsq').
  destruct (decide (v = PyNone)) as [->|Hne].
  - destruct (getitem2_square n m' y0 x0 Hsq' Hx0 Hy0) as [v' Hv']. by exists v'.
  - exists v. split; [|done]. apply Hle; [lia | lia | done | done].
Qed.

Lemma for_each_le {A : Type} (f f' : nat → A → result nat) l :
  (∀ acc acc' a r, (acc' ≤ acc)%nat → f acc a = Ok r →
                   ∃ r', f' acc' a = Ok r' ∧ (r' ≤ r)%nat) →
  ∀ acc acc' r, (acc' ≤ acc)%nat → for_each f acc l = Ok r →
                ∃ r', for_each f' acc' l = Ok r' ∧ (r' ≤ r)%nat.
Proof.
  intros Hstep. induction l as [|a l IH]; intros acc acc' r Hle; simpl.
  { intros [= <-]. by exists acc'. }
  destruct (f acc a) as [r1|] eqn:Hf; simpl; [|done].
  destruct (Hstep acc acc' a r1 Hle Hf) as (r1' & -> & Hle1). simpl.
  by apply IH.
Qed.

Lemma for_each_bound {A : Type} (f : nat → A → result nat) l :
  (∀ acc a r, f acc a = Ok r → (r ≤ acc + 1)%nat) →
  ∀ acc r, for_each f acc l = Ok r → (r ≤ acc + length l)%nat.
Proof.
  intros Hstep. induction l as [|a l IH]; intros acc r; simpl.
  { intros [= <-]. lia. }
  destruct (f acc a) as [r1|] eqn:Hf; simpl; [|done].
  intros Hr. apply IH in Hr. apply Hstep in Hf. lia.
Qed.

(** Property X11.  [count_surrounding_unexplored] answers at most 4, and
    it can only go down as the map fills in: on a map of the same shape that
    knows everything the first one knows, the count for the same cell is
    defined and no greater. *)
Theorem count_surrounding_unexplored_antitone n h h' p k :
  square n (MiroHandler._world_map h) →
  square n (MiroHandler._world_map h') →
  knows_le (MiroHandler._world_map h) (MiroHandler._world_map h') →
  MiroHandler.count_surrounding_unexplored h p = Ok k →
  (k ≤ 4)%nat ∧
  ∃ k', MiroHandler.count_surrounding_unexplored h' p = Ok k' ∧ (k' ≤ k)%nat.
Proof.
  intros Hsq Hsq' Hle Hk. split.
  - unfold MiroHandler.count_surrounding_unexplored in Hk.
    apply for_each_bound in Hk; [done|].
    intros acc d r. cbv beta zeta.
    destruct (MiroHandler._get_wall_in_direction h p d) as [w|]; simpl; [|done].
    destruct (negb (Py.eqb w MiroHandler._WALL)); [|intros [= <-]; lia].
    destruct (getitem2 _ _ _) as [c|]; simpl; [|done].
    destruct (Py.eqb c PyNone); intros [= <-]; lia.
  - revert Hk. unfold MiroHandler.count_surrounding_unexplored.
    apply for_each_le; [|done].
    intros acc acc' d r Hacc. cbv beta zeta.
    rewrite !get_wall_eq, !handle_direction_Some.
    replace (Offset.x _) with (2 * dx d) by by destruct d.
    replace (Offset.y _) with (2 * dy d) by by destruct d.
    cbn [Position.x Position.y].
    destruct (getitem2 (MiroHandler._world_map h) (Position.y p + dy d)
                (Position.x p + dx d)) as [w|] eqn:Hw; simpl; [|done].
    destruct (knows_le_read n _ _ _ _ w Hsq Hsq' Hle Hw) as (w' & -> & Hw'). simpl.
    destruct (Py.eqb w MiroHandler._WALL) eqn:Hwall; simpl.
    { apply bool_decide_eq_true in Hwall. rewrite Hw' by by rewrite Hwall.
      rewrite Hwall. simpl. intros [= <-]. by exists acc'. }
    destruct (getitem2 (MiroHandler._world_map h) (Position.y p + 2 * dy d)
                (Position.x p + 2 * dx d)) as [c|] eqn:Hc; simpl; [|done].
    destruct (knows_le_read n _ _ _ _ c Hsq Hsq' Hle Hc) as (c' & Hc' & Hcc').
    destruct (Py.eqb w' MiroHandler._WALL); simpl.
    { destruct (Py.eqb c PyNone); intros [= <-]; exists acc'; split; [done|lia|done|lia]. }
    rewrite Hc'. simpl.
    destruct (Py.eqb c PyNone) eqn:HcN; intros [= <-].
    + destruct (Py.eqb c' PyNone); eexists; (split; [done|lia]).
    + apply bool_decide_eq_false in HcN. rewrite (Hcc' HcN).
      unfold Py.eqb. rewrite bool_decide_false by done. exists acc'. split; [done|lia].
Qed.

Lemma count_surrounding_unexplored_antitone_witness :
  (1 ≤ 4)%nat ∧
  ∃ k', MiroHandler.count_surrounding_unexplored
          (with_map scanned_2x2_open
             [[PyStr "+"; PyInt 1; PyStr "+"; PyInt 1; PyStr "+"];
              [PyInt 1; PyInt 0; PyInt 1; PyNone; PyInt 1];
              [PyStr "+"; PyInt 0; PyStr "+"; PyNone; PyStr "+"];
              [PyInt 1; PyInt 0; PyInt 0; PyInt 0; PyInt 1];
              [PyStr "+"; PyInt 1; PyStr "+"; PyInt 1; PyStr "+"]])
          (Position.Position 1 1 None) = Ok k' ∧ (k' ≤ 1)%nat.
Proof.
  apply (count_surrounding_unexplored_antitone 5 scanned_2x2_open);
    [by apply (bool_decide_unpack _) | by apply (bool_decide_unpack _) | | reflexivity].
  intros x y v Hx Hy.
  destruct (decide (x < 5)) as [Hx5|Hx5]; [|];
    destruct (decide (y < 5)) as [Hy5|Hy5].
  - assert (x = 0 ∨ x = 1 ∨ x = 2 ∨ x = 3 ∨ x = 4) as Hxs by lia.
    assert (y = 0 ∨ y = 1 ∨ y = 2 ∨ y = 3 ∨ y = 4) as Hys by lia.
    destruct Hxs as [-> | [-> | [-> | [-> | ->]]]];
      destruct Hys as [-> | [-> | [-> | [-> | ->]]]]; vm_compute; congruence.
  - rewrite !getitem2_nonneg by lia. simpl.
    rewrite lookup_ge_None_2 by (simpl; lia). done.
  - rewrite !getitem2_nonneg by lia. simpl.
    destruct (Z.to_nat y) as [|[|[|[|[|?]]]]] eqn:Hny; simpl; try done;
      rewrite lookup_ge_None_2 by (simpl; lia); done.
  - rewrite !getitem2_nonneg by lia. simpl.
    rewrite lookup_ge_None_2 by (simpl; lia). done.
Defined.

(** ** The direction chosen *)

Lemma candidates_split h priority before n d after :
  candidates h priority = Ok (before ++ (n, d) :: after) →
  ∃ priority_before priority_after,
    priority = priority_before ++ d :: priority_after ∧
    candidates h priority_before = Ok before ∧
    candidates h priority_after = Ok after ∧
    MiroHandler.check_valid_path h d = Ok true ∧ unexploredScore h d = Ok n.
Proof.
  revert before. induction priority as [|e priority IH]; intros before; simpl.
  { intros [= Hnil]. by destruct before. }
  destruct (MiroHandler.check_valid_path h e) as [[]|] eqn:Hvalid; simpl; [| |done].
  - destruct (unexploredScore h e) as [k|] eqn:Hscore; simpl; [|done].
    destruct (candidates h priority) as [rest|] eqn:Hrest; simpl; [|done].
    destruct before as [|c before]; simpl.
    + intros [= -> -> ->]. by exists [], priority.
    + intros [= <- ->].
      destruct (IH before eq_refl) as (pb & pa & -> & Hpb & Hpa & Hd & Hn).
      exists (e :: pb), pa. simpl. by rewrite Hvalid, Hscore, Hpb.
  - intros Hc. destruct (IH before Hc) as (pb & pa & -> & Hpb & Hpa & Hd & Hn).
    exists (e :: pb), pa. simpl. by rewrite Hvalid.
Qed.

Lemma candidates_complete h priority cands e k :
  candidates h priority = Ok cands → e ∈ priority →
  MiroHandler.check_valid_path h e = Ok true → unexploredScore h e = Ok k →
  (k, e) ∈ cands.
Proof.
  intros Hc Hin Hvalid Hscore. revert cands Hc.
  induction priority as [|e' priority IH]; intros cands; simpl.
  { by apply elem_of_nil in Hin. }
  apply elem_of_cons in Hin as [<- | Hin].
  - rewrite Hvalid. simpl. rewrite Hscore. simpl.
    destruct (candidates h priority); simpl; [|done]. intros [= <-]. left.
  - destruct (MiroHandler.check_valid_path h e') as [[]|]; simpl; [| |done].
    + destruct (unexploredScore h e'); simpl; [|done].
      destruct (candidates h priority); simpl; [|done].
      intros [= <-]. right. by apply IH.
    + by apply IH.
Qed.

(** Property X12.  The direction [find_best_direction] returns is, among
    the directions of the pathfinding order that have a valid path, one whose
    neighbouring cell has the greatest count of unexplored neighbours, and
    the earliest such in that order: every valid direction listed before it
    scores strictly less, every one listed after it scores no more. *)
Theorem find_best_direction_first_greatest h d :
  MiroHandler.find_best_direction h = Ok d →
  ∃ priority before after n,
    MiroHandler.generate_direction_priority h None = Ok priority ∧
    priority = before ++ d :: after ∧
    MiroHandler.check_valid_path h d = Ok true ∧
    unexploredScore h d = Ok n ∧
    (∀ e k, e ∈ before → MiroHandler.check_valid_path h e = Ok true →
            unexploredScore h e = Ok k → (k < n)%nat) ∧
    (∀ e k, e ∈ after → MiroHandler.check_valid_path h e = Ok true →
            unexploredScore h e = Ok k → (k ≤ n)%nat).
Proof.
  intros (priority & cands & n & Hprio & Hc & (b & a & -> & Hb & Ha))%find_best_direction_Ok.
  destruct (candidates_split h priority b n d a Hc) as (pb & pa & -> & Hpb & Hpa & Hd & Hn).
  exists (pb ++ d :: pa), pb, pa, n. repeat split; try done.
  - intros e k Hin Hvalid Hscore.
    pose proof (candidates_complete h pb b e k Hpb Hin Hvalid Hscore) as Hmem.
    rewrite Forall_forall in Hb. exact (Hb _ Hmem).
  - intros e k Hin Hvalid Hscore.
    pose proof (candidates_complete h pa a e k Hpa Hin Hvalid Hscore) as Hmem.
    rewrite Forall_forall in Ha. exact (Ha _ Hmem).
Qed.

Lemma find_best_direction_first_greatest_witness :
  ∃ priority before after n,
    MiroHandler.generate_direction_priority scanned_2x2_open None = Ok priority ∧
    priority = before ++ north :: after ∧
    MiroHandler.check_valid_path scanned_2x2_open north = Ok true ∧
    unexploredScore scanned_2x2_open north = Ok n ∧
    (∀ e k, e ∈ before → MiroHandler.check_valid_path scanned_2x2_open e = Ok true →
            unexploredScore scanned_2x2_open e = Ok k → (k < n)%nat) ∧
    (∀ e k, e ∈ after → MiroHandler.check_valid_path scanned_2x2_open e = Ok true →
            unexploredScore scanned_2x2_open e = Ok k → (k ≤ n)%nat).
Proof.
  apply (find_best_direction_first_greatest scanned_2x2_open north). reflexivity.
Defined.

(** ** Building the handler *)

(** Property X13.  For a maze of side [D ≥ 1] and a start position inside
    the grid, the constructor succeeds and lays the map out as a square of
    side [2 D + 1]: the first and last row alternate intersections and
    walls, the rows between alternate a cell row (a wall at each end, Unknown
    between) and a wall row (intersections at the even columns, Unknown at
    the odd ones), and the start slot holds Cell.  The pose is the one
    given. *)
Theorem init_layout D p :
  1 ≤ D →
  0 ≤ Position.x p < 2 * D + 1 → 0 ≤ Position.y p < 2 * D + 1 →
  ∃ h,
    MiroHandler.init (2 * D + 1) p = Ok h ∧
    MiroHandler._MAP_DIMENSIONS h = 2 * D + 1 ∧
    MiroHandler.position h = p ∧
    square (2 * D + 1) (MiroHandler._world_map h) ∧
    ∀ x y, 0 ≤ x < 2 * D + 1 → 0 ≤ y < 2 * D + 1 →
           getitem2 (MiroHandler._world_map h) y x =
           Ok (if decide (x = Position.x p ∧ y = Position.y p) then MiroHandler._CELL
               else if decide (y = 0 ∨ y = 2 * D) then
                      if Z.even x then MiroHandler._WALL_INTERSECTION
                      else MiroHandler._WALL
               else if Z.odd y then
                      if decide (x = 0 ∨ x = 2 * D) then MiroHandler._WALL else PyNone
               else if Z.even x then MiroHandler._WALL_INTERSECTION else PyNone).
Proof.
  intros HD Hx Hy.
  destruct (generate_world_map_spec D p HD Hx Hy) as (world_map & Hmap & Hsq & Hget).
  unfold MiroHandler.init. rewrite Hmap. simpl. eexists. split; [done|].
  split; [done|]. split; [done|]. split; [done|].
  intros x y Hx' Hy'. cbn [MiroHandler._world_map]. rewrite (Hget x y Hx' Hy').
  unfold initial_slot. replace (2 * D + 1 - 1) with (2 * D) by lia. done.
Qed.

Lemma init_layout_witness :
  ∃ h,
    MiroHandler.init (2 * 1 + 1) (Position.Position 1 1 (Some east)) = Ok h ∧
    MiroHandler._MAP_DIMENSIONS h = 2 * 1 + 1 ∧
    MiroHandler.position h = Position.Position 1 1 (Some east) ∧
    square (2 * 1 + 1) (MiroHandler._world_map h) ∧
    ∀ x y, 0 ≤ x < 2 * 1 + 1 → 0 ≤ y < 2 * 1 + 1 →
           getitem2 (MiroHandler._world_map h) y x =
           Ok (if decide (x = 1 ∧ y = 1) then MiroHandler._CELL
               else if decide (y = 0 ∨ y = 2 * 1) then
                      if Z.even x then MiroHandler._WALL_INTERSECTION
                      else MiroHandler._WALL
               else if Z.odd y then
                      if decide (x = 0 ∨ x = 2 * 1) then MiroHandler._WALL else PyNone
               else if Z.even x then MiroHandler._WALL_INTERSECTION else PyNone).
Proof.
  apply (init_layout 1 (Position.Position 1 1 (Some east))); simpl; lia.
Defined.

(** Property X14.  With [MAP_SIZE] zero or negative the program stops
    while the handler is being built: the map has only its two border rows
    of one intersection each, and marking the start cell raises
    [IndexError].  The loop is never entered. *)
Theorem main_without_cells MAP_SIZE WORLD_MAP_STRING fuel :
  MAP_SIZE ≤ 0 →
  MiroHandler._generate_world_map (MAP_SIZE * 2 + 1)
    (Position.Position 1 (MAP_SIZE * 2 - 1) (Some east)) = Raise IndexError ∧
  main MAP_SIZE WORLD_MAP_STRING fuel = Raise IndexError.
Proof.
  intros HM.
  assert (MiroHandler._generate_world_map (MAP_SIZE * 2 + 1)
            (Position.Position 1 (MAP_SIZE * 2 - 1) (Some east)) = Raise IndexError)
    as Hmap.
  { unfold MiroHandler._generate_world_map. cbv zeta.
    replace ((MAP_SIZE * 2 + 1) `div` 2) with MAP_SIZE
      by (apply (Z.div_unique _ _ _ 1); lia).
    unfold Py.mul, Py.range, seqZ.
    replace (Z.to_nat MAP_SIZE) with 0%nat by lia.
    replace (Z.to_nat (MAP_SIZE * 2 + 1 - 2)) with 0%nat by lia.
    cbn [replicate mjoin seq fmap list_fmap foldl app Position.x Position.y].
    unfold setitem2, getitem, index_of_subscript. cbn [length].
    destruct (decide (MAP_SIZE = 0)) as [->|Hne]; [done|].
    rewrite decide_False by lia. by rewrite decide_False by lia. }
  split; [done|]. unfold main, MiroHandler.init. by rewrite Hmap.
Qed.

Lemma main_without_cells_witness :
  MiroHandler._generate_world_map (0 * 2 + 1)
    (Position.Position 1 (0 * 2 - 1) (Some east)) = Raise IndexError ∧
  main 0 maze_1x1_goal 1 = Raise IndexError.
Proof. apply (main_without_cells 0 maze_1x1_goal 1). lia. Defined.

(** ** How the scan of one direction can end *)

Lemma direction_recorded_total h d :
  enclosed h → ∃ b, MiroHandler.direction_recorded h d = Ok b.
Proof.
  intros (_ & Hn & Hsq & Hring & Hp). rewrite direction_recorded_unfold.
  destruct (interior_wall_read _ _ _ d Hsq Hp) as [w Hw]. rewrite Hw. simpl.
  destruct (Py.eqb w (PyInt 0)) eqn:Hw0; simpl; [|eauto].
  apply bool_decide_eq_true in Hw0. subst w.
  pose proof (interior_cell_toward _ _ _ d _ Hn Hring Hp Hw ltac:(done)) as Hc.
  destruct (interior_cell_read _ _ _ Hsq Hc) as [c Hread].
  rewrite cell_toward_eq in Hread. cbn [Position.x Position.y] in Hread.
  rewrite Hread. simpl. eauto.
Qed.

Lemma check_treasure_infront_eq miro_simulation p d :
  Position.direction p = Some d →
  MiroSimulation.check_treasure_infront miro_simulation p =
  v ← getitem2 (MiroSimulation.world_map miro_simulation)
        (Position.y p + 2 * dy d) (Position.x p + 2 * dx d);
  Ok (Py.eqb v MiroSimulation.WIN).
Proof.
  intros Hd. unfold MiroSimulation.check_treasure_infront.
  rewrite (handle_direction_own p cells d Hd), handle_direction_Some.
  replace (Offset.y _) with (2 * dy d) by by destruct d.
  replace (Offset.x _) with (2 * dx d) by by destruct d.
  destruct (getitem2 _ _ _) as [v|]; simpl; [|done].
  unfold MiroSimulation.WIN. by destruct (Py.eqb v _).
Qed.

Lemma oracle_wall_raise miro_simulation n x y e :
  0 ≤ x < n → 0 ≤ y < n → oracle_wall miro_simulation x y = Raise e →
  e = IndexError ∧ environment_read_failed miro_simulation n.
Proof.
  intros Hx Hy. unfold oracle_wall.
  destruct (getitem2 (MiroSimulation.world_map miro_simulation) y x) as [v|e'] eqn:Hv;
    simpl; [done|].
  intros [= <-]. pose proof (getitem2_raise _ _ _ _ Hv) as ->.
  split; [done|]. by exists x, y.
Qed.

Lemma oracle_pit_raise miro_simulation n x y e :
  0 ≤ x < n → 0 ≤ y < n → oracle_pit miro_simulation x y = Raise e →
  e = IndexError ∧ environment_read_failed miro_simulation n.
Proof.
  intros Hx Hy. unfold oracle_pit.
  destruct (getitem2 (MiroSimulation.world_map miro_simulation) y x) as [v|e'] eqn:Hv;
    simpl; [done|].
  intros [= <-]. pose proof (getitem2_raise _ _ _ _ Hv) as ->.
  split; [done|]. by exists x, y.
Qed.

Section Outcomes.

Context (miro_simulation : MiroSimulation.t) (sx sy : Z).

Lemma scan_direction_body_outcome h d :
  Inv miro_simulation sx sy h →
  outcome_ok h (scan_outcome miro_simulation sx sy h (eq d))
    (scan_direction_body miro_simulation d h).
Proof.
  intros HInv. pose proof (Inv_evolves_refl _ _ _ _ HInv) as Hev.
  destruct (inv_facing _ _ _ _ HInv) as [f Hf].
  destruct (direction_recorded_total h d (inv_enclosed _ _ _ _ HInv)) as [rec Hrec].
  unfold scan_direction_body.
  apply outcome_read; [done| |by intros e; rewrite Hrec].
  intros [|] Hrec'; cbn [negb].
  { apply outcome_ret; [done|]. split; [done|]. split; [by split|]. by intros d' <-. }
  destruct (not_recorded h d Hrec') as (w & Hw & Hne & Hun).
  eapply outcome_bind;
    [apply (turn_to_face_run h f d Hf) | apply turns_monotone | by apply facing_evolves |].
  pose proof (Inv_facing _ _ _ _ d HInv) as HInv1.
  set (h1 := facing h d) in *.
  assert (Hev1 : evolves h1 h1) by by eapply Inv_evolves_refl.
  destruct (inv_enclosed _ _ _ _ HInv1) as (_ & Hn & Hsq & Hring & Hp).
  destruct (interior_wall_in_range _ _ d Hp) as [Hwx Hwy].
  apply outcome_read; [done| |].
  2:{ intros e Hwall. rewrite (check_wall_infront_eq _ _ d) in Hwall by done.
      destruct (oracle_wall_raise _ _ _ _ e Hwx Hwy Hwall) as [-> Hfail].
      split; [done|]. split; [by split | done]. }
  intros wall Hwall.
  rewrite (check_wall_infront_eq _ _ d) in Hwall by done.
  destruct (Inv_store_wall _ _ _ h1 d w wall HInv1 Hw Hne Hwall)
    as (m' & Hstore & HInv2 & Hmono & Hle & Hget).
  pose proof (record_wall_infront_run h1 d wall m' w eq_refl Hstore) as Hrecord.
  pose proof (Inv_with_map_evolves _ _ _ h1 m' HInv2 Hle) as Hev12.
  eapply outcome_bind; [exact Hrecord | by apply Forall_singleton | exact Hev12 |].
  set (h2 := with_map h1 m') in *.
  assert (Hev2 : evolves h2 h2) by by eapply Inv_evolves_refl.
  assert (Hwall2 : getitem2 (MiroHandler._world_map h2)
            (Position.y (MiroHandler.position h2) + dy d)
            (Position.x (MiroHandler.position h2) + dx d)
          = Ok (if wall then MiroHandler._WALL else MiroHandler._NO_WALL)).
  { unfold h2. rewrite with_map_map, with_map_position. rewrite Hget by lia.
    by rewrite decide_True. }
  destruct wall; cbn [negb].
  { apply outcome_ret; [done|]. split; [done|]. split; [done|].
    intros d' <-. by apply recorded_wall. }
  destruct (inv_enclosed _ _ _ _ HInv2) as (_ & Hn2 & Hsq2 & Hring2 & Hp2).
  pose proof (interior_cell_toward _ _ _ d _ Hn2 Hring2 Hp2 Hwall2 ltac:(done)) as Hcell.
  assert (Hrange : 0 ≤ Position.x (MiroHandler.position h2) + 2 * dx d
                   < MiroHandler._MAP_DIMENSIONS h ∧
                   0 ≤ Position.y (MiroHandler.position h2) + 2 * dy d
                   < MiroHandler._MAP_DIMENSIONS h).
  { rewrite cell_toward_eq in Hcell. destruct Hcell as (_ & _ & Hcx & Hcy).
    cbn [Position.x Position.y] in Hcx, Hcy.
    change (MiroHandler._MAP_DIMENSIONS h2) with (MiroHandler._MAP_DIMENSIONS h)
      in Hcx, Hcy.
    lia. }
  destruct Hrange as [Hcx Hcy].
  apply outcome_read; [done| |].
  2:{ intros e Htreasure.
      rewrite (check_treasure_infront_eq _ _ d) in Htreasure by done.
      destruct (getitem2 (MiroSimulation.world_map miro_simulation)
                  (Position.y (MiroHandler.position h2) + 2 * dy d)
                  (Position.x (MiroHandler.position h2) + 2 * dx d)) as [v|e'] eqn:Hv;
        [done|].
      injection Htreasure as <-. pose proof (getitem2_raise _ _ _ _ Hv) as ->.
      split; [done|]. split; [by split|].
      exists (Position.x (MiroHandler.position h2) + 2 * dx d),
        (Position.y (MiroHandler.position h2) + 2 * dy d).
      by rewrite Hv. }
  intros [|] Htreasure.
  { eapply outcome_bind; [apply move_forward_run | by apply Forall_singleton | done |].
    apply outcome_ret; [done|].
    rewrite (handle_direction_own _ cells d) by done.
    rewrite handle_direction_Some.
    replace (Offset.x _) with (2 * dx d) by by destruct d.
    replace (Offset.y _) with (2 * dy d) by by destruct d.
    rewrite (check_treasure_infront_eq _ _ d) in Htreasure by done.
    destruct (getitem2 (MiroSimulation.world_map miro_simulation)
                (Position.y (MiroHandler.position h2) + 2 * dy d)
                (Position.x (MiroHandler.position h2) + 2 * dx d)) as [v|] eqn:Hv;
      [|done].
    injection Htreasure as Hwin. apply bool_decide_eq_true in Hwin. subst v.
    split.
    - exists d. split; [done|]. split; [exact Hv|].
      cbn [moved_to MiroHandler.position MiroHandler._current_postion
             MiroHandler._world_map Position.x Position.y].
      fold (MiroHandler.position h2).
      replace (Position.x (MiroHandler.position h2) + 2 * dx d - dx d)
        with (Position.x (MiroHandler.position h2) + dx d) by lia.
      replace (Position.y (MiroHandler.position h2) + 2 * dy d - dy d)
        with (Position.y (MiroHandler.position h2) + dy d) by lia.
      split; [exact Hwall | exact Hwall2].
    - rewrite cell_toward_eq in Hcell. exact Hcell. }
  apply outcome_read; [done| |].
  2:{ intros e Hpit. rewrite (check_pit_infront_eq _ _ d) in Hpit by done.
      destruct (oracle_pit_raise _ _ _ _ e Hcx Hcy Hpit) as [-> Hfail].
      split; [done|]. split; [by split | done]. }
  intros pit Hpit.
  rewrite (check_pit_infront_eq _ _ d) in Hpit by done.
  destruct (interior_cell_read _ _ _ Hsq2 Hcell) as [c Hc].
  rewrite cell_toward_eq in Hc. cbn [Position.x Position.y] in Hc.
  assert (Hc1 : getitem2 (MiroHandler._world_map h1)
            (Position.y (MiroHandler.position h1) + 2 * dy d)
            (Position.x (MiroHandler.position h1) + 2 * dx d) = Ok c).
  { rewrite <-Hc. unfold h2. rewrite with_map_map, with_map_position.
    unfold h2 in Hcx, Hcy. rewrite with_map_position in Hcx, Hcy.
    rewrite Hget by lia. rewrite decide_False; [done|].
    destruct (dx_dy_cases d); lia. }
  pose proof (unrecorded_cell_fresh _ _ _ h1 d w c HInv1 Hw Hun Hc1) as Hfresh.
  destruct (Inv_store_cell _ _ _ h2 d c pit HInv2 Hwall2 Hc Hfresh Hpit)
    as (m'' & Hstore2 & HInv3 & Hmono2 & Hle2 & Hget2).
  pose proof (record_pit_infront_run h2 d pit m'' c eq_refl Hstore2) as Hrecord2.
  pose proof (Inv_with_map_evolves _ _ _ h2 m'' HInv3 Hle2) as Hev23.
  eapply outcome_bind; [exact Hrecord2 | by apply Forall_singleton | exact Hev23 |].
  apply outcome_ret; [by eapply Inv_evolves_refl|].
  split; [done|]. split; [done|]. intros d' <-.
  destruct (interior_wall_in_range _ _ d Hp2) as [Hwx2 Hwy2].
  apply (recorded_cell _ d (if pit then MiroHandler._PIT else MiroHandler._CELL)).
  - rewrite with_map_map, with_map_position. rewrite Hget2 by lia.
    rewrite decide_False; [done|]. destruct (dx_dy_cases d); lia.
  - rewrite with_map_map, with_map_position. rewrite Hget2 by lia.
    by rewrite decide_True.
  - by destruct pit.
Qed.

End Outcomes.

(** ** How the phases and the loop can end *)

Lemma find_best_direction_raise h e :
  enclosed h → is_Some (MiroHandler.direction h) →
  MiroHandler.find_best_direction h = Raise e →
  e = ValueError ∧
  ∀ priority, MiroHandler.generate_direction_priority h None = Ok priority →
              ∀ d, d ∈ priority → MiroHandler.check_valid_path h d = Ok false.
Proof.
  intros Henc [f Hf]. rewrite find_best_direction_selectBestMove. unfold selectBestMove.
  rewrite (pathfinding_priority h f None Hf) by by left.
  destruct (enclosed_candidates h
              [rotateLeft f; rotateLeft (rotateLeft f); f; rotateLeft (rotateLeft f)] Henc)
    as [cands Hcands].
  cbn [mbind result_bind]. rewrite Hcands. cbn [mbind result_bind].
  destruct (stable_max None cands) as [[n d]|] eqn:Hmax; [done|].
  intros [= <-]. split; [done|]. intros priority [= <-].
  apply stable_max_None in Hmax. subst cands. by apply candidates_nil.
Qed.

Lemma interior_cell_same_cell n h h' :
  same_cell h h' → interior_cell n (MiroHandler.position h) →
  interior_cell n (MiroHandler.position h').
Proof. intros [Hx Hy]. unfold interior_cell. by rewrite Hx, Hy. Qed.

Section Endings.

Context (miro_simulation : MiroSimulation.t) (sx sy : Z).

Lemma scan_loop_outcome directions h :
  Inv miro_simulation sx sy h →
  outcome_ok h (scan_outcome miro_simulation sx sy h (λ d, d ∈ directions))
    (scan_loop miro_simulation directions h).
Proof.
  revert h. induction directions as [|d directions IH]; intros h HInv; simpl.
  { apply outcome_ret; [by eapply Inv_evolves_refl|].
    split; [done|]. split; [by split|]. by intros d ?%elem_of_nil. }
  destruct (scan_direction_body miro_simulation d h) as [[r h1] acts1] eqn:Hbody.
  destruct (outcome_of_run _ _ _ _ _ _
              (scan_direction_body_outcome miro_simulation sx sy h d HInv) Hbody)
    as (Hacts & Hev & HQ).
  destruct r as [[|]|e].
  - eapply outcome_bind; [exact Hbody | done | done |].
    apply outcome_ret; [by eapply evolves_refl_r | exact HQ].
  - destruct HQ as (HInv1 & [Hx Hy] & Hrec).
    eapply outcome_bind; [exact Hbody | done | done |].
    eapply outcome_strengthen; [|by apply IH].
    intros r h' Hev' HQ'. destruct r as [[|]|e]; [exact HQ'| |].
    + destruct HQ' as (HInv' & [Hx' Hy'] & Hrec').
      split; [done|]. split; [split; congruence|].
      intros d' [-> | Hin]%elem_of_cons; [|by apply Hrec'].
      apply (direction_recorded_mono h1 h'); [by destruct HInv1 | done | done | |].
      * by destruct Hev' as (_ & _ & _ & Hle).
      * by apply Hrec.
    + destruct HQ' as (-> & [Hx' Hy'] & Hfail).
      split; [done|]. split; [split; congruence|].
      destruct Hev as [<- _]. exact Hfail.
  - eapply outcome_raise; [exact Hbody | done | done | exact HQ].
Qed.

Lemma scan_phase_outcome h :
  Inv miro_simulation sx sy h →
  outcome_ok h (scan_outcome miro_simulation sx sy h (λ _, True))
    (scan_phase miro_simulation h).
Proof.
  intros HInv. destruct (inv_facing _ _ _ _ HInv) as [f Hf].
  unfold scan_phase.
  apply outcome_read; [by eapply Inv_evolves_refl| |].
  2:{ intros e. by rewrite (scanning_priority h f Hf). }
  intros directions Hdirs. rewrite (scanning_priority h f Hf) in Hdirs.
  injection Hdirs as <-.
  eapply outcome_strengthen; [|by apply scan_loop_outcome].
  intros r h' _ HQ. destruct r as [[|]|e]; [exact HQ| |exact HQ].
  destruct HQ as (HInv' & Hcell & Hrec).
  split; [done|]. split; [done|]. intros d _. apply Hrec, scanning_priority_all.
Qed.

Lemma move_phase_outcome h r h' acts :
  Inv miro_simulation sx sy h →
  (∀ d, MiroHandler.direction_recorded h d = Ok true) →
  move_phase h = (r, h', acts) →
  move_outcome miro_simulation sx sy h r h'.
Proof.
  intros HInv Hrec Hmove.
  destruct (outcome_of_run _ _ _ _ _ _ (move_phase_ok miro_simulation sx sy h HInv Hrec) Hmove)
    as (_ & _ & HQ).
  destruct r as [[]|e]; [by apply HQ|].
  destruct (inv_facing _ _ _ _ HInv) as [f Hf].
  unfold move_phase in Hmove. rewrite bind_read in Hmove.
  destruct (MiroHandler.find_best_direction h) as [target|e'] eqn:Hbest.
  - rewrite (bind_run _ _ _ _ _ _ (turn_to_face_run h f target Hf)) in Hmove.
    by rewrite move_forward_run in Hmove.
  - injection Hmove as <- <- <-.
    destruct (find_best_direction_raise h e' (inv_enclosed _ _ _ _ HInv) (inv_facing _ _ _ _ HInv)
                Hbest) as [-> Hnone].
    done.
Qed.

Lemma exploration_loop_outcome fuel h :
  Inv miro_simulation sx sy h →
  run_outcome miro_simulation sx sy (MiroHandler._MAP_DIMENSIONS h)
    (exploration_loop miro_simulation fuel h).1.1
    (exploration_loop miro_simulation fuel h).1.2.
Proof.
  revert h. induction fuel as [|fuel IH]; intros h HInv.
  { simpl. split; [done|]. split; [|done].
    by destruct (inv_enclosed _ _ _ _ HInv) as (_ & _ & _ & _ & Hp). }
  rewrite exploration_loop_unfold.
  destruct (scan_phase miro_simulation h) as [[r hs] acts] eqn:Hscan.
  destruct (outcome_of_run _ _ _ _ _ _ (scan_phase_outcome h HInv) Hscan)
    as (Hacts & Hev & HQ).
  assert (Hdims : MiroHandler._MAP_DIMENSIONS hs = MiroHandler._MAP_DIMENSIONS h)
    by by destruct Hev.
  destruct (inv_enclosed _ _ _ _ HInv) as (_ & _ & _ & _ & Hp).
  destruct r as [[|]|e]; cbn [fst snd].
  - destruct HQ as [Hgoal Hin]. split; [done|]. split; [by rewrite <-Hdims | done].
  - destruct HQ as (HInvs & Hsame & Hrec).
    destruct (move_phase hs) as [[r' h'] acts'] eqn:Hmove.
    pose proof (move_phase_outcome hs r' h' acts' HInvs (λ d, Hrec d I) Hmove) as HQ'.
    destruct r' as [[]|e]; cbn [fst snd].
    + destruct (outcome_of_run _ _ _ _ _ _
                  (move_phase_ok miro_simulation sx sy hs HInvs (λ d, Hrec d I)) Hmove)
        as (_ & (Hdims' & _) & _).
      specialize (IH h' HQ'). by rewrite Hdims', Hdims in IH.
    + destruct HQ' as (-> & -> & Hbest & Hnone).
      split; [done|]. split; [by eapply interior_cell_same_cell|].
      left. split; [done|]. split; [done|]. split; [|done]. intros d. by apply Hrec.
  - destruct HQ as (-> & Hsame & Hfail).
    split; [done|]. split; [by eapply interior_cell_same_cell|]. by right.
Qed.

End Endings.

(** ** How the program can end *)

Lemma main_run MAP_SIZE WORLD_MAP_STRING :
  1 ≤ MAP_SIZE →
  ∃ h0,
    MiroHandler.init (MAP_SIZE * 2 + 1)
      (Position.Position 1 (MAP_SIZE * 2 - 1) (Some east)) = Ok h0 ∧
    MiroHandler._MAP_DIMENSIONS h0 = 2 * MAP_SIZE + 1 ∧
    Inv (MiroSimulation.init WORLD_MAP_STRING) 1 (2 * MAP_SIZE - 1) h0 ∧
    ∀ fuel, main MAP_SIZE WORLD_MAP_STRING fuel
            = Ok (exploration_loop (MiroSimulation.init WORLD_MAP_STRING) fuel h0).
Proof.
  intros HD.
  destruct (init_Inv (MiroSimulation.init WORLD_MAP_STRING) MAP_SIZE HD)
    as (h0 & Hinit & Hdims & HInv).
  exists h0. split; [done|]. split; [done|]. split; [done|].
  intros fuel. unfold main. by rewrite Hinit.
Qed.

Lemma main_outcome MAP_SIZE WORLD_MAP_STRING fuel :
  1 ≤ MAP_SIZE →
  ∃ st h acts,
    main MAP_SIZE WORLD_MAP_STRING fuel = Ok (st, h, acts) ∧
    run_outcome (MiroSimulation.init WORLD_MAP_STRING) 1 (2 * MAP_SIZE - 1)
      (2 * MAP_SIZE + 1) st h.
Proof.
  intros HD.
  destruct (main_run MAP_SIZE WORLD_MAP_STRING HD) as (h0 & _ & Hdims & HInv & Hmain).
  pose proof (exploration_loop_outcome _ _ _ fuel h0 HInv) as Hout.
  rewrite Hdims in Hout. rewrite Hmain.
  destruct (exploration_loop _ fuel h0) as [[st h] acts]. by exists st, h, acts.
Qed.

(** Property X15.  When the program leaves its loop with the goal
    reached, the robot stands on the cell where the environment's map holds
    the treasure, inside the wall ring of the grid, and it got there across a
    wall segment that the environment reported absent and that the handler
    recorded as such. *)
Theorem goal_found_on_treasure MAP_SIZE WORLD_MAP_STRING fuel h acts :
  1 ≤ MAP_SIZE →
  main MAP_SIZE WORLD_MAP_STRING fuel = Ok (GoalFound, h, acts) →
  goal_reached_at (MiroSimulation.init WORLD_MAP_STRING) h ∧
  interior_cell (2 * MAP_SIZE + 1) (MiroHandler.position h).
Proof.
  intros HD Hmain.
  destruct (main_outcome MAP_SIZE WORLD_MAP_STRING fuel HD)
    as (st & h' & acts' & Hmain' & _ & Hin & Hst).
  rewrite Hmain in Hmain'. by simplify_eq.
Qed.

Lemma goal_found_on_treasure_witness :
  ∃ h acts,
    main 2 maze_2x2_goal_east 1 = Ok (GoalFound, h, acts) ∧
    goal_reached_at (MiroSimulation.init maze_2x2_goal_east) h ∧
    interior_cell (2 * 2 + 1) (MiroHandler.position h).
Proof.
  eexists _, _. split; [vm_compute; reflexivity|].
  eapply (goal_found_on_treasure 2 maze_2x2_goal_east 1); [lia | vm_compute; reflexivity].
Defined.

(** Property X16.  For a maze of side at least 1, whatever the map text,
    the program can stop with an exception in two ways only.  Either
    [find_best_direction] raised [ValueError]: then all four directions of
    the cell are recorded and no direction of the pathfinding order has a
    valid path.  Or a query of the environment raised [IndexError]: then the
    map text lacks a slot of the grid.  No other exception ends a run. *)
Theorem crash_is_stuck_or_environment MAP_SIZE WORLD_MAP_STRING fuel e h acts :
  1 ≤ MAP_SIZE →
  main MAP_SIZE WORLD_MAP_STRING fuel = Ok (Crashed e, h, acts) →
  (e = ValueError ∧
   MiroHandler.find_best_direction h = Raise ValueError ∧
   (∀ d, MiroHandler.direction_recorded h d = Ok true) ∧
   ∀ priority, MiroHandler.generate_direction_priority h None = Ok priority →
               ∀ d, d ∈ priority → MiroHandler.check_valid_path h d = Ok false) ∨
  (e = IndexError ∧
   environment_read_failed (MiroSimulation.init WORLD_MAP_STRING) (2 * MAP_SIZE + 1)).
Proof.
  intros HD Hmain.
  destruct (main_outcome MAP_SIZE WORLD_MAP_STRING fuel HD)
    as (st & h' & acts' & Hmain' & _ & Hin & Hst).
  rewrite Hmain in Hmain'. by simplify_eq.
Qed.

Lemma crash_is_stuck_or_environment_witness :
  (ValueError = ValueError ∧
   MiroHandler.find_best_direction scanned_2x2_wall_north = Raise ValueError ∧
   (∀ d, MiroHandler.direction_recorded scanned_2x2_wall_north d = Ok true) ∧
   ∀ priority,
     MiroHandler.generate_direction_priority scanned_2x2_wall_north None = Ok priority →
     ∀ d, d ∈ priority → MiroHandler.check_valid_path scanned_2x2_wall_north d = Ok false) ∨
  (ValueError = IndexError ∧
   environment_read_failed (MiroSimulation.init maze_2x2_wall_north) (2 * 2 + 1)).
Proof.
  eapply (crash_is_stuck_or_environment 2 maze_2x2_wall_north 1); [lia|].
  vm_compute. reflexivity.
Defined.

(** Property X17.  For a maze of side at least 1, whatever the map text
    and however long the loop is observed, the program is built and runs,
    and however it stands or ends (still running, goal reached, or stopped
    by an exception) the pose is on a cell inside the wall ring of the grid
    of side [2 * MAP_SIZE + 1]. *)
Theorem pose_stays_inside_ring MAP_SIZE WORLD_MAP_STRING fuel :
  1 ≤ MAP_SIZE →
  ∃ st h acts,
    main MAP_SIZE WORLD_MAP_STRING fuel = Ok (st, h, acts) ∧
    MiroHandler._MAP_DIMENSIONS h = 2 * MAP_SIZE + 1 ∧
    interior_cell (2 * MAP_SIZE + 1) (MiroHandler.position h).
Proof.
  intros HD.
  destruct (main_outcome MAP_SIZE WORLD_MAP_STRING fuel HD)
    as (st & h & acts & Hmain & Hdims & Hin & _).
  by exists st, h, acts.
Qed.

Lemma pose_stays_inside_ring_witness :
  ∃ st h acts,
    main 2 maze_2x2_open 3 = Ok (st, h, acts) ∧
    MiroHandler._MAP_DIMENSIONS h = 2 * 2 + 1 ∧
    interior_cell (2 * 2 + 1) (MiroHandler.position h).
Proof. apply (pose_stays_inside_ring 2 maze_2x2_open 3). lia. Defined.

(** Property X18.  Every move the loop decides on is a move the
    environment allows.  At every state at which the loop stands after some
    iterations, an iteration that ends with the loop still running has taken
    the robot to the neighbouring cell in the direction it now faces, across
    a wall segment for which the environment reports no wall, into a cell
    for which the environment reports no pit, or back into the start
    cell. *)
Theorem move_crosses_open_segment MAP_SIZE WORLD_MAP_STRING h0 h h' acts :
  1 ≤ MAP_SIZE →
  MiroHandler.init (MAP_SIZE * 2 + 1)
    (Position.Position 1 (MAP_SIZE * 2 - 1) (Some east)) = Ok h0 →
  running_at (MiroSimulation.init WORLD_MAP_STRING) h0 h →
  exploration_loop (MiroSimulation.init WORLD_MAP_STRING) 1 h = (Running, h', acts) →
  ∃ d,
    MiroHandler.direction h' = Some d ∧
    Position.x (MiroHandler.position h') = Position.x (MiroHandler.position h) + 2 * dx d ∧
    Position.y (MiroHandler.position h') = Position.y (MiroHandler.position h) + 2 * dy d ∧
    oracle_wall (MiroSimulation.init WORLD_MAP_STRING)
      (Position.x (MiroHandler.position h) + dx d)
      (Position.y (MiroHandler.position h) + dy d) = Ok false ∧
    (oracle_pit (MiroSimulation.init WORLD_MAP_STRING)
       (Position.x (MiroHandler.position h')) (Position.y (MiroHandler.position h'))
     = Ok false ∨
     (Position.x (MiroHandler.position h') = 1 ∧
      Position.y (MiroHandler.position h') = 2 * MAP_SIZE - 1)).
Proof.
  intros HD Hinit Hrun Hloop.
  destruct (main_run MAP_SIZE WORLD_MAP_STRING HD) as (h0' & Hinit' & _ & HInv0 & _).
  rewrite Hinit in Hinit'. injection Hinit' as <-.
  destruct (running_at_Inv _ _ _ h0 h HInv0 Hrun) as [HInv _].
  rewrite exploration_loop_unfold in Hloop.
  destruct (scan_phase (MiroSimulation.init WORLD_MAP_STRING) h) as [[r hs] acts1] eqn:Hscan.
  destruct (outcome_of_run _ _ _ _ _ _ (scan_phase_ok _ _ _ h HInv) Hscan) as (_ & _ & HQ).
  destruct r as [[|]|e]; [done| |done].
  destruct (HQ eq_refl) as (HInvs & [Hsx Hsy] & Hrec).
  destruct (move_phase hs) as [[r' h1] acts'] eqn:Hmove.
  destruct r' as [[]|e]; [|done].
  cbn [exploration_loop fst snd] in Hloop. injection Hloop as <- _.
  destruct (inv_facing _ _ _ _ HInvs) as [f Hf].
  unfold move_phase in Hmove. rewrite bind_read in Hmove.
  destruct (MiroHandler.find_best_direction hs) as [target|] eqn:Hbest; [|done].
  rewrite (bind_run _ _ _ _ _ _ (turn_to_face_run hs f target Hf)) in Hmove.
  rewrite move_forward_run in Hmove. cbn [fst snd] in Hmove.
  rewrite (handle_direction_own _ cells target) in Hmove by done.
  rewrite handle_direction_Some in Hmove.
  replace (Offset.x _) with (2 * dx target) in Hmove by by destruct target.
  replace (Offset.y _) with (2 * dy target) in Hmove by by destruct target.
  injection Hmove as <- _.
  cbn [moved_to facing MiroHandler.position MiroHandler.direction
         MiroHandler._current_postion Position.x Position.y Position.direction].
  fold (MiroHandler.position hs). rewrite Hsx, Hsy.
  exists target. split; [done|]. split; [done|]. split; [done|].
  apply find_best_direction_valid in Hbest.
  apply check_valid_path_true in Hbest as (wall & cell & Hwall & Htruthy & Hcell & Hpit).
  rewrite get_wall_eq in Hwall. rewrite get_cell_eq in Hcell.
  rewrite Hsx, Hsy in Hwall, Hcell.
  destruct (recorded_known hs target (Hrec target)) as (w & Hw & HwN & Hknown).
  rewrite Hsx, Hsy in Hw, Hknown. rewrite Hwall in Hw. injection Hw as <-.
  destruct (inv_enclosed _ _ _ _ HInvs) as (_ & Hn & Hsq & Hring & Hp).
  pose proof Hp as (Hox & Hoy & _ & _).
  destruct (interior_wall_in_range _ _ target Hp) as [Hwx Hwy].
  rewrite Hsx in Hwx, Hox. rewrite Hsy in Hwy, Hoy.
  pose proof (wall_slot_parity _ _ target Hox Hoy) as Hparity.
  assert (Hwall' : wall = MiroHandler._NO_WALL ∧
                   oracle_wall (MiroSimulation.init WORLD_MAP_STRING)
                     (Position.x (MiroHandler.position h) + dx target)
                     (Position.y (MiroHandler.position h) + dy target) = Ok false).
  { destruct (inv_walls _ _ _ _ HInvs _ _ wall Hwx Hwy Hparity Hwall)
      as [-> | [[-> _] | (b & Hb & ->)]]; [done | done |].
    by destruct b. }
  destruct Hwall' as [-> Horacle]. split; [exact Horacle|].
  destruct (Hknown eq_refl) as (c & Hc & HcN).
  rewrite Hcell in Hc. injection Hc as <-.
  assert (Hwall0 : getitem2 (MiroHandler._world_map hs)
                     (Position.y (MiroHandler.position hs) + dy target)
                     (Position.x (MiroHandler.position hs) + dx target)
                   = Ok MiroHandler._NO_WALL) by by rewrite Hsx, Hsy.
  pose proof (interior_cell_toward _ _ _ target _ Hn Hring Hp Hwall0 ltac:(done)) as Hin.
  rewrite cell_toward_eq in Hin. destruct Hin as (Hcox & Hcoy & Hcx & Hcy).
  cbn [Position.x Position.y] in Hcox, Hcoy, Hcx, Hcy.
  rewrite Hsx in Hcox, Hcx. rewrite Hsy in Hcoy, Hcy.
  destruct (inv_cells _ _ _ _ HInvs
              (Position.x (MiroHandler.position h) + 2 * dx target)
              (Position.y (MiroHandler.position h) + 2 * dy target)
              cell ltac:(lia) ltac:(lia) Hcox Hcoy Hcell)
    as [-> | [(Hx & Hy & _) | (b & Hb & ->)]]; [done | by right; lia |].
  left. by destruct b.
Qed.

Lemma move_crosses_open_segment_witness :
  ∃ d,
    d = north ∧
    oracle_wall (MiroSimulation.init maze_2x2_open) (1 + dx d) (3 + dy d) = Ok false ∧
    (oracle_pit (MiroSimulation.init maze_2x2_open) 1 1 = Ok false ∨ (1 = 1 ∧ 1 = 2 * 2 - 1)).
Proof.
  edestruct (move_crosses_open_segment 2 maze_2x2_open)
    as (d & Hd & Hx & Hy & Hwall & Hpit);
    [lia | vm_compute; reflexivity | apply running_at_start | vm_compute; reflexivity |].
  exists d. assert (d = north) as ->.
  { cbn in Hd. by injection Hd as <-. }
  split; [done|]. split; [exact Hwall | exact Hpit].
Defined.

(** ** Scanning a cell again *)

Lemma scan_loop_recorded miro_simulation directions h :
  (∀ d, d ∈ directions → MiroHandler.direction_recorded h d = Ok true) →
  scan_loop miro_simulation directions h = (Ok false, h, []).
Proof.
  induction directions as [|d directions IH]; intros Hrec; simpl; [done|].
  assert (scan_direction_body miro_simulation d h = (Ok false, h, [])) as Hbody.
  { unfold scan_direction_body. rewrite bind_read, Hrec by left. done. }
  rewrite (bind_run _ _ _ _ _ _ Hbody). cbv beta iota.
  rewrite IH; [done|]. intros d' ?. apply Hrec. by right.
Qed.

(** Property X19.  On a cell whose four directions are recorded the scan
    phase does nothing: it asks the environment no question, performs no
    turn and no store, leaves the handler as it is and reports that the goal
    was not reached.  Without a facing it raises [ValueError] at once. *)
Theorem scan_phase_of_recorded_cell miro_simulation h :
  (is_Some (MiroHandler.direction h) →
   (∀ d, MiroHandler.direction_recorded h d = Ok true) →
   scan_phase miro_simulation h = (Ok false, h, [])) ∧
  (MiroHandler.direction h = None →
   scan_phase miro_simulation h = (Raise ValueError, h, [])).
Proof.
  split.
  - intros [f Hf] Hrec. unfold scan_phase. rewrite bind_read.
    rewrite (scanning_priority h f Hf). apply scan_loop_recorded. intros d _. apply Hrec.
  - intros Hnone. unfold scan_phase. rewrite bind_read.
    by rewrite generate_direction_priority_no_direction.
Qed.

Lemma scan_phase_of_recorded_cell_witness :
  scan_phase (MiroSimulation.init maze_1x1_goal) handler_1x1 = (Ok false, handler_1x1, []).
Proof.
  refine (proj1 (scan_phase_of_recorded_cell (MiroSimulation.init maze_1x1_goal) handler_1x1)
            _ _).
  - by eexists.
  - by intros [].
Defined.

(** ** The display *)

Lemma string_append_nil_r (s : string) : s +:+ "" = s.
Proof.
  induction s as [|c s IH]; [done|].
  change (String c (s +:+ "") = String c s). by rewrite IH.
Qed.

Lemma string_append_assoc (a b c : string) : (a +:+ b) +:+ c = a +:+ (b +:+ c).
Proof.
  induction a as [|x a IH]; [done|].
  change (String x ((a +:+ b) +:+ c) = String x (a +:+ (b +:+ c))). by rewrite IH.
Qed.

Lemma chars_append (a b : string) : chars (a +:+ b) = chars a ++ chars b.
Proof.
  induction a as [|x a IH]; [done|].
  change (x :: chars (a +:+ b) = x :: (chars a ++ chars b)). by rewrite IH.
Qed.

Lemma for_each_ext {A B : Type} (f g : B → A → result B) acc l :
  (∀ acc a, a ∈ l → f acc a = g acc a) → for_each f acc l = for_each g acc l.
Proof.
  revert acc. induction l as [|a l IH]; intros acc Hfg; simpl; [done|].
  rewrite Hfg by left. destruct (g acc a) as [acc'|]; simpl; [|done].
  apply IH. intros acc'' b ?. apply Hfg. by right.
Qed.

Lemma getitem_middle {A : Type} (pre : list A) c l :
  getitem (pre ++ c :: l) (Z.of_nat (length pre)) = Ok c.
Proof. rewrite getitem_nonneg by lia. by rewrite Nat2Z.id, list_lookup_middle. Qed.

Lemma row_loop p i (pre l : list value) (acc : string) :
  for_each
    (λ current_line j,
       char ← getitem (pre ++ l) j;
       s ← MiroSimulation.to_append p i j char;
       Ok (current_line +:+ s))
    acc (seqZ (Z.of_nat (length pre)) (Z.of_nat (length l)))
  = (t ← line_text p i (Z.of_nat (length pre)) l; Ok (acc +:+ t)).
Proof.
  revert pre acc. induction l as [|c l IH]; intros pre acc.
  { simpl. by rewrite string_append_nil_r. }
  rewrite seqZ_cons by (simpl; lia). cbn [for_each line_text].
  rewrite getitem_middle. cbn [mbind result_bind].
  destruct (MiroSimulation.to_append p i (Z.of_nat (length pre)) c) as [s|e];
    cbn [mbind result_bind]; [|done].
  replace (Z.pred (Z.of_nat (length (c :: l)))) with (Z.of_nat (length l))
    by (simpl; lia).
  replace (Z.succ (Z.of_nat (length pre))) with (Z.of_nat (length (pre ++ [c])))
    by (rewrite length_app; simpl; lia).
  replace (pre ++ c :: l) with ((pre ++ [c]) ++ l) by by rewrite <-app_assoc.
  rewrite IH.
  replace (Z.of_nat (length (pre ++ [c]))) with (Z.of_nat (length pre) + 1)
    by (rewrite length_app; simpl; lia).
  destruct (line_text p i (Z.of_nat (length pre) + 1) l) as [t|e];
    cbn [mbind result_bind]; [|done].
  by rewrite string_append_assoc.
Qed.

Lemma map_loop p (pre world_map : list (list value)) (acc : string) :
  for_each
    (λ output_map i,
       row ← getitem (pre ++ world_map) i;
       current_line ←
         for_each
           (λ current_line j,
              char ← getitem2 (pre ++ world_map) i j;
              s ← MiroSimulation.to_append p i j char;
              Ok (current_line +:+ s))
           "" (Py.range (Z.of_nat (length row)));
       Ok (output_map +:+ current_line +:+ String MiroSimulation.newline ""))
    acc (seqZ (Z.of_nat (length pre)) (Z.of_nat (length world_map)))
  = (t ← map_text p (Z.of_nat (length pre)) world_map; Ok (acc +:+ t)).
Proof.
  revert pre acc. induction world_map as [|row world_map IH]; intros pre acc.
  { simpl. by rewrite string_append_nil_r. }
  rewrite seqZ_cons by (simpl; lia). cbn [for_each map_text].
  rewrite getitem_middle. cbn [mbind result_bind].
  rewrite (for_each_ext _
             (λ current_line j,
                char ← getitem ([] ++ row) j;
                s ← MiroSimulation.to_append p (Z.of_nat (length pre)) j char;
                Ok (current_line +:+ s))).
  2:{ intros cur j _. unfold getitem2. by rewrite getitem_middle. }
  unfold Py.range.
  pose proof (row_loop p (Z.of_nat (length pre)) [] row "") as Hrow.
  change (Z.of_nat (length (@nil value))) with 0 in Hrow. rewrite Hrow.
  destruct (line_text p (Z.of_nat (length pre)) 0 row) as [line|e];
    cbn [mbind result_bind]; [|done].
  replace (Z.pred (Z.of_nat (length (row :: world_map))))
    with (Z.of_nat (length world_map)) by (simpl; lia).
  replace (Z.succ (Z.of_nat (length pre))) with (Z.of_nat (length (pre ++ [row])))
    by (rewrite length_app; simpl; lia).
  replace (pre ++ row :: world_map) with ((pre ++ [row]) ++ world_map)
    by by rewrite <-app_assoc.
  rewrite IH.
  replace (Z.of_nat (length (pre ++ [row]))) with (Z.of_nat (length pre) + 1)
    by (rewrite length_app; simpl; lia).
  destruct (map_text p (Z.of_nat (length pre) + 1) world_map) as [t|e];
    cbn [mbind result_bind]; [|done].
  by rewrite !string_append_assoc.
Qed.

Lemma generate_world_map_from_list_eq world_map p :
  MiroSimulation.generate_world_map_from_list world_map p = map_text p 0 world_map.
Proof.
  unfold MiroSimulation.generate_world_map_from_list.
  change (Py.range (Z.of_nat (length world_map)))
    with (seqZ 0 (Z.of_nat (length world_map))).
  pose proof (map_loop p [] world_map "") as Hmap.
  change (Z.of_nat (length (@nil (list value)))) with 0 in Hmap.
  change ([] ++ world_map) with world_map in Hmap. rewrite Hmap.
  by destruct (map_text p 0 world_map).
Qed.





Lemma to_append_Ok p i j v :
  is_Some (Position.direction p) → ∃ s, MiroSimulation.to_append p i j v = Ok s.
Proof.
  intros [d Hd]. unfold MiroSimulation.to_append. cbv zeta. rewrite Hd.
  case_decide; [destruct d; simpl; eauto|].
  repeat (match goal with |- context [if ?b then _ else _] => destruct b end);
    eauto.
Qed.

Lemma to_append_raise p i j v e :
  MiroSimulation.to_append p i j v = Raise e →
  e = KeyError ∧ Position.direction p = None ∧
  Position.y p = i ∧ Position.x p = j.
Proof.
  unfold MiroSimulation.to_append. cbv zeta.
  case_decide as Hpose.
  { destruct (Position.direction p) as [[]|]; simpl; [done..|]. by intros [= <-]. }
  repeat (match goal with |- context [if ?b then _ else _] => destruct b end);
    done.
Qed.

Lemma line_text_Ok p i j row :
  is_Some (Position.direction p) → ∃ s, line_text p i j row = Ok s.
Proof.
  intros Hd. revert j. induction row as [|v row IH]; intros j; cbn [line_text]; [eauto|].
  destruct (to_append_Ok p i j v Hd) as [s ->]. destruct (IH (j + 1)) as [rest ->].
  simpl. eauto.
Qed.

Lemma line_text_raise p i j row e :
  line_text p i j row = Raise e →
  e = KeyError ∧ Position.direction p = None ∧ Position.y p = i ∧
  j ≤ Position.x p < j + Z.of_nat (length row).
Proof.
  revert j. induction row as [|v row IH]; intros j; cbn [line_text]; [done|].
  destruct (MiroSimulation.to_append p i j v) as [s|e'] eqn:Hs; cbn [mbind result_bind].
  - destruct (line_text p i (j + 1) row) as [rest|e'] eqn:Hrest;
      cbn [mbind result_bind]; [done|].
    intros [= <-]. destruct (IH (j + 1) Hrest) as (-> & Hd & Hy & Hx).
    repeat split; try done; simpl; lia.
  - intros [= <-]. destruct (to_append_raise p i j v e' Hs) as (-> & Hd & Hy & Hx).
    repeat split; try done; simpl; lia.
Qed.

Lemma map_text_Ok p i world_map :
  is_Some (Position.direction p) → ∃ text, map_text p i world_map = Ok text.
Proof.
  intros Hd. revert i. induction world_map as [|row world_map IH]; intros i;
    cbn [map_text]; [eauto|].
  destruct (line_text_Ok p i 0 row Hd) as [line ->]. destruct (IH (i + 1)) as [rest ->].
  simpl. eauto.
Qed.

Lemma map_text_raise p i (world_map : list (list value)) e :
  map_text p i world_map = Raise e →
  e = KeyError ∧ Position.direction p = None ∧
  ∃ row, world_map !! Z.to_nat (Position.y p - i) = Some row ∧ i ≤ Position.y p ∧
         0 ≤ Position.x p < Z.of_nat (length row).
Proof.
  revert i. induction world_map as [|row world_map IH]; intros i; cbn [map_text]; [done|].
  destruct (line_text p i 0 row) as [line|e'] eqn:Hline; cbn [mbind result_bind].
  - destruct (map_text p (i + 1) world_map) as [rest|e'] eqn:Hrest;
      cbn [mbind result_bind]; [done|].
    intros [= <-]. destruct (IH (i + 1) Hrest) as (-> & Hd & row' & Hrow' & Hy & Hx).
    split; [done|]. split; [done|]. exists row'. split; [|lia].
    replace (Z.to_nat (Position.y p - i)) with (S (Z.to_nat (Position.y p - (i + 1))))
      by lia.
    done.
  - intros [= <-]. destruct (line_text_raise p i 0 row e' Hline) as (-> & Hd & Hy & Hx).
    split; [done|]. split; [done|]. exists row. rewrite Hy, Z.sub_diag. split; [done|]. lia.
Qed.

(** Property X20.  Displaying a map cannot fail when the pose has a
    direction, as it has throughout the loop: it gives a text whatever the
    map holds.  It fails only when the pose has no direction and lies on a
    slot of the map, with the [KeyError] of the arrow lookup. *)
Theorem display_total world_map p :
  (is_Some (Position.direction p) →
   ∃ text, MiroSimulation.generate_world_map_from_list world_map p = Ok text) ∧
  (∀ e, MiroSimulation.generate_world_map_from_list world_map p = Raise e →
        e = KeyError ∧ Position.direction p = None ∧
        ∃ row, world_map !! Z.to_nat (Position.y p) = Some row ∧ 0 ≤ Position.y p ∧
               0 ≤ Position.x p < Z.of_nat (length row)).
Proof.
  rewrite generate_world_map_from_list_eq. split.
  - apply map_text_Ok.
  - intros e He. destruct (map_text_raise p 0 world_map e He) as (-> & Hd & row & Hrow & ?).
    split; [done|]. split; [done|]. exists row.
    by rewrite Z.sub_0_r in Hrow.
Qed.

Lemma display_total_witness :
  ∃ text,
    MiroSimulation.generate_world_map_from_list (MiroHandler._world_map handler_1x1)
      (MiroHandler.position handler_1x1) = Ok text.
Proof.
  refine (proj1 (display_total (MiroHandler._world_map handler_1x1)
                   (MiroHandler.position handler_1x1)) _).
  by eexists.
Defined.



(** ** The map file reader *)

Lemma split_cons_inv sep (s : list ascii) : ∃ line lines, Py.split sep s = line :: lines.
Proof.
  induction s as [|c s (line & lines & IH)]; simpl; [eauto|].
  case_decide; [eauto|]. rewrite IH. eauto.
Qed.

Lemma split_app sep (a b : list ascii) :
  Py.split sep (a ++ sep :: b) = Py.split sep a ++ Py.split sep b.
Proof.
  induction a as [|c a IH]; simpl.
  { by rewrite decide_True. }
  case_decide; [by rewrite IH|].
  rewrite IH. by destruct (split_cons_inv sep a) as (line & lines & ->).
Qed.

Lemma split_no_sep sep (a : list ascii) : sep ∉ a → Py.split sep a = [a].
Proof.
  induction a as [|c a IH]; intros Hsep; simpl; [done|].
  apply not_elem_of_cons in Hsep as [Hc Ha].
  rewrite decide_False by done. by rewrite IH.
Qed.

Lemma cell_of_char_values c :
  Forall (λ v, v = MiroSimulation.WALL_INTERSECTION ∨ v = MiroSimulation.NO_WALL ∨
               v = MiroSimulation.WALL ∨ v = MiroSimulation.WIN)
    (MiroSimulation.cell_of_char c).
Proof.
  unfold MiroSimulation.cell_of_char.
  repeat case_decide; repeat constructor; tauto.
Qed.

(** Property X22.  The map file reader works line by line: the map of two
    texts joined by a line break is the map of the first followed by the map
    of the second, and a text without a line break gives one row.  It never
    gives an empty map, and every slot it produces holds an intersection, 0,
    1 or 2 (blanks and all other characters are skipped). *)
Theorem generate_world_map_from_file_lines (a b : string) :
  MiroSimulation.generate_world_map_from_file (a +:+ String MiroSimulation.newline b)
  = MiroSimulation.generate_world_map_from_file a
    ++ MiroSimulation.generate_world_map_from_file b ∧
  (MiroSimulation.newline ∉ chars a →
   MiroSimulation.generate_world_map_from_file a
   = [mjoin (MiroSimulation.cell_of_char <$> chars a)]) ∧
  MiroSimulation.generate_world_map_from_file a ≠ [] ∧
  Forall (Forall (λ v, v = MiroSimulation.WALL_INTERSECTION ∨ v = PyInt 0 ∨
                       v = PyInt 1 ∨ v = PyInt 2))
    (MiroSimulation.generate_world_map_from_file a).
Proof.
  unfold MiroSimulation.generate_world_map_from_file. fold (chars a) (chars b).
  fold (chars (a +:+ String MiroSimulation.newline b)).
  split; [|split; [|split]].
  - rewrite chars_append.
    change (chars (String MiroSimulation.newline b)) with (MiroSimulation.newline :: chars b).
    by rewrite split_app, fmap_app.
  - intros Hnl. by rewrite split_no_sep.
  - destruct (split_cons_inv MiroSimulation.newline (chars a)) as (line & lines & ->). done.
  - apply Forall_fmap, Forall_forall. intros line _. simpl.
    apply Forall_join, Forall_fmap, Forall_forall. intros c _.
    apply cell_of_char_values.
Qed.
